(** * Beat-synchronous features and bar tracking (madmom/features/downbeats.py)

  A shallow embedding of [BeatSyncProcessor], [DBNBarTrackingProcessor],
  [GMMBarProcessor] and [GMMDownBeatTrackingObservationModel], and of the
  loop over the input lines of bin/GMM_control.py.  Floating point numbers
  are read as exact rationals ([Q]); integer valued arrays are kept in
  [Z]. *)

From Stdlib Require Import String DecimalString.
From Stdlib Require Import ZArith QArith Qround Qabs List Lia Lqa Bool Arith.
From Stdlib Require Import Setoid Morphisms.
Import ListNotations.

Local Open Scope Q_scope.

(** ** Exceptions *)

(** Python exceptions that the modelled code can raise *)
Inductive exn :=
| IndexError
| ZeroDivisionError
| OverflowError
| TypeError (msg : string)
| ValueError (msg : string).

Inductive result (A : Type) :=
| Ok (a : A)
| Raise (e : exn).
Arguments Ok {A} a.
Arguments Raise {A} e.

Definition bind {A B : Type} (r : result A) (k : A -> result B) : result B :=
  match r with
  | Ok a => k a
  | Raise e => Raise e
  end.

Notation "x <- c ;; k" := (bind c (fun x => k))
  (at level 61, c at next level, right associativity).
Notation "' p <- c ;; k" := (bind c (fun x => let 'p := x in k))
  (at level 61, p pattern, c at next level, right associativity).

Definition index {A : Type} (l : list A) (i : nat) : result A :=
  match nth_error l i with
  | Some a => Ok a
  | None => Raise IndexError
  end.

(** Loops whose body can raise *)
Fixpoint for_each {A S : Type} (l : list A) (body : S -> A -> result S)
    (s : S) : result S :=
  match l with
  | [] => Ok s
  | a :: rest => s' <- body s a ;; for_each rest body s'
  end.

Fixpoint map_result {A B : Type} (f : A -> result B) (l : list A)
  : result (list B) :=
  match l with
  | [] => Ok []
  | a :: rest => b <- f a ;; bs <- map_result f rest ;; Ok (b :: bs)
  end.

(** ** The numpy primitives the module relies on *)

Module Np.

(** [np.round]: to the nearest integer, ties to the even neighbour. *)
Definition round (x : Q) : Z :=
  let f := Qfloor x in
  match ((x - inject_Z f) ?= (1 # 2))%Q with
  | Lt => f
  | Gt => (f + 1)%Z
  | Eq => if Z.even f then f else (f + 1)%Z
  end.

(** [np.floor] *)
Definition floor (x : Q) : Z := Qfloor x.

(** [np.linspace(start, stop, num)] with the end point included:
    [num] evenly spaced samples, [start + i * (stop - start) / (num - 1)]. *)
Definition linspace (start stop : Q) (num : nat) : list Q :=
  match num with
  | O => []
  | S O => [start]
  | S d =>
      let step := (stop - start) / inject_Z (Z.of_nat d) in
      map (fun i => start + inject_Z (Z.of_nat i) * step) (seq 0 num)
  end.

(** [np.diff] on a vector of integer valued entries *)
Fixpoint diff (l : list Z) : list Z :=
  match l with
  | a :: (b :: _) as t => (b - a)%Z :: diff t
  | _ => []
  end.

(** [np.sum] of a vector *)
Definition sum (l : list Q) : Q := fold_left Qplus l 0.

(** [np.interp(x, xp, fp)] at one point, for increasing [xp]: the value on
    the segment that holds [x], the first or the last value outside of the
    sample points. *)
Fixpoint interp_from (x x0 f0 : Q) (pts : list (Q * Q)) : Q :=
  match pts with
  | [] => f0
  | (x1, f1) :: rest =>
      if Qlt_le_dec x x1
      then (f1 - f0) / (x1 - x0) * (x - x0) + f0
      else interp_from x x1 f1 rest
  end.

Definition interp_at (x : Q) (pts : list (Q * Q)) : Q :=
  match pts with
  | [] => 0
  | (x0, f0) :: rest =>
      if Qlt_le_dec x0 x then interp_from x x0 f0 rest else f0
  end.

Definition interp1 (x : Q) (xp fp : list Q) : result Q :=
  match xp with
  | [] => Raise (ValueError "array of sample points is empty"%string)
  | _ =>
      if negb (Nat.eqb (length xp) (length fp))
      then Raise (ValueError "fp and xp are not of the same length."%string)
      else Ok (interp_at x (combine xp fp))
  end.

(** [np.interp(xs, xp, fp)] *)
Fixpoint interp (xs xp fp : list Q) : result (list Q) :=
  match xs with
  | [] =>
      (* the sample points are checked even when nothing is asked for *)
      _ <- interp1 0 xp fp ;; Ok []
  | x :: rest =>
      y <- interp1 x xp fp ;;
      ys <- interp rest xp fp ;;
      Ok (y :: ys)
  end.

(** An array of any rank: its shape and its entries in row-major order. *)
Record ndarray := mk_array {
  shape : list nat;
  data : list Q
}.

Definition ndim (a : ndarray) : nat := length (shape a).

(** [a.any()]: some entry is not zero *)
Definition any (a : ndarray) : bool :=
  existsb (fun x => negb (Qeq_bool x 0)) (data a).

(** [np.argmax]: the first index of the largest entry *)
Fixpoint argmax_from (l : list Q) (i best : nat) (best_value : Q) : nat :=
  match l with
  | [] => best
  | x :: rest =>
      if Qlt_le_dec best_value x
      then argmax_from rest (S i) i x
      else argmax_from rest (S i) best best_value
  end.

Definition argmax (l : list Q) : result nat :=
  match l with
  | [] =>
      Raise (ValueError "attempt to get argmax of an empty sequence"%string)
  | x :: rest => Ok (argmax_from rest 1 0%nat x)
  end.

End Np.

(** ** BeatSyncProcessor *)

Module BeatSync.

(** [feat_sum] starts as the Python scalar [0.] and becomes an array of
    shape [(feat_dim,)] once it was rebuilt from a row of
    [beat_features]. *)
Inductive accum :=
| Scalar (a : Q)
| Vec (v : list Q).

Record t := mk {
  beat_subdivisions : nat;
  feat_dim : nat;
  fps : Q;
  feat_sum : accum;
  counter : Z;
  current_div : nat;
  div_frames : option (list Z);
  last_beat : option Q;
  beat_features : list (list Q);
  offset : Z
}.

Definition zeros (rows cols : nat) : list (list Q) :=
  repeat (repeat 0 cols) rows.

(** [__init__] *)
Definition init (beat_subdivisions feat_dim : nat) (fps : Q) : t :=
  {| beat_subdivisions := beat_subdivisions;
     feat_dim := feat_dim;
     fps := fps;
     feat_sum := Scalar 0;
     counter := 0;
     current_div := 0;
     div_frames := None;
     last_beat := None;
     beat_features := zeros beat_subdivisions feat_dim;
     offset := 2 |}.

(** [beat.any()]: the beat is an empty array ([None]) or one time stamp;
    a time stamp is truthy when it is not zero. *)
Definition any_beat (beat : option Q) : bool :=
  match beat with
  | None => false
  | Some b => negb (Qeq_bool b 0)
  end.

(** [np.diff(np.round(np.linspace(0, beat_interval * fps,
    beat_subdivisions + 1)))] *)
Definition subdivision_lengths (beat_interval fps : Q) (n : nat) : list Z :=
  Np.diff (map Np.round (Np.linspace 0 (beat_interval * fps) (n + 1))).

(** [feat_sum += feature], the feature being one scalar per frame *)
Definition accum_add (s : accum) (f : Q) : accum :=
  match s with
  | Scalar a => Scalar (a + f)
  | Vec v => Vec (map (fun x => x + f) v)
  end.

(** [feat_sum / counter] written into one row of [beat_features] *)
Definition accum_mean (s : accum) (c : Z) (cols : nat) : list Q :=
  match s with
  | Scalar a => repeat (a / inject_Z c) cols
  | Vec v => map (fun x => x / inject_Z c) v
  end.

(** [feat_sum * offset / counter] *)
Definition accum_rescale (s : accum) (off c : Z) : accum :=
  match s with
  | Scalar a => Scalar (a * inject_Z off / inject_Z c)
  | Vec v => Vec (map (fun x => x * inject_Z off / inject_Z c) v)
  end.

(** [l[i] = x]; an index outside the array raises *)
Fixpoint set_row {A : Type} (l : list A) (i : nat) (x : A) : list A :=
  match l, i with
  | [], _ => []
  | _ :: t, O => x :: t
  | a :: t, S j => a :: set_row t j x
  end.

Definition assign_row {A : Type} (l : list A) (i : nat) (x : A)
  : result (list A) :=
  if (i <? length l)%nat then Ok (set_row l i x) else Raise IndexError.

(** [a % n] on Python integers *)
Definition py_mod (a n : nat) : result nat :=
  match n with
  | O => Raise ZeroDivisionError
  | _ => Ok (a mod n)%nat
  end.

(** [a[-1]] *)
Definition last_row {A : Type} (l : list A) : result A :=
  match rev l with
  | [] => Raise IndexError
  | a :: _ => Ok a
  end.

(** What one call returns: the beat passed through and, at a beat, the
    beat synchronous features; [None] stands for the empty arrays
    [np.empty(0)] and [np.empty((0, 3))]. *)
Definition output : Type := (option Q * option (list (list Q)))%type.

(** The end of a subdivision: the mean is stored, the pointer advances and
    the sum and the frame counter start again (lines 124-133). *)
Definition end_of_division (s : t) (feat_sum1 : accum) (counter1 : Z)
  : result (list (list Q) * nat * accum * Z) :=
  df <- match div_frames s with
        | Some df => Ok df
        | None => Raise (TypeError "'NoneType' object is not subscriptable"%string)
        end ;;
  len <- index df (current_div s) ;;
  if (len <=? counter1)%Z
  then
    bf <- assign_row (beat_features s) (current_div s)
            (accum_mean feat_sum1 counter1 (feat_dim s)) ;;
    cd <- py_mod (current_div s + 1) (beat_subdivisions s) ;;
    Ok (bf, cd, Scalar 0, 0%Z)
  else Ok (beat_features s, current_div s, feat_sum1, counter1).

(** [process_online] *)
Definition process_online (s : t) (beat : option Q) (feature : Q)
  : result (t * output) :=
  let is_beat := any_beat beat in
  match last_beat s with
  | None =>
      (* init before first beat *)
      Ok (if is_beat
          then mk (beat_subdivisions s) (feat_dim s) (fps s) (feat_sum s)
                 (counter s) (current_div s) (div_frames s) beat
                 (beat_features s) (offset s)
          else s, (None, None))
  | Some lb =>
      match div_frames s with
      | None =>
          (* init before second beat *)
          Ok (match beat with
              | Some b =>
                  if is_beat
                  then mk (beat_subdivisions s) (feat_dim s) (fps s)
                         (feat_sum s) (counter s) (current_div s)
                         (Some (subdivision_lengths (b - lb) (fps s)
                                  (beat_subdivisions s)))
                         beat (beat_features s) (offset s)
                  else s
              | None => s
              end, (None, None))
      | Some _ =>
          (* normal action, everything is initialised *)
          let feat_sum1 := accum_add (feat_sum s) feature in
          let counter1 := (counter s + 1)%Z in
          '(bf, cd, feat_sum2, counter2) <-
            end_of_division s feat_sum1 counter1 ;;
          match beat with
          | Some b =>
              if is_beat
              then
                feat_sum3 <-
                  (if (offset s <? counter2)%Z
                   then Ok (accum_rescale feat_sum2 (offset s) counter2)
                   else
                     r <- last_row bf ;;
                     Ok (Vec (map (fun x => x * inject_Z (offset s)) r))) ;;
                Ok (mk (beat_subdivisions s) (feat_dim s) (fps s) feat_sum3
                      (offset s) 0
                      (Some (subdivision_lengths (b - lb) (fps s)
                               (beat_subdivisions s)))
                      beat
                      (zeros (beat_subdivisions s) (feat_dim s))
                      (offset s),
                    (beat, Some bf))
              else
                Ok (mk (beat_subdivisions s) (feat_dim s) (fps s) feat_sum2
                      counter2 cd (div_frames s) (last_beat s) bf (offset s),
                    (beat, None))
          | None =>
              Ok (mk (beat_subdivisions s) (feat_dim s) (fps s) feat_sum2
                    counter2 cd (div_frames s) (last_beat s) bf (offset s),
                  (beat, None))
          end
      end
  end.

(** The row that a call stores a mean into, if it stores one. *)
Definition stored_row (s : t) : option nat :=
  match last_beat s, div_frames s with
  | Some _, Some df =>
      match nth_error df (current_div s) with
      | Some len =>
          if (len <=? counter s + 1)%Z then Some (current_div s) else None
      | None => None
      end
  | _, _ => None
  end.

(** A stream of frames: the outputs of the calls and the rows written. *)
Fixpoint run (s : t) (frames : list (option Q * Q))
  : result (t * list output * list nat) :=
  match frames with
  | [] => Ok (s, [], [])
  | (beat, feature) :: rest =>
      '(s1, o) <- process_online s beat feature ;;
      '(s2, os, rows) <- run s1 rest ;;
      Ok (s2, o :: os,
          match stored_row s with
          | Some r => r :: rows
          | None => rows
          end)
  end.

(** The shape of the state that [__init__] sets up and every call keeps. *)
Definition wf (s : t) : Prop :=
  (0 < beat_subdivisions s)%nat /\
  length (beat_features s) = beat_subdivisions s /\
  (current_div s < beat_subdivisions s)%nat /\
  (forall df, div_frames s = Some df -> length df = beat_subdivisions s).

(** *** Batch mode *)

(** The beats: a vector of times, or a matrix whose column 0 holds the
    times; the features: one value or one row of [cols] values per frame. *)
Inductive beats_array :=
| Beats1 (times : list Q)
| Beats2 (cols : nat) (rows : list (list Q)).

Inductive features_array :=
| Feats1 (values : list Q)
| Feats2 (cols : nat) (rows : list (list Q)).

Definition beats_size (b : beats_array) : nat :=
  match b with
  | Beats1 ts => length ts
  | Beats2 c rows => (length rows * c)%nat
  end.

(** [np.atleast_2d(beats).T] for a vector of times *)
Definition beats_rows (b : beats_array) : list (list Q) :=
  match b with
  | Beats1 ts => map (fun x => [x]) ts
  | Beats2 _ rows => rows
  end.

Definition features_len (f : features_array) : nat :=
  match f with
  | Feats1 xs => length xs
  | Feats2 _ rows => length rows
  end.

Definition warning_too_long : string :=
  "Beat sequence too long compared to features."%string.
Definition warning_feature_loading : string :=
  "FIXME: feature loading"%string.

(** The loop of lines 188-190, over the beats from the last to the first:
    [while float(len(features)) / fps < beats[-1, 0]: beats = beats[:-1]].
    [rev_rows] is the beat matrix in reverse order. *)
Fixpoint drop_trailing (len_features : nat) (fps : Q)
    (rev_rows : list (list Q)) (warnings : list string)
  : result (list (list Q) * list string) :=
  if Qeq_bool fps 0 then Raise ZeroDivisionError
  else
    match rev_rows with
    | [] => Raise IndexError
    | r :: rest =>
        t <- index r 0 ;;
        if Qlt_le_dec (inject_Z (Z.of_nat len_features) / fps) t
        then drop_trailing len_features fps rest
               (warnings ++ [warning_too_long])
        else Ok (List.rev rev_rows, warnings)
    end.

(** [a[start:stop]] with Python's reading of negative and large indices *)
Definition slice_bound (len i : Z) : Z :=
  if (i <? 0)%Z then Z.max (i + len) 0 else Z.min i len.

Definition py_slice {A : Type} (l : list A) (start stop : Z) : list A :=
  let len := Z.of_nat (length l) in
  let a := slice_bound len start in
  let b := slice_bound len stop in
  firstn (Z.to_nat (b - a)) (skipn (Z.to_nat a) l).

(** [np.mean(x, axis=0)] of a block of frames; the mean of no frames is a
    row of NaN, written [None]. *)
Definition mean_axis0 (feat_dim : nat) (x : list (list Q))
  : option (list Q) :=
  match x with
  | [] => None
  | _ =>
      Some (map (fun d => Np.sum (map (fun row => nth d row 0) x)
                          / inject_Z (Z.of_nat (length x)))
              (seq 0 feat_dim))
  end.

(** [np.where(np.logical_not(np.isnan(means)))[0]] and
    [np.where(np.isnan(means))[0]], made unique: the rows with an entry
    that is a number, and the rows with an entry that is NaN. *)
Definition is_good (feat_dim : nat) (m : option (list Q)) : bool :=
  match m with
  | Some v => negb (Nat.eqb (length v) 0)
  | None => false
  end.

Definition is_bad (feat_dim : nat) (m : option (list Q)) : bool :=
  match m with
  | Some _ => false
  | None => negb (Nat.eqb feat_dim 0)
  end.

Definition rows_where {A : Type} (p : A -> bool) (l : list A) : list nat :=
  filter (fun r => match nth_error l r with
                   | Some a => p a
                   | None => false
                   end) (seq 0 (length l)).

(** [interpolate_missing], lines 240-256.  The features are numbers, so a
    row of [means] is NaN throughout ([None]) or nowhere. *)
Definition nan_or_mean (feat_dim : nat) (x : list (list Q))
  : option (list Q) :=
  if (0 <? length x)%nat then mean_axis0 feat_dim x else None.

Definition mean_entry (means : list (option (list Q))) (r d : nat) : Q :=
  match nth_error means r with
  | Some (Some v) => nth d v 0
  | _ => 0
  end.

(** The mean of bin [g] in the feature dimension [d] *)
Definition bin_mean (feat_dim : nat) (bins : list (list (list Q)))
    (g d : nat) : Q :=
  mean_entry (map (nan_or_mean feat_dim) bins) g d.

(** Row [g] of the means is a good row *)
Definition good_at (feat_dim : nat) (bins : list (list (list Q))) (g : nat)
  : bool :=
  match nth_error (map (nan_or_mean feat_dim) bins) g with
  | Some a => is_good feat_dim a
  | None => false
  end.

(** [feats_sorted[r][0, d] = v] *)
Definition assign_entry (feats : list (list (list Q))) (r d : nat) (v : Q)
  : result (list (list (list Q))) :=
  block <- index feats r ;;
  row <- index block 0 ;;
  row' <- assign_row row d v ;;
  block' <- assign_row block 0 row' ;;
  assign_row feats r block'.

Definition interpolate_missing (beat_subdivisions : nat)
    (feats_sorted : list (list (list Q))) (feat_dim : nat)
  : result (list (list (list Q))) :=
  let means := map (nan_or_mean feat_dim) feats_sorted in
  let good_rows := rows_where (is_good feat_dim) means in
  if (length good_rows <? beat_subdivisions)%nat
  then
    let bad_rows := rows_where (is_bad feat_dim) means in
    (* initialise missing values with empty array *)
    feats1 <- for_each bad_rows
                (fun feats r => assign_row feats r [repeat 0 feat_dim])
                feats_sorted ;;
    for_each (seq 0 feat_dim)
      (fun feats d =>
         means_p <- Np.interp
                      (map (fun x => inject_Z (Z.of_nat x))
                         (seq 0 beat_subdivisions))
                      (map (fun r => inject_Z (Z.of_nat r)) good_rows)
                      (map (fun r => mean_entry means r d) good_rows) ;;
         for_each bad_rows
           (fun feats r => v <- index means_p r ;; assign_entry feats r d v)
           feats)
      feats1
  else Ok feats_sorted.

(** How far the loops of [interpolate_missing] have come: every bad row
    is one row of [feat_dim] entries that holds its value [V d r] in the
    dimensions [d] before [j], and in dimension [j] for the rows in
    [done]; the other rows are as in [bins]. *)
Definition filled (n feat_dim : nat) (bins : list (list (list Q)))
    (bad : list nat) (V : nat -> nat -> Q) (j : nat) (done : list nat)
    (feats : list (list (list Q))) : Prop :=
  length feats = n /\
  forall r, (r < n)%nat ->
    (In r bad ->
     exists row, nth r feats [] = [row] /\ length row = feat_dim /\
                 (forall d, (d < j)%nat -> nth d row 0 = V d r) /\
                 (In r done -> nth j row 0 = V j r)) /\
    (~ In r bad -> nth r feats [] = nth r bins []).

(** [features_beat[beat_pos_of_frames == x]]: a mask of another length
    than the block of frames is refused. *)
Definition select_bin (pos : list Z) (features_beat : list (list Q))
    (x : nat) : result (list (list Q)) :=
  if negb (Nat.eqb (length pos) (length features_beat))
  then Raise IndexError
  else Ok (map snd (filter (fun pf => Z.eqb (fst pf) (Z.of_nat x))
                      (combine pos features_beat))).

Definition string_of_Z (z : Z) : string :=
  NilZero.string_of_int (Z.to_int z).

Definition tiny : Q := 1 # 100000000.

(** [int(np.floor((beats[i + 1, 0] - offset) * fps))] with
    [offset = 0.5 * duration_beat / beat_subdivisions]: with no
    subdivisions the quotient is infinite or NaN and [int] refuses it. *)
Definition next_beat_frame (beat_subdivisions : nat) (fps : Q)
    (b_this b_next : Q) : result Z :=
  let duration_beat := b_next - b_this in
  match beat_subdivisions with
  | O =>
      if Qeq_bool duration_beat 0
      then Raise (ValueError "cannot convert float NaN to integer"%string)
      else Raise OverflowError
  | _ =>
      let offset :=
        (1 # 2) * duration_beat / inject_Z (Z.of_nat beat_subdivisions) in
      Ok (Np.floor ((b_next - offset) * fps))
  end.

(** One round of the loop over the beats, lines 210-236: the frames of the
    beat, their bins, and the means of the bins. *)
Definition sync_beat (beat_subdivisions : nat) (fps : Q)
    (features : list (list Q)) (feat_dim : nat)
    (beat_start_frame : Z) (b_this b_next : Q)
  : result (list (option (list Q)) * Z) :=
  first_next_beat_frame <-
    next_beat_frame beat_subdivisions fps b_this b_next ;;
  let n_beat_frames := (first_next_beat_frame - beat_start_frame)%Z in
  if (n_beat_frames <? 0)%Z
  then Raise (ValueError ("Number of samples, "
                          ++ string_of_Z n_beat_frames
                          ++ ", must be non-negative.")%string)
  else
    let beat_pos_of_frames :=
      map Np.floor
        (Np.linspace tiny (inject_Z (Z.of_nat beat_subdivisions) - tiny)
           (Z.to_nat n_beat_frames)) in
    let features_beat :=
      py_slice features beat_start_frame first_next_beat_frame in
    feats_sorted <- map_result (select_bin beat_pos_of_frames features_beat)
                      (seq 0 beat_subdivisions) ;;
    feats_sorted' <-
      interpolate_missing beat_subdivisions feats_sorted feat_dim ;;
    Ok (map (mean_axis0 feat_dim) feats_sorted', first_next_beat_frame).

(** The loop over [range(num_beats - 1)] with [first_next_beat_frame]
    carried from one beat to the next; [times] are the beat times from
    beat [i] on. *)
Fixpoint sync_beats (beat_subdivisions : nat) (fps : Q)
    (features : list (list Q)) (feat_dim : nat)
    (first_next_beat_frame : Z) (times : list Q)
  : result (list (list (option (list Q)))) :=
  match times with
  | b_this :: ((b_next :: _) as rest) =>
      '(row, next) <- sync_beat beat_subdivisions fps features feat_dim
                        first_next_beat_frame b_this b_next ;;
      rows <- sync_beats beat_subdivisions fps features feat_dim next rest ;;
      Ok (row :: rows)
  | _ => Ok []
  end.

(** The number of frames of every beat, as the loop counts them *)
Fixpoint frame_counts (beat_subdivisions : nat) (fps : Q)
    (first_next_beat_frame : Z) (times : list Q) : list Z :=
  match times with
  | b_this :: ((b_next :: _) as rest) =>
      match next_beat_frame beat_subdivisions fps b_this b_next with
      | Ok next =>
          (next - first_next_beat_frame)%Z
          :: frame_counts beat_subdivisions fps next rest
      | Raise _ => []
      end
  | _ => []
  end.

(** The frame that the first beat starts at: the beat may be 20 ms early *)
Definition first_frame (fps : Q) (times : list Q) : Z :=
  match times with
  | b0 :: _ => Z.max 0 (Np.floor ((b0 - (2 # 100)) * fps))
  | [] => 0%Z
  end.

Definition features_dim (f : features_array) : nat :=
  match f with
  | Feats1 _ => 1%nat
  | Feats2 c _ => c
  end.

Definition beat_times (rows : list (list Q)) : list Q :=
  map (fun r => nth 0 r 0) rows.

Record offline_output := mk_offline {
  out_beats : list (list Q);
  out_features : list (list (option (list Q)));
  out_warnings : list string
}.

(** [process_offline] *)
Definition process_offline (beat_subdivisions : nat) (fps : Q)
    (beats : beats_array) (features : features_array)
  : result offline_output :=
  (* no beats, return immediately *)
  if Nat.eqb (beats_size beats) 0 then Ok (mk_offline [] [] [])
  else
    '(rows, w1) <- drop_trailing (features_len features) fps
                     (List.rev (beats_rows beats)) [] ;;
    let '(frames, feat_dim, w2) :=
      match features with
      | Feats2 c frames => (frames, c, w1)
      | Feats1 xs =>
          (map (fun x => [x]) xs, 1%nat, w1 ++ [warning_feature_loading])
      end in
    times <- map_result (fun r => index r 0) rows ;;
    b0 <- index times 0 ;;
    (* allow the first beat to be 20 ms too early *)
    let first_next_beat_frame :=
      Z.max 0 (Np.floor ((b0 - (2 # 100)) * fps)) in
    feats <- sync_beats beat_subdivisions fps frames feat_dim
               first_next_beat_frame times ;;
    Ok (mk_offline rows feats w2).

(** A row of the batch result that holds a number everywhere: [n] bins
    of [feat_dim] values, none of them NaN *)
Definition full_row (n feat_dim : nat) (row : list (option (list Q)))
  : Prop :=
  length row = n /\
  Forall (fun e => exists v, e = Some v /\ length v = feat_dim) row.

(** [np.floor(np.linspace(0.00000001, beat_subdivisions - 0.00000001,
    n_beat_frames))], lines 227-229: the bin of every frame of a beat *)
Definition beat_pos_of_frames (beat_subdivisions n_beat_frames : nat)
  : list Z :=
  map Np.floor
    (Np.linspace tiny (inject_Z (Z.of_nat beat_subdivisions) - tiny)
       n_beat_frames).

(** [features_beat[beat_pos_of_frames == x]], the frames of bin [x] *)
Definition frames_of_bin (pos : list Z) (features_beat : list (list Q))
    (x : nat) : list (list Q) :=
  map snd (filter (fun pf => Z.eqb (fst pf) (Z.of_nat x))
             (combine pos features_beat)).

(** The bins of the beat that holds the frames from [start] up to
    [stop] *)
Definition bins_of_beat (beat_subdivisions : nat)
    (features : list (list Q)) (start stop : Z) : list (list (list Q)) :=
  map (frames_of_bin
         (beat_pos_of_frames beat_subdivisions (Z.to_nat (stop - start)))
         (py_slice features start stop))
    (seq 0 beat_subdivisions).

(** Beat times in their order *)
Fixpoint non_decreasing (times : list Q) : Prop :=
  match times with
  | a :: ((b :: _) as rest) => a <= b /\ non_decreasing rest
  | _ => True
  end.

(** The frames of the features, one row per frame *)
Definition frames_of (f : features_array) : list (list Q) :=
  match f with
  | Feats1 xs => map (fun x => [x]) xs
  | Feats2 _ rows => rows
  end.

(** The warnings of a call that drops no beat *)
Definition loading_warnings (f : features_array) : list string :=
  match f with
  | Feats1 _ => [warning_feature_loading]
  | Feats2 _ _ => []
  end.

(** *** Streams of frames *)

(** The beats among the frames of a stream *)
Definition beats_seen (frames : list (option Q * Q)) : nat :=
  length (filter (fun x => any_beat (fst x)) frames).

(** How far the synchroniser is set up: no beat seen yet (0), one beat
    seen and the tempo not known yet (1), tempo known (2). *)
Definition beats_known (s : t) : nat :=
  match last_beat s, div_frames s with
  | None, _ => 0
  | Some _, None => 1
  | Some _, Some _ => 2
  end.

(** The states that calls of [process_online] reach from [__init__] *)
Definition reachable (s : t) : Prop :=
  wf s /\ (last_beat s = None -> div_frames s = None).

End BeatSync.

(** ** GMMDownBeatTrackingObservationModel *)

Module GMMObservationModel.

Section Model.

(** A fitted mixture model is opaque here; [score_samples g x] is the log
    density that the mixture [g] gives to one feature vector [x], and
    [g.score(X)] returns it for every row of [X]. *)
Variable gmm : Type.
Variable score_samples : gmm -> list Q -> Q.

Definition score (g : gmm) (X : list (list Q)) : list Q :=
  map (score_samples g) X.

Definition uint32 (z : Z) : Z := (z mod 2 ^ 32)%Z.

(** [__init__], lines 699-717: the pointers of the states into the stacked
    densities.  [state_patterns] and [state_positions] are the arrays of the
    state space. *)
Definition pointers_step (gmms : list (list (list gmm)))
    (state_patterns state_positions : list nat)
    (acc : list Z * nat) (p : nat) : list Z * nat :=
  let '(pointers, densities_idx_offset) := acc in
  (map (fun s =>
          if Nat.eqb (nth s state_patterns 0%nat) p
          then uint32 (Z.of_nat (nth s state_positions 0%nat
                                 + densities_idx_offset))
          else nth s pointers 0%Z)
     (seq 0 (length pointers)),
   (densities_idx_offset + length (nth p gmms []))%nat).

Definition pointers (gmms : list (list (list gmm)))
    (state_patterns state_positions : list nat) : list Z :=
  fst (fold_left (pointers_step gmms state_patterns state_positions)
         (seq 0 (length gmms))
         (repeat 0%Z (length state_patterns), 0%nat)).

(** ['Got observations shape: %s, expected ...' % observations.shape]: the
    format has one conversion, the shape is a tuple of [ndim] numbers. *)
Definition format_shape (shape : list nat) : result string :=
  match shape with
  | [] => Raise (TypeError "not enough arguments for format string"%string)
  | [n] =>
      Ok ("Got observations shape: " ++ NilZero.string_of_uint (Nat.to_uint n)
          ++ ", expected (n_beats, n_subdivisions, feat_dim)")%string
  | _ =>
      Raise (TypeError
               "not all arguments converted during string formatting"%string)
  end.

(** [observations[b, bd, :]], the feature vector of subdivision [bd] of
    beat [b], in an array of [n_sub] subdivisions of [feat_dim] values *)
Definition feature_vector (obs : Np.ndarray) (n_sub feat_dim b bd : nat)
  : list Q :=
  firstn feat_dim (skipn ((b * n_sub + bd) * feat_dim) (Np.data obs)).

(** [np.squeeze(observations[:, [bd], :], axis=1)] for a rank 3 array *)
Definition subdivision (obs : Np.ndarray) (bd : nat)
  : result (list (list Q)) :=
  match Np.shape obs with
  | [n; n_sub; feat_dim] =>
      if (bd <? n_sub)%nat
      then Ok (map (fun b => feature_vector obs n_sub feat_dim b bd)
                 (seq 0 n))
      else Raise IndexError
  | _ => Raise IndexError
  end.

(** One column of the table, lines 747-751: the scores of the models of one
    beat position, added up over the beat divisions. *)
Definition density_column (obs : Np.ndarray) (num_observations : nat)
    (models : list gmm) : result (list Q) :=
  for_each (seq 0 (length models))
    (fun column bd =>
       g <- index models bd ;;
       X <- subdivision obs bd ;;
       Ok (map (fun cs => fst cs + snd cs) (combine column (score g X))))
    (repeat 0 num_observations).

(** [log_densities]: the table as the list of its columns, then read by
    rows. *)
Definition log_density_columns (gmms : list (list (list gmm)))
    (obs : Np.ndarray) : result (list (list Q)) :=
  if negb (Nat.eqb (Np.ndim obs) 3)
  then msg <- format_shape (Np.shape obs) ;; Raise (ValueError msg)
  else
    let num_observations := nth 0 (Np.shape obs) 0%nat in
    for_each gmms
      (fun columns pattern =>
         for_each pattern
           (fun columns models =>
              column <- density_column obs num_observations models ;;
              Ok (columns ++ [column]))
           columns)
      [].

Definition log_densities (gmms : list (list (list gmm))) (obs : Np.ndarray)
  : result (list (list Q)) :=
  columns <- log_density_columns gmms obs ;;
  Ok (map (fun b => map (fun column => nth b column 0) columns)
        (seq 0 (nth 0 (Np.shape obs) 0%nat))).

(** The log likelihood that the model gives to state [s] at beat [b]: the
    entry of the table in row [b] and in the column the state points to. *)
Definition state_log_likelihood (gmms : list (list (list gmm)))
    (state_patterns state_positions : list nat) (obs : Np.ndarray)
    (b s : nat) : result Q :=
  table <- log_densities gmms obs ;;
  row <- index table b ;;
  pointer <- index (pointers gmms state_patterns state_positions) s ;;
  index row (Z.to_nat pointer).

(** The sum of the scores that the models of one beat position, one per
    subdivision, give to the subdivisions of beat [b] *)
Definition summed_scores (obs : Np.ndarray) (n_sub feat_dim : nat)
    (models : list gmm) (b : nat) : Q :=
  Np.sum (map (fun ig => score_samples (snd ig)
                           (feature_vector obs n_sub feat_dim b (fst ig)))
            (combine (seq 0 (length models)) models)).

(** The number of models stacked before the models of pattern [p] *)
Definition stacked_before (gmms : list (list (list gmm))) (p : nat) : nat :=
  length (concat (firstn p gmms)).

End Model.

End GMMObservationModel.

(** ** The hidden Markov model behind the bar tracker *)

Module Hmm.

(** Modelled from the spec: [madmom.features.beats_hmm] (BarStateSpace,
    MultiPatternStateSpace) is not part of the sources.  For each pattern
    [p] with [beats_per_bar[p]] beats the state space holds that many
    consecutive states, for the bar positions [0 .. beats_per_bar[p] - 1];
    every state has its pattern and its position. *)
Definition state_patterns (beats_per_bar : list nat) : list nat :=
  concat (map (fun pb => repeat (fst pb) (snd pb))
            (combine (seq 0 (length beats_per_bar)) beats_per_bar)).

Definition state_positions (beats_per_bar : list nat) : list nat :=
  concat (map (fun beats => seq 0 beats) beats_per_bar).

Definition num_states (beats_per_bar : list nat) : nat :=
  list_sum beats_per_bar.

Definition first_state (beats_per_bar : list nat) (p : nat) : nat :=
  list_sum (firstn p beats_per_bar).

(** Modelled from the spec: [MultiPatternTransitionModel] is not part of
    the sources.  From the state (p, k) the next beat is in the state
    (p, (k + 1) mod beats_per_bar[p]) with the weight
    [1 - pattern_change_prob]; the weight [pattern_change_prob] goes to
    states of the other patterns by a rule that the spec leaves open,
    [switch]; every row is divided by its sum. *)
Definition next_state (beats_per_bar : list nat) (s : nat) : nat :=
  let p := nth s (state_patterns beats_per_bar) 0%nat in
  let k := nth s (state_positions beats_per_bar) 0%nat in
  (first_state beats_per_bar p + (k + 1) mod nth p beats_per_bar 0)%nat.

(** The state that [next_state] leaves for [s] *)
Definition prev_state (beats_per_bar : list nat) (s : nat) : nat :=
  let p := nth s (state_patterns beats_per_bar) 0%nat in
  let k := nth s (state_positions beats_per_bar) 0%nat in
  let beats := nth p beats_per_bar 0%nat in
  (first_state beats_per_bar p + (k + beats - 1) mod beats)%nat.

Definition weight (beats_per_bar : list nat) (pattern_change_prob : Q)
    (switch : nat -> nat -> Q) (s s' : nat) : Q :=
  (if Nat.eqb s' (next_state beats_per_bar s)
   then 1 - pattern_change_prob else 0)
  + (if Nat.eqb (nth s' (state_patterns beats_per_bar) 0%nat)
          (nth s (state_patterns beats_per_bar) 0%nat)
     then 0 else pattern_change_prob * switch s s').

Definition transition (beats_per_bar : list nat) (pattern_change_prob : Q)
    (switch : nat -> nat -> Q) (s s' : nat) : Q :=
  weight beats_per_bar pattern_change_prob switch s s'
  / Np.sum (map (weight beats_per_bar pattern_change_prob switch s)
              (seq 0 (num_states beats_per_bar))).

(** Modelled from the spec: [madmom.ml.hmm.HiddenMarkovModel] is not part
    of the sources.  The model is given by the number of states, the
    transition probabilities and, for every state, its pointer into a row
    of densities; the initial distribution [None] is the uniform one. *)
Record model := mk_model {
  states : nat;
  trans : nat -> nat -> Q;
  om_pointers : list nat
}.

Definition initial_distribution (m : model) : list Q :=
  repeat (1 / inject_Z (Z.of_nat (states m))) (states m).

(** The density of every state for one row of the density table *)
Definition state_densities (m : model) (row : list Q) : list Q :=
  map (fun s => nth (nth s (om_pointers m) 0%nat) row 0) (seq 0 (states m)).

(** Modelled from the spec: one step of forward filtering, a transition
    and an observation, rescaled to sum 1.  [Qred] keeps the fractions in
    lowest terms and does not change their value. *)
Definition unnormalised (m : model) (prev row : list Q) (s' : nat) : Q :=
  Np.sum (map (fun s => nth s prev 0 * trans m s s') (seq 0 (states m)))
  * nth s' (state_densities m row) 0.

Definition forward_step (m : model) (prev : list Q) (row : list Q)
  : list Q :=
  let values := map (unnormalised m prev row) (seq 0 (states m)) in
  let norm := Np.sum values in
  map (fun x => Qred (x / norm)) values.

(** [forward(observations)]: the forward variables of every row, and the
    last ones, which the model keeps for the next call. *)
Fixpoint forward (m : model) (prev : list Q) (rows : list (list Q))
  : list Q * list (list Q) :=
  match rows with
  | [] => (prev, [])
  | row :: rest =>
      let fwd := forward_step m prev row in
      let '(last, fwds) := forward m fwd rest in
      (last, fwd :: fwds)
  end.

(** Modelled from the spec: Viterbi decoding, the path of the largest
    probability.  The product of the densities is maximised; it is largest
    where the sum of the log densities is.  One step keeps for every state
    the best value and the previous state it came from: the first previous
    state whose value is above all values before it. *)
Fixpoint best_previous (m : model) (prev : list Q) (s' : nat)
    (candidates : list nat) (best : nat) (best_value : Q) : nat * Q :=
  match candidates with
  | [] => (best, best_value)
  | s :: rest =>
      let v := nth s prev 0 * trans m s s' in
      if Qlt_le_dec best_value v
      then best_previous m prev s' rest s v
      else best_previous m prev s' rest best best_value
  end.

Definition viterbi_step (m : model) (prev : list Q) (row : list Q)
  : list Q * list nat :=
  let dens := state_densities m row in
  let best :=
    map (fun s' => best_previous m prev s' (seq 0 (states m)) 0%nat 0)
      (seq 0 (states m)) in
  (map (fun sb => Qred (snd (snd sb) * nth (fst sb) dens 0))
     (combine (seq 0 (states m)) best),
   map fst best).

(** All steps: the last values and the back pointers of every row, the
    last row first. *)
Fixpoint viterbi_pass (m : model) (prev : list Q) (rows : list (list Q))
    (pointers : list (list nat)) : list Q * list (list nat) :=
  match rows with
  | [] => (prev, pointers)
  | row :: rest =>
      let '(current, bt) := viterbi_step m prev row in
      viterbi_pass m current rest (bt :: pointers)
  end.

(** The path, read backwards from [state], the state of the last row *)
Fixpoint backtrack (state : nat) (pointers : list (list nat)) : list nat :=
  match pointers with
  | [] => []
  | bt :: rest => state :: backtrack (nth state bt 0%nat) rest
  end.

Definition viterbi (m : model) (rows : list (list Q)) : result (list nat) :=
  match rows with
  | [] => Ok []
  | _ =>
      let '(last, pointers) :=
        viterbi_pass m (initial_distribution m) rows [] in
      state <- Np.argmax last ;;
      Ok (List.rev (backtrack state pointers))
  end.

(** Back pointers that point to states *)
Definition pointers_ok (m : model) (bt : list nat) : Prop :=
  forall s, (nth s bt 0 < states m)%nat.

(** A vector of state values with its largest entry at the state [c] *)
Definition peaked (m : model) (v : list Q) (c : nat) : Prop :=
  length v = states m /\ (c < states m)%nat /\ 0 < nth c v 0 /\
  forall s, (s < states m)%nat -> 0 <= nth s v 0 /\ nth s v 0 <= nth c v 0.

Definition strictly_peaked (m : model) (v : list Q) (c : nat) : Prop :=
  peaked m v c /\
  forall s, (s < states m)%nat -> s <> c -> nth s v 0 < nth c v 0.

(** An input that favours one path: at every beat one state has a density
    above zero and above the density of every other state, and the
    favoured state of a beat is the successor of the favoured state of the
    beat before. *)
Definition favours (m : model) (row : list Q) (s : nat) : Prop :=
  (s < states m)%nat /\
  0 < nth s (state_densities m row) 0 /\
  forall s', (s' < states m)%nat -> s' <> s ->
    0 <= nth s' (state_densities m row) 0
    /\ nth s' (state_densities m row) 0 < nth s (state_densities m row) 0.

Fixpoint favours_from (m : model) (next : nat -> nat) (s : nat)
    (path : list nat) (rows : list (list Q)) : Prop :=
  match path, rows with
  | [], [] => True
  | p :: path', row :: rows' =>
      p = next s /\ favours m row p /\ favours_from m next p path' rows'
  | _, _ => False
  end.

Definition favours_path (m : model) (next : nat -> nat)
    (path : list nat) (rows : list (list Q)) : Prop :=
  match path, rows with
  | [], [] => True
  | p :: path', row :: rows' =>
      favours m row p /\ favours_from m next p path' rows'
  | _, _ => False
  end.

End Hmm.

(** ** DBNBarTrackingProcessor *)

Module DBNBarTracking.

Record t := mk {
  beats_per_bar : list nat;
  downbeats : bool;
  return_pattern : bool;
  bump_beat_number : bool;
  (* the observation model: the densities of a block of beat synchronous
     features, one row per beat *)
  om_densities : Np.ndarray -> result (list (list Q));
  hmm : Hmm.model;
  (* state kept in online mode *)
  counter : Z;
  fwd_prev : list Q
}.

(** [__init__]: the state space and the transition model of the patterns,
    the observation model built on the state space, and the model. *)
Definition init (beats_per_bar : list nat) (pattern_change_prob : Q)
    (switch : nat -> nat -> Q)
    (observation_pointers : list nat)
    (observation_densities : Np.ndarray -> result (list (list Q)))
    (downbeats return_pattern bump_beat_number : bool) : t :=
  let m := Hmm.mk_model (Hmm.num_states beats_per_bar)
             (Hmm.transition beats_per_bar pattern_change_prob switch)
             observation_pointers in
  {| beats_per_bar := beats_per_bar;
     downbeats := downbeats;
     return_pattern := return_pattern;
     bump_beat_number := bump_beat_number;
     om_densities := observation_densities;
     hmm := m;
     counter := -1;
     fwd_prev := Hmm.initial_distribution m |}.

Definition with_state (d : t) (counter : Z) (fwd_prev : list Q) : t :=
  mk (beats_per_bar d) (downbeats d) (return_pattern d) (bump_beat_number d)
    (om_densities d) (hmm d) counter fwd_prev.

(** [a % n] and [np.mod(a, n)] on numpy integers; the remainder by zero
    is 0 *)
Definition np_mod (a : Z) (n : nat) : Z :=
  match n with
  | O => 0%Z
  | _ => (a mod Z.of_nat n)%Z
  end.

(** [fwd = self.hmm.forward(activation); state = np.argmax(fwd)] *)
Definition decide (d : t) (activation : Np.ndarray)
  : result (list Q * nat) :=
  rows <- om_densities d activation ;;
  let '(last, fwds) := Hmm.forward (hmm d) (fwd_prev d) rows in
  state <- Np.argmax (concat fwds) ;;
  Ok (last, state).

(** [process_online], lines 477-505: the beat is an array that is empty or
    holds the beat time; the answer is the row [beat, beat_number] or
    [beat, beat_number, pattern], or [None] for the empty array. *)
Definition process_online (d : t) (beat : list Q) (activation : Np.ndarray)
  : result (t * option (list Q)) :=
  let counter1 := (counter d + 1)%Z in
  if Np.any activation
  then
    '(last, state) <- decide d activation ;;
    position <- index (Hmm.state_positions (beats_per_bar d)) state ;;
    let beat_number := (Z.of_nat position + 1)%Z in
    pattern <- index (Hmm.state_patterns (beats_per_bar d)) state ;;
    beat_number <-
      (if bump_beat_number d
       then
         beats <- index (beats_per_bar d) pattern ;;
         Ok (np_mod beat_number beats + 1)%Z
       else Ok beat_number) ;;
    let beat := (beat ++ [inject_Z beat_number])%list in
    let beat :=
      if return_pattern d
      then (beat ++ [inject_Z (Z.of_nat pattern)])%list else beat in
    Ok (with_state d counter1 last, Some beat)
  else Ok (with_state d counter1 (fwd_prev d), None).

(** A stream of synchronised beats: the states decided and the rows
    returned, call by call. *)
Fixpoint run_online (d : t) (inputs : list (list Q * Np.ndarray))
  : result (t * list (option (list Q))) :=
  match inputs with
  | [] => Ok (d, [])
  | (beat, activation) :: rest =>
      '(d1, o) <- process_online d beat activation ;;
      '(d2, os) <- run_online d1 rest ;;
      Ok (d2, o :: os)
  end.

Fixpoint decisions (d : t) (inputs : list (list Q * Np.ndarray))
  : result (list (option nat)) :=
  match inputs with
  | [] => Ok []
  | (beat, activation) :: rest =>
      state <- (if Np.any activation
                then '(_, state) <- decide d activation ;; Ok (Some state)
                else Ok None) ;;
      '(d1, _) <- process_online d beat activation ;;
      states <- decisions d1 rest ;;
      Ok (state :: states)
  end.

(** Lines 512-519: the beat numbers of a decoded path, with the number of
    the beat after the last one. *)
Definition beat_numbers (d : t) (path : list nat) : result (list Z) :=
  position <- map_result (index (Hmm.state_positions (beats_per_bar d)))
                path ;;
  let beat_numbers := map (fun k => (Z.of_nat k + 1)%Z) position in
  last_number <- BeatSync.last_row beat_numbers ;;
  last_state <- BeatSync.last_row path ;;
  pattern <- index (Hmm.state_patterns (beats_per_bar d)) last_state ;;
  beats <- index (beats_per_bar d) pattern ;;
  let last_beat_number := (np_mod last_number beats + 1)%Z in
  Ok (beat_numbers ++ [last_beat_number])%list.

(** The beat numbers of a path written out: the position plus one for
    every state, then the position after the last one, wrapped in the
    beats of its pattern, plus one. *)
Definition numbers_of_path (beats_per_bar : list nat) (path : list nat)
  : list Z :=
  let positions := Hmm.state_positions beats_per_bar in
  let patterns := Hmm.state_patterns beats_per_bar in
  (map (fun s => (Z.of_nat (nth s positions 0%nat) + 1)%Z) path
   ++ [((Z.of_nat (nth (last path 0%nat) positions 0%nat) + 1)
        mod Z.of_nat (nth (nth (last path 0%nat) patterns 0%nat)
                        beats_per_bar 0%nat) + 1)%Z])%list.

Inductive offline_answer :=
| DownbeatTimes (times : list Q)
| BeatsAndNumbers (rows : list (Q * Z)).

(** [path, _ = self.hmm.viterbi(activations)] *)
Definition decode_offline (d : t) (activations : Np.ndarray)
  : result (list nat) :=
  rows <- om_densities d activations ;;
  Hmm.viterbi (hmm d) rows.

(** [process_offline], lines 507-524 *)
Definition process_offline (d : t) (beats : list Q)
    (activations : Np.ndarray) : result offline_answer :=
  path <- decode_offline d activations ;;
  numbers <- beat_numbers d path ;;
  if downbeats d
  then
    times <- map_result (index beats)
               (map fst (filter (fun ib => Z.eqb (snd ib) 1)
                           (combine (seq 0 (length numbers)) numbers))) ;;
    Ok (DownbeatTimes times)
  else Ok (BeatsAndNumbers (combine beats numbers)).

(** [process], lines 457-475: the answer of [process_online] or of
    [process_offline], by the mode the processor was built for. *)
Inductive answer :=
| OnlineRow (row : option (list Q))
| OfflineAnswer (a : offline_answer).

Definition process (online : bool) (d : t) (data : list Q * Np.ndarray)
  : result (t * answer) :=
  let '(beats, activations) := data in
  if online
  then
    '(d', row) <- process_online d beats activations ;;
    Ok (d', OnlineRow row)
  else
    a <- process_offline d beats activations ;;
    Ok (d, OfflineAnswer a).

End DBNBarTracking.

(** ** GMMBarProcessor *)

Module GMMBar.

Section Processor.

Variable gmm : Type.
Variable score_samples : gmm -> list Q -> Q.

(** Modelled from the spec: [madmom.ml.hmm.ObservationModel] is not part
    of the sources; the model is handed the densities
    [np.exp(log_densities)].  [exp] is opaque here, as is the rule
    [switch] of the transition model for the changes of the pattern. *)
Variable exp : Q -> Q.
Variable switch : nat -> nat -> Q.

(** What a pattern file holds: a dict with the entries ['gmms'], the
    mixture models of every beat position, one per subdivision, and
    ['num_beats'] *)
Record pattern := mk_pattern {
  pattern_gmms : list (list gmm);
  pattern_num_beats : nat
}.

Record t := mk {
  num_beats : list nat;
  num_beat_divisions : list nat;
  online : bool;
  dbn_processor : DBNBarTracking.t
}.

(** The observation model [GMMDownBeatTrackingObservationModel(st, gmms)]
    that [DBNBarTrackingProcessor.__init__] builds on its state space *)
Definition observation_pointers (gmms : list (list (list gmm)))
    (beats_per_bar : list nat) : list nat :=
  map Z.to_nat
    (GMMObservationModel.pointers gmm gmms
       (Hmm.state_patterns beats_per_bar)
       (Hmm.state_positions beats_per_bar)).

Definition observation_densities (gmms : list (list (list gmm)))
    (obs : Np.ndarray) : result (list (list Q)) :=
  table <- GMMObservationModel.log_densities gmm score_samples gmms obs ;;
  Ok (map (map exp) table).

(** [__init__], lines 577-603.  [patterns] are the contents of the pattern
    files, [None] when no files are given; [return_pattern] and
    [bump_beat_number] stand for the keyword arguments that are passed
    on.  The arguments [downbeats] and [fps] are named in the signature
    and are not passed on to the [DBNBarTrackingProcessor]. *)
Definition init (patterns : option (list pattern)) (pattern_change_prob : Q)
    (downbeats online : bool) (fps : Q)
    (return_pattern bump_beat_number : bool) : result t :=
  match patterns with
  | None => Raise (TypeError "'NoneType' object is not iterable"%string)
  | Some patterns =>
      if Nat.eqb (length patterns) 0
      then Raise (ValueError
                    "at least one rhythmical pattern must be given."%string)
      else
        let gmms := map pattern_gmms patterns in
        let num_beats := map pattern_num_beats patterns in
        num_beat_divisions <-
          map_result (fun g => g0 <- index g 0 ;; Ok (length g0)) gmms ;;
        Ok {| num_beats := num_beats;
              num_beat_divisions := num_beat_divisions;
              online := online;
              dbn_processor :=
                DBNBarTracking.init num_beats pattern_change_prob switch
                  (observation_pointers gmms num_beats)
                  (observation_densities gmms)
                  false return_pattern bump_beat_number |}
  end.

(** [process]: [self.dbn_processor(data)] *)
Definition process (g : t) (data : list Q * Np.ndarray)
  : result (t * DBNBarTracking.answer) :=
  '(d, a) <- DBNBarTracking.process (online g) (dbn_processor g) data ;;
  Ok (mk (num_beats g) (num_beat_divisions g) (online g) d, a).

End Processor.

End GMMBar.

(** ** bin/GMM_control.py: the loop over the lines of the input *)

Module GMMControl.

(** [s.split(sep)] for a separator of one character: the first field and
    the fields after it; a string without the separator is one field. *)
Fixpoint split_from (sep : Ascii.ascii) (s : string) : string * list string :=
  match s with
  | EmptyString => (EmptyString, [])
  | String c rest =>
      let '(field, fields) := split_from sep rest in
      if Ascii.eqb c sep
      then (EmptyString, field :: fields)
      else (String c field, fields)
  end.

Definition split (sep : Ascii.ascii) (s : string) : list string :=
  let '(field, fields) := split_from sep s in field :: fields.

(** The number of occurrences of a character *)
Fixpoint count (c : Ascii.ascii) (s : string) : nat :=
  match s with
  | EmptyString => 0
  | String c' rest =>
      ((if Ascii.eqb c' c then 1 else 0) + count c rest)%nat
  end.

(** [beat, feature = data.split(' ')]: [None] stands for the [ValueError]
    of the unpacking, which the loop catches. *)
Definition unpack (data : string) : option (string * string) :=
  match split Ascii.Space data with
  | [beat; feature] => Some (beat, feature)
  | _ => None
  end.

Section Loop.

(** Python's floats with [float(s)], which raises a [ValueError] for a
    string that is no number, and [x == 0]; the processor that is called
    for every line, with its state. *)
Variable float : Type.
Variable py_float : string -> result float.
Variable is_zero : float -> bool.
Variable P : Type.
Variable processor : P -> option float * float -> result P.

(** Lines 59-65: the body of the loop after the line was split *)
Definition handle (p : P) (fields : string * string) : result P :=
  beat <- py_float (fst fields) ;;
  feature <- py_float (snd fields) ;;
  (* re-substitute 0 with None *)
  let beat := if is_zero beat then None else Some beat in
  processor p (beat, feature).

(** [process_online], lines 32-66.  [infile] holds the lines still to be
    read; at the end of the input [readline] returns the empty string,
    which has one field, so that the loop ends there as well. *)
Fixpoint process_online (p : P) (infile : list string) : result P :=
  match infile with
  | [] => Ok p
  | data :: rest =>
      match unpack data with
      | None => Ok p
      | Some fields =>
          p' <- handle p fields ;;
          process_online p' rest
      end
  end.

End Loop.

End GMMControl.

(** ** Inputs that the statements below are tried on *)

Module Examples.

(** The synchroniser for 4 subdivisions at 100 frames per second, after a
    first beat at 1 s, and after a second beat at 1.5 s. *)
Definition after_first_beat : BeatSync.t :=
  BeatSync.mk 4 1 100 (BeatSync.Scalar 0) 0 0 None (Some 1)
    (BeatSync.zeros 4 1) 2.

Definition running : BeatSync.t :=
  BeatSync.mk 4 1 100 (BeatSync.Scalar 0) 0 0
    (Some [12; 13; 13; 12]%Z) (Some (3 # 2)) (BeatSync.zeros 4 1) 2.

(** Five frames without a beat *)
Definition quiet_frames : list (option Q * Q) := repeat (None, 1) 5.

(** Four bins of one feature: bin 1 has no frame, the others one frame *)
Definition bins_134 : list (list (list Q)) := [[[1]]; []; [[3]]; [[4]]].

(** Mixture models stood in for by numbers: the score of the model [g] on
    a vector is [g] times the sum of the vector. *)
Definition toy_score (g : nat) (x : list Q) : Q :=
  inject_Z (Z.of_nat g) * Np.sum x.

Definition toy_gmms : list (list (list nat)) :=
  [[[1; 2]; [3; 4]]; [[5; 6]]]%nat.

Definition toy_observations : Np.ndarray :=
  Np.mk_array [1; 2; 1]%nat [10; 20].

(** An observation model for 4 states whose blocks of features hold the
    densities of the states, beat by beat *)
Definition toy_densities (a : Np.ndarray) : result (list (list Q)) :=
  Ok (map (fun b => firstn 4 (skipn (b * 4) (Np.data a)))
        (seq 0 (nth 0 (Np.shape a) 0%nat))).

Definition rising_rows : list (list Q) :=
  [[9; 1; 1; 1]; [1; 9; 1; 1]; [1; 1; 9; 1]; [1; 1; 1; 9]].

Definition rising_inputs : list (list Q * Np.ndarray) :=
  map (fun tr => ([fst tr], Np.mk_array [1; 4; 1]%nat (snd tr)))
    (combine [1; 2; 3; 4] rising_rows).

Definition rising_batch : Np.ndarray :=
  Np.mk_array [4; 4; 1]%nat (concat rising_rows).

Definition tracker : DBNBarTracking.t :=
  DBNBarTracking.init [4%nat] 0 (fun _ _ => 0) [0; 1; 2; 3]%nat
    toy_densities false false false.

(** A stream of four frames with beats at 1 s, 1.5 s and 2 s *)
Definition three_beats : list (option Q * Q) :=
  [(Some 1, 1); (Some (3 # 2), 2); (None, 3); (Some 2, 4)].

(** Two pattern files: a bar of two beats and a bar of one beat, with
    the mixture models of [toy_gmms] *)
Definition toy_patterns : list (GMMBar.pattern nat) :=
  [GMMBar.mk_pattern nat [[1; 2]; [3; 4]]%nat 2;
   GMMBar.mk_pattern nat [[5; 6]]%nat 1].

(** Floats stood in for by the lengths of their texts, and a processor
    that records what it is called with *)
Definition toy_float (s : string) : result nat := Ok (String.length s).

Definition recorder (p : list (option nat * nat)) (x : option nat * nat)
  : result (list (option nat * nat)) :=
  Ok (p ++ [x]).

End Examples.

(** * Properties *)

(** ** Rounding *)

Lemma round_near (x : Q) :
  x - (1 # 2) <= inject_Z (Np.round x) <= x + (1 # 2).
Proof.
  unfold Np.round.
  pose proof (Qfloor_le x) as Hlo.
  pose proof (Qlt_floor x) as Hhi.
  rewrite inject_Z_plus in Hhi. change (inject_Z 1) with 1 in Hhi.
  destruct (Qcompare_spec (x - inject_Z (Qfloor x)) (1 # 2)) as [H | H | H].
  - destruct (Z.even (Qfloor x));
      [| rewrite inject_Z_plus; change (inject_Z 1) with 1]; lra.
  - lra.
  - rewrite inject_Z_plus. change (inject_Z 1) with 1. lra.
Qed.

Lemma round_inject_Z (k : Z) : Np.round (inject_Z k) = k.
Proof.
  unfold Np.round. rewrite Qfloor_Z.
  destruct (Qcompare_spec (inject_Z k - inject_Z k) (1 # 2)) as [H | H | H];
    try lra; reflexivity.
Qed.

Lemma round_compat (x y : Q) : x == y -> Np.round x = Np.round y.
Proof.
  intros Hxy. unfold Np.round.
  rewrite (Qfloor_comp x y Hxy).
  assert (Hc : (x - inject_Z (Qfloor y) ?= 1 # 2)
               = (y - inject_Z (Qfloor y) ?= 1 # 2)).
  { apply Qcompare_comp; [rewrite Hxy |]; reflexivity. }
  rewrite Hc. reflexivity.
Qed.

(** ** Differences and evenly spaced samples *)

Lemma diff_length (l : list Z) : length (Np.diff l) = (length l - 1)%nat.
Proof.
  induction l as [| a [| b t] IH]; simpl in *; try reflexivity.
  rewrite IH. lia.
Qed.

Lemma diff_nth (l : list Z) (i : nat) :
  (S i < length l)%nat ->
  nth i (Np.diff l) 0%Z = (nth (S i) l 0 - nth i l 0)%Z.
Proof.
  revert i. induction l as [| a [| b t] IH]; intros i Hi; simpl in Hi; try lia.
  destruct i as [| i].
  - reflexivity.
  - change (Np.diff (a :: b :: t)) with ((b - a)%Z :: Np.diff (b :: t)).
    cbn [nth]. rewrite IH by (simpl; lia). reflexivity.
Qed.

Lemma linspace_length (a b : Q) (n : nat) : length (Np.linspace a b n) = n.
Proof.
  destruct n as [| [| d]]; try reflexivity.
  unfold Np.linspace. rewrite length_map, length_seq. reflexivity.
Qed.

Lemma linspace_nth (a b : Q) (d i : nat) :
  (i <= S d)%nat ->
  nth i (Np.linspace a b (S (S d))) 0
  = a + inject_Z (Z.of_nat i) * ((b - a) / inject_Z (Z.of_nat (S d))).
Proof.
  intros Hi. unfold Np.linspace.
  set (f := fun i0 : nat => a + inject_Z (Z.of_nat i0) * ((b - a) / inject_Z (Z.of_nat (S d)))).
  rewrite (nth_indep _ 0 (f 0%nat)) by (rewrite length_map, length_seq; lia).
  rewrite (map_nth f). rewrite seq_nth by lia. reflexivity.
Qed.

Lemma inject_Z_S (i : nat) :
  inject_Z (Z.of_nat (S i)) == inject_Z (Z.of_nat i) + 1.
Proof.
  rewrite Nat2Z.inj_succ. unfold Z.succ. rewrite inject_Z_plus. reflexivity.
Qed.

(** The rounded boundaries of an even partition with step [h] are between
    [floor h] and [floor h + 1] apart. *)
Lemma rounded_step_bounds (h : Q) (i : nat) :
  let x := fun k : nat => 0 + inject_Z (Z.of_nat k) * h in
  (Qfloor h <= Np.round (x (S i)) - Np.round (x i) <= Qfloor h + 1)%Z.
Proof.
  intros x.
  assert (Hstep : x (S i) == x i + h).
  { unfold x. rewrite inject_Z_S. ring. }
  destruct (Qeq_dec h (inject_Z (Qfloor h))) as [Hint | Hfrac].
  - (* a whole number of frames per subdivision: nothing is rounded *)
    assert (Hx : forall k, x k == inject_Z (Z.of_nat k * Qfloor h)).
    { intros k. unfold x. rewrite inject_Z_mult. rewrite Hint at 1. ring. }
    rewrite (round_compat _ _ (Hx (S i))), (round_compat _ _ (Hx i)),
      !round_inject_Z. lia.
  - pose proof (Qfloor_le h) as Hlo.
    pose proof (Qlt_floor h) as Hhi.
    rewrite inject_Z_plus in Hhi. change (inject_Z 1) with 1 in Hhi.
    assert (Hlo' : inject_Z (Qfloor h) < h).
    { destruct (Qlt_le_dec (inject_Z (Qfloor h)) h) as [L | L]; [exact L |].
      exfalso. apply Hfrac. lra. }
    pose proof (round_near (x (S i))) as H1.
    pose proof (round_near (x i)) as H0.

    split.
    + apply Z.lt_pred_le. rewrite Zlt_Qlt.
      unfold Z.pred, Z.sub. rewrite !inject_Z_plus, inject_Z_opp.
      change (inject_Z (-1)) with (-1). lra.
    + apply Z.lt_succ_r. rewrite Zlt_Qlt.
      unfold Z.succ, Z.sub. rewrite !inject_Z_plus, inject_Z_opp.
      change (inject_Z 1) with 1. lra.
Qed.

Lemma subdivision_lengths_length (interval fps : Q) (n : nat) :
  length (BeatSync.subdivision_lengths interval fps n) = n.
Proof.
  unfold BeatSync.subdivision_lengths.
  rewrite diff_length, length_map, linspace_length. lia.
Qed.

Lemma subdivision_lengths_nth (interval fps : Q) (n i : nat) :
  (i < n)%nat ->
  let h := (interval * fps - 0) / inject_Z (Z.of_nat n) in
  nth i (BeatSync.subdivision_lengths interval fps n) 0%Z
  = (Np.round (0 + inject_Z (Z.of_nat (S i)) * h)
     - Np.round (0 + inject_Z (Z.of_nat i) * h))%Z.
Proof.
  intros Hi h. unfold BeatSync.subdivision_lengths.
  destruct n as [| d]; [lia |].
  replace (S d + 1)%nat with (S (S d)) by lia.
  rewrite diff_nth by (rewrite length_map, linspace_length; lia).
  rewrite (nth_indep _ 0%Z (Np.round 0) (n := S i))
    by (rewrite length_map, linspace_length; lia).
  rewrite (nth_indep _ 0%Z (Np.round 0) (n := i))
    by (rewrite length_map, linspace_length; lia).
  rewrite !(map_nth Np.round).
  rewrite !linspace_nth by lia. reflexivity.
Qed.

Lemma subdivision_lengths_even (interval fps : Q) (n i j : nat) :
  (i < n)%nat -> (j < n)%nat ->
  (Z.abs (nth i (BeatSync.subdivision_lengths interval fps n) 0
          - nth j (BeatSync.subdivision_lengths interval fps n) 0) <= 1)%Z.
Proof.
  intros Hi Hj.
  rewrite !subdivision_lengths_nth by assumption.
  pose proof (rounded_step_bounds
                ((interval * fps - 0) / inject_Z (Z.of_nat n)) i) as Bi.
  pose proof (rounded_step_bounds
                ((interval * fps - 0) / inject_Z (Z.of_nat n)) j) as Bj.
  cbv beta zeta in Bi, Bj |- *.
  set (a := Np.round _) in *. set (b := Np.round _) in *.
  set (c := Np.round _) in *. set (d := Np.round _) in *.
  lia.
Qed.

Section StreamingState.

Import BeatSync.

(** ** The streaming synchroniser keeps its state well formed *)

Lemma set_row_length {A : Type} (l : list A) (i : nat) (x : A) :
  length (set_row l i x) = length l.
Proof.
  revert i. induction l as [| a t IH]; intros [| i]; simpl; auto.
Qed.

Lemma set_row_other {A : Type} (l : list A) (i r : nat) (x d : A) :
  r <> i -> nth r (set_row l i x) d = nth r l d.
Proof.
  revert i r. induction l as [| a t IH]; intros [| i] [| r] H; simpl; auto.
  - contradiction.
Qed.

Lemma last_row_ok {A : Type} (l : list A) :
  l <> [] -> exists a, last_row l = Ok a.
Proof.
  intros H. unfold last_row.
  destruct (rev l) as [| a t] eqn:E.
  - apply (f_equal (@rev A)) in E. rewrite rev_involutive in E.
    simpl in E. contradiction.
  - eauto.
Qed.

Lemma zeros_length (n c : nat) : length (zeros n c) = n.
Proof. apply repeat_length. Qed.

Lemma zeros_nth (n c r : nat) :
  (r < n)%nat -> nth r (zeros n c) [] = repeat 0 c.
Proof.
  unfold zeros. intros H. apply nth_repeat_lt. exact H.
Qed.

(** What the end of a subdivision does to the buffer, told by [stored_row]. *)
Lemma end_of_division_spec (s : t) (fs1 : accum) (lb : Q) (df : list Z) :
  wf s -> last_beat s = Some lb -> div_frames s = Some df ->
  exists bf cd fs2 c2,
    end_of_division s fs1 (counter s + 1) = Ok (bf, cd, fs2, c2) /\
    length bf = beat_subdivisions s /\
    (cd < beat_subdivisions s)%nat /\
    match stored_row s with
    | Some r =>
        r = current_div s /\
        bf = set_row (beat_features s) r
               (accum_mean fs1 (counter s + 1) (feat_dim s)) /\
        fs2 = Scalar 0 /\ c2 = 0%Z
    | None => bf = beat_features s /\ cd = current_div s
    end.
Proof.
  intros (Hn & Hlen & Hcd & Hdf) Hlb Hd.
  specialize (Hdf df Hd).
  unfold end_of_division, stored_row. rewrite Hlb, Hd. cbn [bind].
  unfold index.
  destruct (nth_error df (current_div s)) as [len |] eqn:E.
  2:{ apply nth_error_None in E. lia. }
  cbn [bind].
  destruct (len <=? counter s + 1)%Z.
  - unfold assign_row. rewrite Hlen.
    destruct (Nat.ltb_spec (current_div s) (beat_subdivisions s)); [| lia].
    cbn [bind]. unfold py_mod.
    destruct (beat_subdivisions s) as [| n] eqn:En; [lia |].
    cbn [bind]. do 4 eexists. split; [reflexivity |].
    rewrite set_row_length, Hlen.
    repeat split; try reflexivity.
    apply Nat.mod_upper_bound. lia.
  - do 4 eexists. split; [reflexivity |]. repeat split; auto.
Qed.

(** A frame without a beat: nothing is emitted, and only the row named by
    [stored_row] changes. *)
Lemma process_online_no_beat (s : t) (beat : option Q) (f : Q) :
  wf s -> any_beat beat = false ->
  exists s',
    process_online s beat f = Ok (s', (match last_beat s, div_frames s with
                                         | Some _, Some _ => beat
                                         | _, _ => None
                                         end, None)) /\
    wf s' /\
    beat_subdivisions s' = beat_subdivisions s /\
    feat_dim s' = feat_dim s /\
    fps s' = fps s /\
    last_beat s' = last_beat s /\
    div_frames s' = div_frames s /\
    (forall r, stored_row s <> Some r ->
               nth r (beat_features s') [] = nth r (beat_features s) []).
Proof.
  intros Hwf Hb. unfold process_online. rewrite Hb.
  destruct (last_beat s) as [lb |] eqn:Hlb.
  2:{ exists s. repeat split; auto; apply Hwf. }
  destruct (div_frames s) as [df |] eqn:Hd.
  2:{ exists s. destruct beat; repeat split; auto; apply Hwf. }
  destruct (end_of_division_spec s (accum_add (feat_sum s) f) lb df Hwf Hlb Hd)
    as (bf & cd & fs2 & c2 & Heq & Hlen & Hcd & Hst).
  rewrite Heq. cbn [bind].
  eexists. split.
  { destruct beat; reflexivity. }
  destruct Hwf as (Hn & Hl & Hc & Hdf).
  cbn. repeat split; auto.
  - intros df' E. injection E as <-. auto.
  - intros r Hr. destruct (stored_row s) as [r0 |].
    + destruct Hst as (-> & -> & _). apply set_row_other. congruence.
    + destruct Hst as (-> & _). reflexivity.
Qed.

(** A beat once the tempo is known: the buffer is emitted and zeroed, and
    the subdivision lengths follow the interval that just ended. *)
Lemma process_online_beat (s : t) (b lb : Q) (df : list Z) (f : Q) :
  wf s -> last_beat s = Some lb -> div_frames s = Some df ->
  any_beat (Some b) = true ->
  exists s' feats,
    process_online s (Some b) f = Ok (s', (Some b, Some feats)) /\
    wf s' /\
    beat_subdivisions s' = beat_subdivisions s /\
    feat_dim s' = feat_dim s /\
    fps s' = fps s /\
    last_beat s' = Some b /\
    div_frames s' = Some (subdivision_lengths (b - lb) (fps s)
                            (beat_subdivisions s)) /\
    beat_features s' = zeros (beat_subdivisions s) (feat_dim s) /\
    length feats = beat_subdivisions s /\
    (forall r, stored_row s <> Some r ->
               nth r feats [] = nth r (beat_features s) []).
Proof.
  intros Hwf Hlb Hd Hb. unfold process_online. rewrite Hb, Hlb, Hd.
  destruct (end_of_division_spec s (accum_add (feat_sum s) f) lb df Hwf Hlb Hd)
    as (bf & cd & fs2 & c2 & Heq & Hlen & Hcd & Hst).
  rewrite Heq. cbn [bind].
  destruct Hwf as (Hn & Hl & Hc & Hdf).
  assert (Hfs : exists fs3,
            (if (offset s <? c2)%Z
             then Ok (accum_rescale fs2 (offset s) c2)
             else r <- last_row bf ;;
                  Ok (Vec (map (fun x => x * inject_Z (offset s)) r)))
            = Ok fs3).
  { destruct (offset s <? c2)%Z; [eauto |].
    destruct (last_row_ok bf) as (a & Ha).
    - intros ->. simpl in Hlen. lia.
    - rewrite Ha. cbn [bind]. eauto. }
  destruct Hfs as (fs3 & Hfs). rewrite Hfs. cbn [bind].
  do 2 eexists. split; [reflexivity |].
  cbn. repeat split; auto.
  - apply zeros_length.
  - intros df' E. injection E as <-. apply subdivision_lengths_length.
  - intros r Hr. destruct (stored_row s) as [r0 |].
    + destruct Hst as (-> & -> & _). apply set_row_other. congruence.
    + destruct Hst as (-> & _). reflexivity.
Qed.

(** The second beat: the tempo becomes known, nothing is emitted. *)
Lemma process_online_second_beat (s : t) (b lb : Q) (f : Q) :
  wf s -> last_beat s = Some lb -> div_frames s = None ->
  any_beat (Some b) = true ->
  exists s',
    process_online s (Some b) f = Ok (s', (None, None)) /\
    wf s' /\
    div_frames s' = Some (subdivision_lengths (b - lb) (fps s)
                            (beat_subdivisions s)).
Proof.
  intros (Hn & Hl & Hc & Hdf) Hlb Hd Hb.
  unfold process_online. rewrite Hb, Hlb, Hd.
  eexists. split; [reflexivity |]. cbn. repeat split; auto.
  intros df' E. injection E as <-. apply subdivision_lengths_length.
Qed.

Lemma init_wf (n c : nat) (fps : Q) : (0 < n)%nat -> wf (init n c fps).
Proof.
  intros H. unfold wf, init. cbn. repeat split; auto.
  - apply zeros_length.
  - discriminate.
Qed.

End StreamingState.

Section StreamingRuns.

Import BeatSync.

Lemma run_app (s : t) (l1 l2 : list (option Q * Q)) :
  run s (l1 ++ l2)
  = ('(s1, o1, r1) <- run s l1 ;;
     '(s2, o2, r2) <- run s1 l2 ;;
     Ok (s2, o1 ++ o2, r1 ++ r2)).
Proof.
  revert s. induction l1 as [| [beat f] l1 IH]; intros s.
  - cbn [run app bind]. destruct (run s l2) as [[[s2 o2] r2] | e]; reflexivity.
  - cbn [run app]. destruct (process_online s beat f) as [[s1 o] | e];
      cbn [bind]; [| reflexivity].
    rewrite IH. destruct (run s1 l1) as [[[s1' o1] r1] | e];
      cbn [bind]; [| reflexivity].
    destruct (run s1' l2) as [[[s2 o2] r2] | e]; cbn [bind]; [| reflexivity].
    destruct (stored_row s); reflexivity.
Qed.

(** Frames between two beats: nothing is emitted, and a row that no call
    stored into is as it was. *)
Lemma run_no_beats (frames : list (option Q * Q)) :
  forall s,
    wf s -> Forall (fun x => any_beat (fst x) = false) frames ->
    exists s1 outs rows,
      run s frames = Ok (s1, outs, rows) /\
      Forall (fun o : output => snd o = None) outs /\
      wf s1 /\
      beat_subdivisions s1 = beat_subdivisions s /\
      feat_dim s1 = feat_dim s /\
      last_beat s1 = last_beat s /\
      div_frames s1 = div_frames s /\
      fps s1 = fps s /\
      (forall r, ~ In r rows ->
                 nth r (beat_features s1) [] = nth r (beat_features s) []).
Proof.
  induction frames as [| [beat f] rest IH]; intros s Hwf Hall.
  - exists s, [], []. cbn. repeat split; auto; apply Hwf.
  - inversion Hall as [| x l Hb Hrest]; subst. cbn [fst] in Hb.
    destruct (process_online_no_beat s beat f Hwf Hb)
      as (s' & Hstep & Hwf' & Hn & Hc & Hfps & Hlb & Hdf & Hrows).
    destruct (IH s' Hwf' Hrest)
      as (s1 & outs & rows & Hrun & Hout & Hwf1 & Hn1 & Hc1 & Hlb1 & Hdf1
          & Hfps1 & Hrows1).
    cbn [run]. rewrite Hstep. cbn [bind]. rewrite Hrun. cbn [bind].
    do 3 eexists. split; [reflexivity |].
    split; [constructor; [reflexivity | exact Hout] |].
    split; [exact Hwf1 |].
    repeat split; try congruence.
    + intros r Hr. rewrite Hrows1.
      * apply Hrows. intros E. apply Hr. rewrite E. left. reflexivity.
      * intros Hin. apply Hr. destruct (stored_row s); [right |]; exact Hin.
Qed.

End StreamingRuns.


(** C9: between two beats of the running synchroniser nothing is emitted;
    at the beat the buffer is emitted and replaced by zeros, and every
    subdivision that no call of the elapsed interval stored a mean into is
    emitted as a row of zeros.  The state after the beat meets the
    conditions again. *)
Theorem missing_streaming_subdivisions_are_zero :
  forall (s0 : BeatSync.t) (frames : list (option Q * Q)) (b f lb : Q)
         (df : list Z),
    BeatSync.wf s0 ->
    BeatSync.last_beat s0 = Some lb ->
    BeatSync.div_frames s0 = Some df ->
    BeatSync.beat_features s0
    = BeatSync.zeros (BeatSync.beat_subdivisions s0) (BeatSync.feat_dim s0) ->
    Forall (fun x => BeatSync.any_beat (fst x) = false) frames ->
    BeatSync.any_beat (Some b) = true ->
    exists s2 outs feats rows,
      BeatSync.run s0 (frames ++ [(Some b, f)])
      = Ok (s2, outs ++ [(Some b, Some feats)], rows) /\
      Forall (fun o : BeatSync.output => snd o = None) outs /\
      length feats = BeatSync.beat_subdivisions s0 /\
      (forall r, (r < BeatSync.beat_subdivisions s0)%nat -> ~ In r rows ->
                 nth r feats [] = repeat 0 (BeatSync.feat_dim s0)) /\
      BeatSync.beat_features s2
      = BeatSync.zeros (BeatSync.beat_subdivisions s0) (BeatSync.feat_dim s0) /\
      BeatSync.wf s2 /\
      BeatSync.beat_subdivisions s2 = BeatSync.beat_subdivisions s0 /\
      BeatSync.feat_dim s2 = BeatSync.feat_dim s0 /\
      BeatSync.last_beat s2 = Some b /\
      exists df', BeatSync.div_frames s2 = Some df'.
Proof.
  intros s0 frames b f lb df Hwf Hlb Hd Hz Hall Hb.
  destruct (run_no_beats frames s0 Hwf Hall)
    as (s1 & outs & rows & Hrun & Hout & Hwf1 & Hn1 & Hc1 & Hlb1 & Hdf1
        & Hfps1 & Hrows1).
  rewrite Hlb in Hlb1. rewrite Hd in Hdf1.
  destruct (process_online_beat s1 b lb df f Hwf1 Hlb1 Hdf1 Hb)
    as (s2 & feats & Hstep & Hwf2 & Hn2 & Hc2 & Hfps2 & Hlb2 & Hdiv2 & Hbf2
        & Hlen & Hrows2).
  exists s2, outs, feats,
    (rows ++ match BeatSync.stored_row s1 with Some r => [r] | None => [] end).
  split.
  { rewrite run_app, Hrun. cbn [bind BeatSync.run]. rewrite Hstep.
    cbn [bind]. destruct (BeatSync.stored_row s1); reflexivity. }
  split; [exact Hout |].
  split; [congruence |].
  split.
  { intros r Hr Hnot. rewrite Hrows2.
    - rewrite Hrows1.
      + rewrite Hz. apply zeros_nth. exact Hr.
      + intros Hin. apply Hnot. apply in_or_app. left. exact Hin.
    - intros E. apply Hnot. apply in_or_app. right. rewrite E. left.
      reflexivity. }
  split; [rewrite Hbf2; congruence |].
  split; [exact Hwf2 |].
  repeat split; try congruence. eauto.
Qed.

(** The state that two beats lead to from [__init__] meets the conditions
    of the statement above. *)
Lemma after_second_beat_running (n c : nat) (fps b1 b2 f1 f2 : Q) :
  (0 < n)%nat ->
  BeatSync.any_beat (Some b1) = true -> BeatSync.any_beat (Some b2) = true ->
  exists s,
    BeatSync.run (BeatSync.init n c fps) [(Some b1, f1); (Some b2, f2)]
    = Ok (s, [(None, None); (None, None)], []) /\
    BeatSync.wf s /\
    BeatSync.last_beat s = Some b2 /\
    BeatSync.div_frames s
    = Some (BeatSync.subdivision_lengths (b2 - b1) fps n) /\
    BeatSync.beat_features s = BeatSync.zeros n c.
Proof.
  intros Hn H1 H2. cbn [BeatSync.run].
  unfold BeatSync.process_online at 1. cbn [BeatSync.init BeatSync.last_beat].
  rewrite H1. cbn [bind].
  unfold BeatSync.process_online at 1.
  cbn [BeatSync.last_beat BeatSync.div_frames]. rewrite H2. cbn.
  eexists. split; [reflexivity |]. cbn.
  split.
  { unfold BeatSync.wf. cbn. repeat split; auto.
    - apply zeros_length.
    - intros df' E. injection E as <-. apply subdivision_lengths_length. }
  repeat split.
Qed.

Lemma any_beat_zero (b : Q) : b == 0 -> BeatSync.any_beat (Some b) = false.
Proof.
  intros H. unfold BeatSync.any_beat.
  apply Qeq_bool_iff in H. rewrite H. reflexivity.
Qed.

Lemma any_all_zero (a : Np.ndarray) :
  Forall (fun x => x == 0) (Np.data a) -> Np.any a = false.
Proof.
  unfold Np.any. induction 1 as [| x l Hx _ IH]; [reflexivity |].
  cbn [existsb]. apply Qeq_bool_iff in Hx. rewrite Hx. exact IH.
Qed.

(** C10: a beat whose time stamp is zero is handled as a frame without a
    beat: the synchroniser ends in the same state and emits no features.
    A block of synchronised features whose entries are all zero is handled
    by the bar tracker as no features: whatever the beat, the forward
    variables stay as they are and nothing is returned. *)
Theorem truthiness_decides_presence :
  (forall (s : BeatSync.t) (b f : Q),
      b == 0 ->
      match BeatSync.process_online s (Some b) f,
            BeatSync.process_online s None f with
      | Ok (s1, (_, feat1)), Ok (s2, (_, feat2)) =>
          s1 = s2 /\ feat1 = None /\ feat2 = None
      | Raise e1, Raise e2 => e1 = e2
      | _, _ => False
      end) /\
  (forall (d : DBNBarTracking.t) (beat : list Q) (activation : Np.ndarray),
      Forall (fun x => x == 0) (Np.data activation) ->
      DBNBarTracking.process_online d beat activation
      = Ok (DBNBarTracking.with_state d (DBNBarTracking.counter d + 1)
              (DBNBarTracking.fwd_prev d), None)).
Proof.
  split.
  - intros s b f Hb.
    unfold BeatSync.process_online.
    rewrite (any_beat_zero b Hb). cbn [BeatSync.any_beat].
    destruct (BeatSync.last_beat s) as [lb |]; [| auto].
    destruct (BeatSync.div_frames s) as [df |]; [| auto].
    destruct (BeatSync.end_of_division s
                (BeatSync.accum_add (BeatSync.feat_sum s) f)
                (BeatSync.counter s + 1))
      as [[[[bf cd] fs2] c2] | e]; cbn [bind]; auto.
  - intros d beat activation Hz.
    unfold DBNBarTracking.process_online.
    rewrite (any_all_zero activation Hz). reflexivity.
Qed.

(** C8: an array of rank 2 is refused, but while the message of the shape
    error is being formatted: the shape has two entries for the one
    conversion of the format, so that the error is a [TypeError] about the
    format and not the [ValueError] that tells the shape. *)
Theorem log_densities_rank2_format_error :
  forall (gmm : Type) (score_samples : gmm -> list Q -> Q)
         (gmms : list (list (list gmm))) (n m : nat) (data : list Q),
    GMMObservationModel.log_densities gmm score_samples gmms
      (Np.mk_array [n; m] data)
    = Raise (TypeError
               "not all arguments converted during string formatting").
Proof.
  intros gmm sc gmms n m data. reflexivity.
Qed.

(** An array of rank 1 is refused with the message that tells its shape. *)
Lemma log_densities_rank1_value_error :
  forall (gmm : Type) (score_samples : gmm -> list Q -> Q)
         (gmms : list (list (list gmm))) (n : nat) (data : list Q),
    exists msg,
      GMMObservationModel.log_densities gmm score_samples gmms
        (Np.mk_array [n] data) = Raise (ValueError msg).
Proof.
  intros gmm sc gmms n data. eexists. reflexivity.
Qed.

(** ** Loops *)

Lemma for_each_app {A S : Type} (l1 l2 : list A) (body : S -> A -> result S)
    (s : S) :
  for_each (l1 ++ l2) body s = (s' <- for_each l1 body s ;; for_each l2 body s').
Proof.
  revert s. induction l1 as [| a l1 IH]; intros s; cbn [for_each app bind].
  - reflexivity.
  - destruct (body s a) as [s' | e]; cbn [bind]; [apply IH | reflexivity].
Qed.

Lemma sum_snoc (l : list Q) (x : Q) : Np.sum (l ++ [x]) = Np.sum l + x.
Proof. unfold Np.sum. rewrite fold_left_app. reflexivity. Qed.

Lemma combine_map_seq {A B : Type} (f : nat -> A) (g : nat -> B) (l : list nat) :
  combine (map f l) (map g l) = map (fun i => (f i, g i)) l.
Proof. induction l as [| a l IH]; cbn; [| rewrite IH]; reflexivity. Qed.

Lemma repeat_map_seq {A : Type} (x : A) (n a : nat) :
  repeat x n = map (fun _ => x) (seq a n).
Proof. revert a. induction n as [| n IH]; intros a; cbn; [| rewrite <- IH]; reflexivity. Qed.

Lemma combine_app {A B : Type} (l1 l1' : list A) (l2 l2' : list B) :
  length l1 = length l2 ->
  combine (l1 ++ l1') (l2 ++ l2') = combine l1 l2 ++ combine l1' l2'.
Proof.
  revert l2. induction l1 as [| a l1 IH]; intros [| b l2] H; cbn in *;
    try discriminate; [reflexivity |].
  rewrite IH by lia. reflexivity.
Qed.

Lemma combine_seq_snoc {A : Type} (l : list A) (x : A) :
  combine (seq 0 (length (l ++ [x]))) (l ++ [x])
  = combine (seq 0 (length l)) l ++ [(length l, x)].
Proof.
  rewrite length_app. cbn [length]. rewrite seq_app. cbn [seq].
  rewrite combine_app by (rewrite length_seq; reflexivity).
  reflexivity.
Qed.

Section Columns.

Variable gmm : Type.
Variable score_samples : gmm -> list Q -> Q.

Local Abbreviation summed_scores := (GMMObservationModel.summed_scores gmm score_samples).

Lemma density_column_prefix (obs : Np.ndarray) (n n_sub feat_dim : nat)
    (models : list gmm) :
  Np.shape obs = [n; n_sub; feat_dim] ->
  forall (pre post : list gmm),
    models = pre ++ post ->
    (length pre <= n_sub)%nat ->
    for_each (seq 0 (length pre))
      (fun column bd =>
         g <- index models bd ;;
         X <- GMMObservationModel.subdivision obs bd ;;
         Ok (map (fun cs => fst cs + snd cs)
               (combine column (GMMObservationModel.score gmm score_samples g X))))
      (repeat 0 n)
    = Ok (map (summed_scores obs n_sub feat_dim pre) (seq 0 n)).
Proof.
  intros Hshape pre. induction pre as [| g pre IH] using rev_ind;
    intros post Hm Hlen.
  - cbn [length seq for_each]. rewrite (repeat_map_seq 0 n 0). reflexivity.
  - rewrite length_app in *. cbn [length] in *.
    rewrite seq_app, for_each_app.
    rewrite (IH ([g] ++ post)) by (try lia; rewrite Hm, <- app_assoc; reflexivity).
    cbn [bind seq for_each Nat.add].
    unfold index. rewrite Hm, <- app_assoc.
    rewrite nth_error_app2 by lia. rewrite Nat.sub_diag. cbn [nth_error app bind].
    unfold GMMObservationModel.subdivision. rewrite Hshape.
    destruct (Nat.ltb_spec (length pre) n_sub) as [_ | H]; [| lia].
    cbn [bind]. unfold GMMObservationModel.score.
    rewrite map_map, combine_map_seq, map_map. f_equal.
    apply map_ext. intros b. cbn [fst snd].
    unfold GMMObservationModel.summed_scores. rewrite combine_seq_snoc, map_app. cbn [map].
    rewrite sum_snoc.
    reflexivity.
Qed.

Lemma density_column_ok (obs : Np.ndarray) (n n_sub feat_dim : nat)
    (models : list gmm) :
  Np.shape obs = [n; n_sub; feat_dim] ->
  (length models <= n_sub)%nat ->
  GMMObservationModel.density_column gmm score_samples obs n models
  = Ok (map (summed_scores obs n_sub feat_dim models) (seq 0 n)).
Proof.
  intros Hshape Hlen. unfold GMMObservationModel.density_column.
  apply (density_column_prefix obs n n_sub feat_dim models Hshape models []).
  - rewrite app_nil_r. reflexivity.
  - exact Hlen.
Qed.

End Columns.

Section Table.

Variable gmm : Type.
Variable score_samples : gmm -> list Q -> Q.

Local Abbreviation column_of obs n n_sub feat_dim models :=
  (map (GMMObservationModel.summed_scores gmm score_samples obs n_sub feat_dim
          models) (seq 0 n)).

Lemma pattern_columns_ok (obs : Np.ndarray) (n n_sub feat_dim : nat)
    (pattern : list (list gmm)) :
  Np.shape obs = [n; n_sub; feat_dim] ->
  Forall (fun models => (length models <= n_sub)%nat) pattern ->
  forall columns,
    for_each pattern
      (fun columns models =>
         column <- GMMObservationModel.density_column gmm score_samples obs n
                     models ;;
         Ok (columns ++ [column]))
      columns
    = Ok (columns ++ map (fun models => column_of obs n n_sub feat_dim models)
                       pattern).
Proof.
  intros Hshape Hall. induction Hall as [| models pattern Hm _ IH];
    intros columns; cbn [for_each map].
  - rewrite app_nil_r. reflexivity.
  - rewrite (density_column_ok gmm score_samples obs n n_sub feat_dim models
               Hshape Hm).
    cbn [bind]. rewrite IH, <- app_assoc. reflexivity.
Qed.

Lemma log_density_columns_ok (gmms : list (list (list gmm)))
    (obs : Np.ndarray) (n n_sub feat_dim : nat) :
  Np.shape obs = [n; n_sub; feat_dim] ->
  Forall (Forall (fun models => (length models <= n_sub)%nat)) gmms ->
  GMMObservationModel.log_density_columns gmm score_samples gmms obs
  = Ok (map (fun models => column_of obs n n_sub feat_dim models)
          (concat gmms)).
Proof.
  intros Hshape Hall. unfold GMMObservationModel.log_density_columns, Np.ndim.
  rewrite Hshape. cbn [length Nat.eqb negb nth].
  enough (H : forall columns,
             for_each gmms
               (fun columns pattern =>
                  for_each pattern
                    (fun columns models =>
                       column <- GMMObservationModel.density_column gmm
                                   score_samples obs n models ;;
                       Ok (columns ++ [column]))
                    columns)
               columns
             = Ok (columns
                   ++ map (fun models => column_of obs n n_sub feat_dim models)
                        (concat gmms))).
  { rewrite H. reflexivity. }
  induction Hall as [| pattern gmms' Hp _ IH]; intros columns;
    cbn [for_each concat].
  - rewrite app_nil_r. reflexivity.
  - rewrite (pattern_columns_ok obs n n_sub feat_dim pattern Hshape Hp).
    cbn [bind]. rewrite IH, map_app, app_assoc. reflexivity.
Qed.

(** ** The pointers into the stacked densities *)

Local Abbreviation stacked_before := (GMMObservationModel.stacked_before gmm).

Lemma stacked_before_S (gmms : list (list (list gmm))) (p : nat) :
  (p < length gmms)%nat ->
  stacked_before gmms (S p)
  = (stacked_before gmms p + length (nth p gmms []))%nat.
Proof.
  unfold GMMObservationModel.stacked_before. revert p.
  induction gmms as [| g gmms IH]; intros p Hp; cbn [length] in Hp; [lia |].
  destruct p as [| p].
  - cbn. rewrite app_nil_r. lia.
  - change (firstn (S (S p)) (g :: gmms)) with (g :: firstn (S p) gmms).
    change (firstn (S p) (g :: gmms)) with (g :: firstn p gmms).
    cbn [concat nth]. rewrite !length_app.
    rewrite (IH p) by lia. lia.
Qed.

Lemma pointers_fold (gmms : list (list (list gmm)))
    (state_patterns state_positions : list nat) (m : nat) :
  (m <= length gmms)%nat ->
  exists ptrs,
    fold_left
      (GMMObservationModel.pointers_step gmm gmms state_patterns
         state_positions)
      (seq 0 m) (repeat 0%Z (length state_patterns), 0%nat)
    = (ptrs, stacked_before gmms m) /\
    length ptrs = length state_patterns /\
    forall s, (s < length state_patterns)%nat ->
      nth s ptrs 0%Z
      = if (nth s state_patterns 0%nat <? m)%nat
        then GMMObservationModel.uint32
               (Z.of_nat (nth s state_positions 0%nat
                          + stacked_before gmms (nth s state_patterns 0%nat)))
        else 0%Z.
Proof.
  induction m as [| m IH]; intros Hm.
  - exists (repeat 0%Z (length state_patterns)). cbn [seq fold_left].
    repeat split.
    + apply repeat_length.
    + intros s Hs. apply nth_repeat_lt. exact Hs.
  - destruct IH as (ptrs & Hfold & Hlen & Hnth); [lia |].
    rewrite seq_S, fold_left_app, Hfold. cbn [fold_left Nat.add].
    unfold GMMObservationModel.pointers_step at 1.
    eexists. split; [f_equal; symmetry; apply stacked_before_S; lia |].
    split; [rewrite length_map, length_seq; exact Hlen |].
    intros s Hs.
    rewrite (nth_indep _ 0%Z
               ((fun s0 => if Nat.eqb (nth s0 state_patterns 0%nat) m
                           then GMMObservationModel.uint32
                                  (Z.of_nat (nth s0 state_positions 0%nat
                                             + stacked_before gmms m))
                           else nth s0 ptrs 0%Z) 0%nat))
      by (rewrite length_map, length_seq; lia).
    rewrite (map_nth (fun s0 => if Nat.eqb (nth s0 state_patterns 0%nat) m
                                then _ else _)).
    rewrite seq_nth by lia. cbn [Nat.add].
    destruct (Nat.eqb_spec (nth s state_patterns 0%nat) m) as [E | E].
    + rewrite E. destruct (Nat.ltb_spec m (S m)); [reflexivity | lia].
    + rewrite Hnth by exact Hs.
      destruct (Nat.ltb_spec (nth s state_patterns 0%nat) m),
               (Nat.ltb_spec (nth s state_patterns 0%nat) (S m));
        try reflexivity; lia.
Qed.

Lemma nth_error_concat {A : Type} (l : list (list A)) (p k : nat)
    (block : list A) (x : A) :
  nth_error l p = Some block -> nth_error block k = Some x ->
  nth_error (concat l) (length (concat (firstn p l)) + k) = Some x.
Proof.
  revert p. induction l as [| b l IH]; intros p Hp Hk.
  - destruct p; discriminate.
  - destruct p as [| p]; cbn in Hp.
    + injection Hp as ->. cbn [firstn concat length Nat.add].
      rewrite nth_error_app1; [exact Hk |].
      apply nth_error_Some. congruence.
    + cbn [firstn concat]. rewrite length_app.
      rewrite nth_error_app2 by lia.
      replace (length b + length (concat (firstn p l)) + k - length b)%nat
        with (length (concat (firstn p l)) + k)%nat by lia.
      apply IH; assumption.
Qed.

Lemma nth_error_map_seq {A : Type} (f : nat -> A) (n i : nat) :
  (i < n)%nat -> nth_error (map f (seq 0 n)) i = Some (f i).
Proof.
  intros H. rewrite nth_error_map, nth_error_seq.
  destruct (Nat.ltb_spec i n); [reflexivity | lia].
Qed.

(** C3: for an array of observations of rank 3 whose beats have at least
    as many subdivisions as every beat position has models, the state [s]
    with the pattern [p] and the position [k] points to the column
    [k + (number of models of the patterns before p)] of the table of log
    densities, and its log likelihood at beat [b] is the sum over the
    subdivisions [bd] of the score of [gmms[p][k][bd]] on the feature vector
    of subdivision [bd] of beat [b]. *)
Theorem state_log_likelihood_is_sum_of_scores :
  forall (gmms : list (list (list gmm)))
         (state_patterns state_positions : list nat)
         (obs : Np.ndarray) (n n_sub feat_dim s p k b : nat)
         (pattern_models : list (list gmm)) (models : list gmm),
    Np.shape obs = [n; n_sub; feat_dim] ->
    Forall (Forall (fun models => (length models <= n_sub)%nat)) gmms ->
    (Z.of_nat (length (concat gmms)) < 2 ^ 32)%Z ->
    nth_error state_patterns s = Some p ->
    nth_error state_positions s = Some k ->
    nth_error gmms p = Some pattern_models ->
    nth_error pattern_models k = Some models ->
    (b < n)%nat ->
    nth_error (GMMObservationModel.pointers gmm gmms state_patterns
                 state_positions) s
    = Some (Z.of_nat (k + GMMObservationModel.stacked_before gmm gmms p)) /\
    GMMObservationModel.state_log_likelihood gmm score_samples gmms
      state_patterns state_positions obs b s
    = Ok (Np.sum
            (map (fun ig =>
                    score_samples (snd ig)
                      (GMMObservationModel.feature_vector obs n_sub feat_dim
                         b (fst ig)))
               (combine (seq 0 (length models)) models))).
Proof.
  intros gmms pats poss obs n n_sub fd s p k b pm models
    Hshape Hall Hsmall Hp Hk Hpm Hmodels Hb.
  assert (Hs : (s < length pats)%nat) by (apply nth_error_Some; congruence).
  assert (Hplt : (p < length gmms)%nat) by (apply nth_error_Some; congruence).
  pose proof (nth_error_concat gmms p k pm models Hpm Hmodels) as Hcol.
  assert (Hidx : (k + stacked_before gmms p < length (concat gmms))%nat).
  { unfold GMMObservationModel.stacked_before. rewrite Nat.add_comm.
    apply nth_error_Some. congruence. }
  destruct (pointers_fold gmms pats poss (length gmms) (le_n _))
    as (ptrs & Hfold & Hlen & Hnth).
  assert (Hptr : nth_error (GMMObservationModel.pointers gmm gmms pats poss) s
                 = Some (Z.of_nat (k + stacked_before gmms p))).
  { unfold GMMObservationModel.pointers. rewrite Hfold. cbn [fst].
    rewrite (nth_error_nth' ptrs 0%Z) by lia. f_equal.
    rewrite Hnth by exact Hs.
    rewrite (nth_error_nth pats s 0%nat Hp), (nth_error_nth poss s 0%nat Hk).
    destruct (Nat.ltb_spec p (length gmms)); [| lia].
    unfold GMMObservationModel.uint32. apply Z.mod_small. lia. }
  split; [exact Hptr |].
  unfold GMMObservationModel.state_log_likelihood,
    GMMObservationModel.log_densities.
  rewrite (log_density_columns_ok gmms obs n n_sub fd Hshape Hall).
  cbn [bind]. rewrite Hshape. cbn [nth].
  unfold index at 1. rewrite (nth_error_map_seq _ n b Hb). cbn [bind].
  unfold index at 1. rewrite Hptr. cbn [bind].
  rewrite Nat2Z.id. unfold index.
  rewrite !nth_error_map.
  rewrite Nat.add_comm. unfold GMMObservationModel.stacked_before.
  rewrite Hcol. cbn [option_map].
  rewrite (nth_indep _ 0 (GMMObservationModel.summed_scores gmm score_samples
                            obs n_sub fd models 0%nat))
    by (rewrite length_map, length_seq; exact Hb).
  rewrite (map_nth (GMMObservationModel.summed_scores gmm score_samples obs
                      n_sub fd models)).
  rewrite seq_nth by exact Hb. reflexivity.
Qed.

End Table.

Section LateBeats.

Import BeatSync.

(** ** Batch mode: beats beyond the end of the features *)

Lemma drop_trailing_all_late (len : nat) (fps : Q) (rev_rows : list (list Q))
    (warnings : list string) :
  ~ fps == 0 ->
  Forall (fun r => exists t, nth_error r 0 = Some t
                             /\ inject_Z (Z.of_nat len) / fps < t) rev_rows ->
  drop_trailing len fps rev_rows warnings = Raise IndexError.
Proof.
  intros Hfps Hall. revert warnings.
  assert (Hb : Qeq_bool fps 0 = false).
  { destruct (Qeq_bool fps 0) eqn:E; [| reflexivity].
    apply Qeq_bool_iff in E. contradiction. }
  induction Hall as [| r rest (t & Ht & Hlt) _ IH]; intros warnings;
    cbn [drop_trailing]; rewrite Hb; [reflexivity |].
  unfold index. rewrite Ht. cbn [bind].
  destruct (Qlt_le_dec (inject_Z (Z.of_nat len) / fps) t) as [_ | Hle].
  - apply IH.
  - exfalso. apply (Qlt_not_le _ _ Hlt Hle).
Qed.

(** C7: when the time of every beat is beyond the end of the features, the
    loop that drops the late beats drops them all and then reads the last
    beat of an empty array: the call ends in an [IndexError]. *)
Theorem process_offline_all_beats_late_raises :
  forall (n : nat) (fps : Q) (times : list Q) (features : features_array),
    ~ fps == 0 ->
    times <> [] ->
    Forall (fun t => inject_Z (Z.of_nat (features_len features)) / fps < t)
      times ->
    process_offline n fps (Beats1 times) features = Raise IndexError.
Proof.
  intros n fps times features Hfps Hne Hall.
  unfold process_offline.
  destruct (Nat.eqb_spec (beats_size (Beats1 times)) 0) as [E | _].
  { cbn in E. destruct times; [contradiction | discriminate]. }
  rewrite drop_trailing_all_late; [reflexivity | exact Hfps |].
  apply Forall_rev. cbn [beats_rows].
  apply Forall_map. eapply Forall_impl; [| exact Hall].
  intros t Ht. exists t. split; [reflexivity | exact Ht].
Qed.

(** As long as a beat is in reach of the features, the late beats after it
    are dropped, one warning each, and the call goes on with the rest. *)
Lemma drop_trailing_keeps (len : nat) (fps : Q) (late : list (list Q))
    (r : list Q) (t : Q) (rest : list (list Q)) (warnings : list string) :
  ~ fps == 0 ->
  Forall (fun r => exists t, nth_error r 0 = Some t
                             /\ inject_Z (Z.of_nat len) / fps < t) late ->
  nth_error r 0 = Some t ->
  t <= inject_Z (Z.of_nat len) / fps ->
  drop_trailing len fps (late ++ r :: rest) warnings
  = Ok (List.rev (r :: rest),
        (warnings ++ repeat warning_too_long (length late))%list).
Proof.
  intros Hfps Hall Hr Hle. revert warnings.
  assert (Hb : Qeq_bool fps 0 = false).
  { destruct (Qeq_bool fps 0) eqn:E; [| reflexivity].
    apply Qeq_bool_iff in E. contradiction. }
  induction Hall as [| r' late' (t' & Ht' & Hlt) _ IH]; intros warnings.
  - cbn [app drop_trailing length repeat]. rewrite Hb.
    unfold index. rewrite Hr. cbn [bind].
    destruct (Qlt_le_dec (inject_Z (Z.of_nat len) / fps) t) as [Hlt | _].
    + exfalso. apply (Qlt_not_le _ _ Hlt Hle).
    + rewrite app_nil_r. reflexivity.
  - cbn [app drop_trailing length repeat]. rewrite Hb.
    unfold index. rewrite Ht'. cbn [bind].
    destruct (Qlt_le_dec (inject_Z (Z.of_nat len) / fps) t') as [_ | Hle'].
    + rewrite IH, <- app_assoc. reflexivity.
    + exfalso. apply (Qlt_not_le _ _ Hlt Hle').
Qed.

End LateBeats.

Section EmptyBins.

Import BeatSync.

(** ** Batch mode: bins without frames *)

Lemma rows_where_bound {A : Type} (p : A -> bool) (l : list A) :
  Forall (fun r => (r < length l)%nat) (rows_where p l).
Proof.
  unfold rows_where. apply Forall_forall. intros r Hr.
  apply filter_In in Hr. destruct Hr as [Hr _].
  apply in_seq in Hr. lia.
Qed.

Lemma rows_where_In {A : Type} (p : A -> bool) (l : list A) (r : nat) :
  In r (rows_where p l) <-> exists a, nth_error l r = Some a /\ p a = true.
Proof.
  unfold rows_where. rewrite filter_In, in_seq. split.
  - intros [_ H]. destruct (nth_error l r) as [a |]; [eauto | discriminate].
  - intros (a & Ha & Hp). rewrite Ha. split; [| exact Hp].
    assert (r < length l)%nat by (apply nth_error_Some; congruence). lia.
Qed.

Lemma placeholders_ok {A : Type} (x : A) (rows : list nat) :
  forall feats : list A,
    Forall (fun r => (r < length feats)%nat) rows ->
    exists feats1,
      for_each rows (fun feats r => assign_row feats r x) feats = Ok feats1 /\
      length feats1 = length feats /\
      forall r d, nth r feats1 d = if in_dec Nat.eq_dec r rows then
                                     (if (r <? length feats)%nat then x else d)
                                   else nth r feats d.
Proof.
  induction rows as [| r0 rows IH]; intros feats Hall.
  - exists feats. cbn. auto.
  - inversion Hall as [| ? ? Hr0 Hrest]; subst.
    cbn [for_each]. unfold assign_row at 1.
    destruct (Nat.ltb_spec r0 (length feats)); [| lia]. cbn [bind].
    destruct (IH (set_row feats r0 x)) as (feats1 & Hrun & Hlen & Hnth).
    { rewrite set_row_length. exact Hrest. }
    exists feats1. split; [exact Hrun |].
    split; [rewrite Hlen; apply set_row_length |].
    intros r d. rewrite Hnth, set_row_length.
    destruct (in_dec Nat.eq_dec r rows) as [Hin | Hin];
      destruct (in_dec Nat.eq_dec r (r0 :: rows)) as [Hin' | Hin'];
      try reflexivity.
    + exfalso. apply Hin'. right. exact Hin.
    + destruct Hin' as [-> | Hin']; [| contradiction].
      destruct (Nat.ltb_spec r (length feats)); [| lia].
      clear - H. revert r H. induction feats as [| a feats IHf];
        intros [| r] H; cbn in *; try lia; [reflexivity |].
      apply IHf. lia.
    + apply set_row_other. intros ->. apply Hin'. left. reflexivity.
Qed.

Lemma means_of_empty_bins (feat_dim : nat) (bins : list (list (list Q))) :
  Forall (fun x => x = []) bins ->
  rows_where (is_good feat_dim) (map (nan_or_mean feat_dim) bins) = [].
Proof.
  intros Hall.
  destruct (rows_where (is_good feat_dim) (map (nan_or_mean feat_dim) bins))
    as [| r rest] eqn:E; [reflexivity |].
  exfalso.
  assert (Hin : In r (rows_where (is_good feat_dim)
                        (map (nan_or_mean feat_dim) bins)))
    by (rewrite E; left; reflexivity).
  apply rows_where_In in Hin. destruct Hin as (m & Hm & Hgood).
  rewrite nth_error_map in Hm.
  destruct (nth_error bins r) as [x |] eqn:Ex; [| discriminate].
  rewrite Forall_forall in Hall.
  rewrite (Hall x (nth_error_In _ _ Ex)) in Hm.
  cbn in Hm. injection Hm as <-. discriminate.
Qed.

(** With no frames in any bin there is nothing to interpolate from. *)
Lemma interpolate_missing_no_support (n feat_dim : nat)
    (bins : list (list (list Q))) :
  (0 < n)%nat -> (0 < feat_dim)%nat ->
  Forall (fun x => x = []) bins ->
  interpolate_missing n bins feat_dim
  = Raise (ValueError "array of sample points is empty").
Proof.
  intros Hn Hd Hall. unfold interpolate_missing.
  rewrite (means_of_empty_bins feat_dim bins Hall). cbn [length].
  destruct (Nat.ltb_spec 0 n) as [_ |]; [| lia].
  destruct (placeholders_ok [repeat 0 feat_dim]
              (rows_where (is_bad feat_dim) (map (nan_or_mean feat_dim) bins))
              bins) as (feats1 & Hrun & _).
  { pose proof (rows_where_bound (is_bad feat_dim)
                  (map (nan_or_mean feat_dim) bins)) as H.
    rewrite length_map in H. exact H. }
  rewrite Hrun. cbn [bind].
  destruct feat_dim as [| fd]; [lia |].
  destruct n as [| n']; [lia |].
  cbn [seq for_each map Np.interp]. reflexivity.
Qed.

Lemma select_empty (n : nat) :
  map_result (select_bin [] []) (seq 0 n) = Ok (map (fun _ => []) (seq 0 n)).
Proof.
  generalize 0%nat. induction n as [| n IH]; intros a; cbn [seq map_result map].
  - reflexivity.
  - cbn [select_bin length Nat.eqb negb combine filter map bind].
    rewrite IH. reflexivity.
Qed.

Lemma py_slice_empty {A : Type} (l : list A) (start : Z) :
  py_slice l start start = [].
Proof.
  unfold py_slice. rewrite Z.sub_diag. reflexivity.
Qed.

(** A round of the loop that is given a beat returns only if the beat has
    at least one frame. *)
Lemma sync_beat_ok_frames (n : nat) (fps : Q) (features : list (list Q))
    (feat_dim : nat) (start : Z) (b_this b_next : Q)
    (row : list (option (list Q))) (next : Z) :
  (0 < feat_dim)%nat ->
  sync_beat n fps features feat_dim start b_this b_next = Ok (row, next) ->
  next_beat_frame n fps b_this b_next = Ok next /\ (0 < next - start)%Z.
Proof.
  intros Hd. unfold sync_beat.
  destruct (next_beat_frame n fps b_this b_next) as [nf | e] eqn:Enf;
    cbn [bind]; [| discriminate].
  assert (Hn : (0 < n)%nat).
  { destruct n; [| lia]. cbn in Enf.
    destruct (Qeq_bool (b_next - b_this) 0); discriminate. }
  destruct (Z.ltb_spec (nf - start) 0) as [Hneg | Hpos]; [discriminate |].
  destruct (Z.eq_dec (nf - start) 0) as [Hz | Hnz].
  - assert (nf = start) by lia. subst nf.
    rewrite Z.sub_diag. cbn [Z.to_nat Np.linspace map].
    rewrite py_slice_empty, select_empty. cbn [bind].
    rewrite interpolate_missing_no_support; [discriminate | exact Hn | exact Hd |].
    apply Forall_map. apply Forall_forall. reflexivity.
  - destruct (map_result _ _) as [fs | e]; cbn [bind]; [| discriminate].
    destruct (interpolate_missing n fs feat_dim) as [fs' | e]; cbn [bind];
      [| discriminate].
    intros H. inversion H; subst. split; [reflexivity | lia].
Qed.

Lemma sync_beats_step (n : nat) (fps : Q) (features : list (list Q))
    (feat_dim : nat) (start : Z) (b_this b_next : Q) (rest : list Q) :
  sync_beats n fps features feat_dim start (b_this :: b_next :: rest)
  = ('(row, next) <- sync_beat n fps features feat_dim start b_this b_next ;;
     rows <- sync_beats n fps features feat_dim next (b_next :: rest) ;;
     Ok (row :: rows)).
Proof. reflexivity. Qed.

Lemma sync_beats_ok_frames (n : nat) (fps : Q) (features : list (list Q))
    (feat_dim : nat) (times : list Q) :
  (0 < feat_dim)%nat ->
  forall (start : Z) (rows : list (list (option (list Q)))),
    sync_beats n fps features feat_dim start times = Ok rows ->
    Forall (fun c => (0 < c)%Z) (frame_counts n fps start times).
Proof.
  intros Hd. induction times as [| b_this [| b_next rest] IH];
    intros start rows H; cbn [frame_counts]; try constructor.
  rewrite sync_beats_step in H.
  destruct (sync_beat n fps features feat_dim start b_this b_next)
    as [[row next] | e] eqn:Es; cbn [bind] in H; [| discriminate].
  destruct (sync_beat_ok_frames n fps features feat_dim start b_this b_next
              row next Hd Es) as [Hnf Hpos].
  rewrite Hnf.
  destruct (sync_beats n fps features feat_dim next (b_next :: rest))
    as [rows' | e] eqn:Er; cbn [bind] in H; [| discriminate].
  constructor; [exact Hpos | eapply IH; exact Er].
Qed.

Lemma map_result_index0 (rows : list (list Q)) (times : list Q) :
  map_result (fun r => index r 0) rows = Ok times ->
  times = beat_times rows.
Proof.
  revert times. induction rows as [| r rows IH]; intros times H;
    cbn [map_result] in H.
  - injection H as <-. reflexivity.
  - unfold index in H at 1.
    destruct (nth_error r 0) as [t |] eqn:Et; cbn [bind] in H; [| discriminate].
    destruct (map_result (fun r => index r 0) rows) as [ts |] eqn:E;
      cbn [bind] in H; [| discriminate].
    injection H as <-. unfold beat_times. cbn [map]. f_equal.
    + destruct r; [discriminate |]. cbn in Et |- *. congruence.
    + apply IH. reflexivity.
Qed.

(** C6: [interpolate_missing] given bins that are all empty raises the
    [ValueError] of [np.interp], "array of sample points is empty"; and
    when [process_offline] returns, every beat it returns features for had
    at least one frame: a beat without frames ends the call in an
    error, and no row of zeros stands in for it. *)
Theorem empty_beat_fails :
  (forall (n feat_dim : nat) (bins : list (list (list Q))),
      (0 < n)%nat -> (0 < feat_dim)%nat ->
      length bins = n ->
      Forall (fun x => x = []) bins ->
      interpolate_missing n bins feat_dim
      = Raise (ValueError "array of sample points is empty")) /\
  (forall (n : nat) (fps : Q) (beats : beats_array)
          (features : features_array) (out : offline_output),
      (0 < features_dim features)%nat ->
      process_offline n fps beats features = Ok out ->
      Forall (fun c => (0 < c)%Z)
        (frame_counts n fps (first_frame fps (beat_times (out_beats out)))
           (beat_times (out_beats out)))).
Proof.
  split.
  - intros n fd bins Hn Hd _ Hall.
    apply interpolate_missing_no_support; assumption.
  - intros n fps beats features out Hd H. unfold process_offline in H.
    destruct (Nat.eqb (beats_size beats) 0).
    { injection H as <-. cbn. constructor. }
    destruct (drop_trailing _ _ _ _) as [[rows w1] | e]; cbn [bind] in H;
      [| discriminate].
    destruct (map_result (fun r => index r 0) rows) as [times | e] eqn:Et;
      [| destruct features; discriminate].
    apply map_result_index0 in Et. subst times.
    destruct features as [xs | c frames]; cbn [bind] in H;
      unfold index in H at 1;
      (destruct (nth_error (beat_times rows) 0) as [b0 |] eqn:E0;
       cbn [bind] in H; [| discriminate]);
      (destruct (sync_beats _ _ _ _ _ _) as [feats | e] eqn:Es;
       cbn [bind] in H; [| discriminate]);
      injection H as <-; cbn [out_beats];
      (destruct (beat_times rows) as [| t ts] eqn:Ebt; [discriminate |]);
      cbn in E0; injection E0 as ->;
      eapply sync_beats_ok_frames; try exact Es; exact Hd.
Qed.

End EmptyBins.

(** ** Interpolation over the indices of the supported bins *)

Section Interp.

Variable m : nat -> Q.
Variable r : nat.

Local Abbreviation inj k := (inject_Z (Z.of_nat k)).
Local Abbreviation pt := (fun g : nat => (inject_Z (Z.of_nat g), m g)).

Lemma inj_lt (a b : nat) : (a < b)%nat <-> inj a < inj b.
Proof. rewrite <- Zlt_Qlt. lia. Qed.

Lemma inj_le (a b : nat) : (a <= b)%nat <-> inj a <= inj b.
Proof. rewrite <- Zle_Qle. lia. Qed.

Lemma interp_from_skip (skipped : list nat) (g1 : nat)
    (rest : list (Q * Q)) :
  Forall (fun a => (a <= r)%nat) skipped -> (g1 <= r)%nat ->
  forall x0 f0,
    Np.interp_from (inj r) x0 f0 (map pt (skipped ++ [g1]) ++ rest)
    = Np.interp_from (inj r) (inj g1) (m g1) rest.
Proof.
  intros Hall Hg. induction Hall as [| a skipped Ha _ IH]; intros x0 f0;
    cbn [app map Np.interp_from].
  - destruct (Qlt_le_dec (inj r) (inj g1)) as [H | _]; [| reflexivity].
    apply inj_lt in H. lia.
  - destruct (Qlt_le_dec (inj r) (inj a)) as [H | _]; [| apply IH].
    apply inj_lt in H. lia.
Qed.

Lemma interp_at_skip (skipped : list nat) (g1 : nat) (rest : list (Q * Q)) :
  Forall (fun a => (a < r)%nat) skipped -> (g1 < r)%nat ->
  Np.interp_at (inj r) (map pt (skipped ++ [g1]) ++ rest)
  = Np.interp_from (inj r) (inj g1) (m g1) rest.
Proof.
  intros Hall Hg. destruct skipped as [| a skipped];
    cbn [app map Np.interp_at].
  - destruct (Qlt_le_dec (inj g1) (inj r)) as [_ | H]; [reflexivity |].
    apply inj_le in H. lia.
  - inversion Hall as [| ? ? Ha Hrest]; subst.
    destruct (Qlt_le_dec (inj a) (inj r)) as [_ | H].
    + apply interp_from_skip; [| lia].
      eapply Forall_impl; [| exact Hrest]. cbn. intros; lia.
    + apply inj_le in H. lia.
Qed.

(** Between two supported bins: the straight line through their means *)
Lemma interp_at_between (before after : list nat) (g1 g2 : nat) :
  Forall (fun a => (a < g1)%nat) before -> (g1 < r)%nat -> (r < g2)%nat ->
  Np.interp_at (inj r) (map pt (before ++ g1 :: g2 :: after))
  = (m g2 - m g1) / (inj g2 - inj g1) * (inj r - inj g1) + m g1.
Proof.
  intros Hall H1 H2.
  replace (before ++ g1 :: g2 :: after)
    with ((before ++ [g1]) ++ g2 :: after) by (rewrite <- app_assoc; reflexivity).
  rewrite (map_app _ (before ++ [g1])).
  rewrite interp_at_skip; [| | exact H1].
  - cbn [map Np.interp_from].
    destruct (Qlt_le_dec (inj r) (inj g2)) as [_ | H]; [reflexivity |].
    apply inj_le in H. lia.
  - eapply Forall_impl; [| exact Hall]. cbn. intros; lia.
Qed.

(** Behind the last supported bin: its mean *)
Lemma interp_at_right (before : list nat) (g1 : nat) :
  Forall (fun a => (a < g1)%nat) before -> (g1 < r)%nat ->
  Np.interp_at (inj r) (map pt (before ++ [g1])) = m g1.
Proof.
  intros Hall H1.
  rewrite <- (app_nil_r (map pt (before ++ [g1]))).
  rewrite interp_at_skip; [reflexivity | | exact H1].
  eapply Forall_impl; [| exact Hall]. cbn. intros; lia.
Qed.

(** Before the first supported bin: its mean *)
Lemma interp_at_left (after : list nat) (g2 : nat) :
  (r < g2)%nat ->
  Np.interp_at (inj r) (map pt (g2 :: after)) = m g2.
Proof.
  intros H. cbn [map Np.interp_at].
  destruct (Qlt_le_dec (inj g2) (inj r)) as [H' | _]; [| reflexivity].
  apply inj_lt in H'. lia.
Qed.

End Interp.

(** ** The supported rows, in order *)

Section Filter.

Variable p : nat -> bool.

Lemma filter_seq_none (lo len : nat) :
  (forall g, (lo <= g < lo + len)%nat -> p g = false) ->
  filter p (seq lo len) = [].
Proof.
  revert lo. induction len as [| len IH]; intros lo H; cbn [seq filter].
  - reflexivity.
  - rewrite (H lo) by lia. apply IH. intros g Hg. apply H. lia.
Qed.

Lemma filter_seq_below (lo len : nat) :
  Forall (fun a => (a < lo + len)%nat) (filter p (seq lo len)).
Proof.
  apply Forall_forall. intros a Ha. apply filter_In in Ha.
  destruct Ha as [Ha _]. apply in_seq in Ha. lia.
Qed.

Lemma filter_seq_at (n g : nat) :
  (g < n)%nat ->
  filter p (seq 0 n)
  = filter p (seq 0 g) ++ (if p g then [g] else [])
    ++ filter p (seq (S g) (n - S g)).
Proof.
  intros Hg.
  replace n with (g + (1 + (n - S g)))%nat at 1 by lia.
  rewrite seq_app, filter_app, seq_app, filter_app.
  cbn [seq filter Nat.add]. rewrite Nat.add_1_r.
  destruct (p g); reflexivity.
Qed.

Lemma filter_seq_between (n g1 g2 : nat) :
  (g1 < g2)%nat -> (g2 < n)%nat ->
  p g1 = true -> p g2 = true ->
  (forall g, (g1 < g < g2)%nat -> p g = false) ->
  filter p (seq 0 n)
  = filter p (seq 0 g1) ++ g1 :: g2 :: filter p (seq (S g2) (n - S g2)).
Proof.
  intros H12 H2n P1 P2 Hnone.
  rewrite (filter_seq_at n g1) by lia. rewrite P1. cbn [app].
  f_equal. f_equal.
  replace (n - S g1)%nat with ((g2 - S g1) + (1 + (n - S g2)))%nat by lia.
  rewrite seq_app, filter_app, seq_app, filter_app.
  rewrite filter_seq_none by (intros g Hg; apply Hnone; lia).
  replace (S g1 + (g2 - S g1))%nat with g2 by lia.
  cbn [seq filter app Nat.add]. rewrite P2, Nat.add_1_r. reflexivity.
Qed.

Lemma filter_seq_first (n g2 : nat) :
  (g2 < n)%nat -> p g2 = true ->
  (forall g, (g < g2)%nat -> p g = false) ->
  filter p (seq 0 n) = g2 :: filter p (seq (S g2) (n - S g2)).
Proof.
  intros H2n P2 Hnone.
  rewrite (filter_seq_at n g2) by lia. rewrite P2.
  rewrite filter_seq_none by (intros g Hg; apply Hnone; lia).
  reflexivity.
Qed.

Lemma filter_seq_last (n g1 : nat) :
  (g1 < n)%nat -> p g1 = true ->
  (forall g, (g1 < g < n)%nat -> p g = false) ->
  filter p (seq 0 n) = filter p (seq 0 g1) ++ [g1].
Proof.
  intros H1n P1 Hnone.
  rewrite (filter_seq_at n g1) by lia. rewrite P1.
  rewrite (filter_seq_none (S g1)) by (intros g Hg; apply Hnone; lia).
  reflexivity.
Qed.

End Filter.

Section MissingRows.

Import BeatSync.

(** ** The loops of [interpolate_missing] *)

Lemma set_row_same {A : Type} (l : list A) (i : nat) (x d : A) :
  (i < length l)%nat -> nth i (set_row l i x) d = x.
Proof.
  revert i. induction l as [| a l IH]; intros [| i] H; cbn in *; try lia.
  - reflexivity.
  - apply IH. lia.
Qed.

Lemma assign_entry_spec (feats : list (list (list Q))) (r d : nat) (v : Q)
    (row : list Q) :
  (r < length feats)%nat -> nth r feats [] = [row] -> (d < length row)%nat ->
  assign_entry feats r d v = Ok (set_row feats r [set_row row d v]).
Proof.
  intros Hr Hrow Hd. unfold assign_entry, index.
  rewrite (nth_error_nth' feats [] Hr), Hrow. cbn [bind nth_error].
  unfold assign_row.
  destruct (Nat.ltb_spec d (length row)); [| lia]. cbn [bind length].
  destruct (Nat.ltb_spec 0 1); [| lia]. cbn [bind set_row].
  destruct (Nat.ltb_spec r (length feats)); [| lia]. reflexivity.
Qed.

Lemma interp_ok (xs xp fp : list Q) :
  xp <> [] -> length xp = length fp ->
  Np.interp xs xp fp = Ok (map (fun x => Np.interp_at x (combine xp fp)) xs).
Proof.
  intros Hne Hlen.
  assert (H1 : forall x, Np.interp1 x xp fp
                         = Ok (Np.interp_at x (combine xp fp))).
  { intros x. unfold Np.interp1. rewrite Hlen, Nat.eqb_refl. cbn [negb].
    destruct xp as [| x0 xp]; [contradiction | reflexivity]. }
  induction xs as [| x xs IH]; cbn [Np.interp map].
  - rewrite H1. reflexivity.
  - rewrite H1. cbn [bind]. rewrite IH. reflexivity.
Qed.

Section Loops.

Variable n feat_dim : nat.
Variable bins : list (list (list Q)).
Variable bad : list nat.
(** the value that dimension [d] of the missing row [r] is to get *)
Variable V : nat -> nat -> Q.

Local Abbreviation filled := (BeatSync.filled n feat_dim bins bad V).

Lemma fill_rows (j : nat) (means_p : list Q) :
  (j < feat_dim)%nat ->
  (forall r, (r < n)%nat -> nth_error means_p r = Some (V j r)) ->
  forall (todo done : list nat) (feats : list (list (list Q))),
    Forall (fun r => In r bad /\ (r < n)%nat) todo ->
    filled j done feats ->
    exists feats',
      for_each todo
        (fun feats r => v <- index means_p r ;; assign_entry feats r j v)
        feats = Ok feats' /\
      filled j (done ++ todo) feats'.
Proof.
  intros Hj Hmeans todo. induction todo as [| r0 todo IH];
    intros done feats Hall Hfilled.
  - exists feats. rewrite app_nil_r. split; [reflexivity | exact Hfilled].
  - inversion Hall as [| ? ? [Hbad Hr0] Hrest]; subst.
    destruct Hfilled as [Hlen Hrows].
    destruct (Hrows r0 Hr0) as [Hb _].
    destruct (Hb Hbad) as (row & Hrow & Hrowlen & Hbefore & _).
    cbn [for_each]. unfold index at 1. rewrite (Hmeans r0 Hr0). cbn [bind].
    rewrite (assign_entry_spec feats r0 j (V j r0) row
               ltac:(lia) Hrow ltac:(lia)).
    cbn [bind].
    destruct (IH (done ++ [r0]) (set_row feats r0 [set_row row j (V j r0)]))
      as (feats' & Hrun & Hfilled').
    { exact Hrest. }
    { split; [rewrite set_row_length; exact Hlen |].
      intros r Hr. destruct (Hrows r Hr) as [Hb' Hg']. split.
      - intros Hin. destruct (Nat.eq_dec r r0) as [-> | Hne].
        + exists (set_row row j (V j r0)).
          rewrite set_row_same by lia.
          split; [reflexivity |].
          split; [rewrite set_row_length; exact Hrowlen |].
          split.
          * intros d Hd. rewrite set_row_other by lia. apply Hbefore. exact Hd.
          * intros _. apply set_row_same. lia.
        + destruct (Hb' Hin) as (row' & Hrow' & Hlen' & Hbefore' & Hdone').
          exists row'. rewrite set_row_other by exact Hne.
          repeat split; auto.
          intros Hd. apply Hdone'. apply in_app_or in Hd.
          destruct Hd as [Hd | [Hd | []]]; [exact Hd | congruence].
      - intros Hnin. rewrite set_row_other; [apply Hg'; exact Hnin |].
        intros ->. contradiction. }
    exists feats'. split; [exact Hrun |].
    rewrite <- app_assoc in Hfilled'. exact Hfilled'.
Qed.

Variable xs xp : list Q.
Variable fp : nat -> list Q.

Hypothesis xp_not_empty : xp <> [].
Hypothesis fp_length : forall d, length (fp d) = length xp.
Hypothesis xs_values :
  forall d r, (r < n)%nat ->
    nth_error (map (fun x => Np.interp_at x (combine xp (fp d))) xs) r
    = Some (V d r).
Hypothesis bad_rows : Forall (fun r => In r bad /\ (r < n)%nat) bad.

Lemma fill_dimensions (k : nat) :
  forall (j : nat) (feats : list (list (list Q))),
    (j + k = feat_dim)%nat ->
    filled j [] feats ->
    exists out,
      for_each (seq j k)
        (fun feats d =>
           means_p <- Np.interp xs xp (fp d) ;;
           for_each bad
             (fun feats r => v <- index means_p r ;; assign_entry feats r d v)
             feats)
        feats = Ok out /\
      filled feat_dim [] out.
Proof.
  induction k as [| k IH]; intros j feats Hjk Hfilled.
  - assert (E : j = feat_dim) by lia. subst j.
    exists feats. split; [reflexivity | exact Hfilled].
  - cbn [seq for_each].
    rewrite interp_ok by (auto using xp_not_empty; symmetry; apply fp_length).
    cbn [bind].
    destruct (fill_rows j _ ltac:(lia) (xs_values j) bad [] feats bad_rows
                Hfilled) as (feats' & Hrun & Hfilled').
    rewrite Hrun. cbn [bind app] in *.
    apply IH; [lia |].
    destruct Hfilled' as [Hlen Hrows]. split; [exact Hlen |].
    intros r Hr. destruct (Hrows r Hr) as [Hb Hg]. split; [| exact Hg].
    intros Hin. destruct (Hb Hin) as (row & Hrow & Hrowlen & Hbefore & Hdone).
    exists row. repeat split; auto; [| intros []].
    intros d Hd. destruct (Nat.eq_dec d j) as [-> | Hne].
    + apply Hdone. exact Hin.
    + apply Hbefore. lia.
Qed.

End Loops.

End MissingRows.

Section MissingBins.

Import BeatSync.

Lemma means_nth_error (feat_dim : nat) (bins : list (list (list Q)))
    (g : nat) :
  (g < length bins)%nat ->
  nth_error (map (nan_or_mean feat_dim) bins) g
  = Some (nan_or_mean feat_dim (nth g bins [])).
Proof.
  intros H. rewrite nth_error_map, (nth_error_nth' bins [] H). reflexivity.
Qed.

Lemma nan_or_mean_empty (feat_dim : nat) : nan_or_mean feat_dim [] = None.
Proof. reflexivity. Qed.

Lemma nan_or_mean_frames (feat_dim : nat) (x : list (list Q)) :
  x <> [] ->
  exists v, nan_or_mean feat_dim x = Some v /\ length v = feat_dim.
Proof.
  intros H. destruct x as [| a x]; [contradiction |].
  unfold nan_or_mean, mean_axis0. cbn [length Nat.ltb Nat.leb].
  eexists. split; [reflexivity |]. rewrite length_map, length_seq. reflexivity.
Qed.

Lemma good_at_supported (feat_dim : nat) (bins : list (list (list Q)))
    (g : nat) :
  (0 < feat_dim)%nat -> (g < length bins)%nat -> nth g bins [] <> [] ->
  good_at feat_dim bins g = true.
Proof.
  intros Hd Hg Hs. unfold good_at. rewrite means_nth_error by exact Hg.
  destruct (nan_or_mean_frames feat_dim _ Hs) as (v & -> & Hlen).
  cbn [is_good]. rewrite Hlen.
  destruct feat_dim; [lia | reflexivity].
Qed.

Lemma good_at_missing (feat_dim : nat) (bins : list (list (list Q)))
    (g : nat) :
  nth g bins [] = [] -> good_at feat_dim bins g = false.
Proof.
  intros Hs. unfold good_at.
  destruct (Nat.lt_ge_cases g (length bins)) as [Hg | Hg].
  - rewrite means_nth_error by exact Hg. rewrite Hs. reflexivity.
  - rewrite (proj2 (nth_error_None _ _)); [reflexivity |].
    rewrite length_map. exact Hg.
Qed.

Lemma filter_length_lt {A : Type} (p : A -> bool) (l : list A) (a : A) :
  In a l -> p a = false -> (length (filter p l) < length l)%nat.
Proof.
  induction l as [| b l IH]; intros Hin Hp; [contradiction |].
  cbn [filter length]. destruct Hin as [-> | Hin].
  - rewrite Hp. pose proof (filter_length_le p l). lia.
  - specialize (IH Hin Hp). destruct (p b); cbn [length]; lia.
Qed.

Lemma mean_of_one_row (feat_dim : nat) (row : list Q) (d : nat) :
  (d < feat_dim)%nat ->
  exists w, mean_axis0 feat_dim [row] = Some w /\ nth d w 0 == nth d row 0.
Proof.
  intros Hd. unfold mean_axis0. eexists. split; [reflexivity |].
  rewrite (nth_indep _ 0 ((fun d0 => Np.sum (map (fun row0 => nth d0 row0 0) [row])
                                     / inject_Z (Z.of_nat (length [row]))) 0%nat))
    by (rewrite length_map, length_seq; exact Hd).
  rewrite (map_nth (fun d0 => Np.sum (map (fun row0 => nth d0 row0 0) [row])
                              / inject_Z (Z.of_nat (length [row])))).
  rewrite seq_nth by exact Hd. cbn. field.
Qed.

(** What [interpolate_missing] returns when a bin is missing and a bin is
    supported: the supported bins as they were, and for every missing bin
    one row whose entries are the values of [np.interp] at the index of
    the bin. *)
Lemma interpolate_missing_rows (bins : list (list (list Q)))
    (feat_dim : nat) :
  (0 < feat_dim)%nat ->
  (exists r, (r < length bins)%nat /\ nth r bins [] = []) ->
  (exists g, (g < length bins)%nat /\ nth g bins [] <> []) ->
  exists out,
    interpolate_missing (length bins) bins feat_dim = Ok out /\
    length out = length bins /\
    forall r, (r < length bins)%nat ->
      (nth r bins [] = [] ->
       exists row,
         nth r out [] = [row] /\ length row = feat_dim /\
         forall d, (d < feat_dim)%nat ->
           nth d row 0
           = Np.interp_at (inject_Z (Z.of_nat r))
               (map (fun g => (inject_Z (Z.of_nat g),
                               bin_mean feat_dim bins g d))
                  (filter (good_at feat_dim bins) (seq 0 (length bins))))) /\
      (nth r bins [] <> [] -> nth r out [] = nth r bins []).
Proof.
  intros Hd (r0 & Hr0 & Hmiss) (g0 & Hg0 & Hsupp).
  unfold interpolate_missing.
  set (means := map (nan_or_mean feat_dim) bins).
  assert (Hgood : rows_where (is_good feat_dim) means
                  = filter (good_at feat_dim bins) (seq 0 (length bins))).
  { unfold rows_where, means. rewrite length_map. reflexivity. }
  rewrite Hgood.
  set (good := filter (good_at feat_dim bins) (seq 0 (length bins))).
  assert (Hlt : (length good < length bins)%nat).
  { unfold good.
    pose proof (filter_length_lt (good_at feat_dim bins)
                  (seq 0 (length bins)) r0) as Hf.
    rewrite length_seq in Hf. apply Hf.
    - apply in_seq. lia.
    - apply good_at_missing. exact Hmiss. }
  destruct (Nat.ltb_spec (length good) (length bins)) as [_ |]; [| lia].
  set (bad := rows_where (is_bad feat_dim) means).
  assert (Hbad : forall r, In r bad <-> (r < length bins)%nat
                                        /\ nth r bins [] = []).
  { intros r. unfold bad. rewrite rows_where_In. split.
    - intros (a & Ha & Hba).
      assert (Hr : (r < length bins)%nat).
      { assert (H : nth_error means r <> None) by congruence.
        apply nth_error_Some in H.
        unfold means in H. rewrite length_map in H. exact H. }
      split; [exact Hr |].
      unfold means in Ha. rewrite means_nth_error in Ha by exact Hr.
      injection Ha as <-.
      destruct (nth r bins []) as [| fr x] eqn:E; [reflexivity |].
      destruct (nan_or_mean_frames feat_dim (fr :: x)) as (v & Hv & _);
        [discriminate |].
      rewrite Hv in Hba. discriminate.
    - intros [Hr He]. exists None. unfold means.
      rewrite means_nth_error by exact Hr. rewrite He. split; [reflexivity |].
      cbn. destruct feat_dim; [lia | reflexivity]. }
  destruct (placeholders_ok [repeat 0 feat_dim] bad bins)
    as (feats1 & Hrun1 & Hlen1 & Hnth1).
  { apply Forall_forall. intros r Hr. apply Hbad in Hr. lia. }
  rewrite Hrun1. cbn [bind].
  set (V := fun d r : nat =>
              Np.interp_at (inject_Z (Z.of_nat r))
                (combine (map (fun r0 => inject_Z (Z.of_nat r0)) good)
                   (map (fun r0 => mean_entry means r0 d) good))).
  destruct (fill_dimensions (length bins) feat_dim bins bad V
              (map (fun x => inject_Z (Z.of_nat x)) (seq 0 (length bins)))
              (map (fun r => inject_Z (Z.of_nat r)) good)
              (fun d => map (fun r => mean_entry means r d) good))
    with (k := feat_dim) (j := 0%nat) (feats := feats1)
    as (out & Hrun & Hlen & Hrows).
  - intros E. apply map_eq_nil in E.
    assert (Hin : In g0 good).
    { unfold good. apply filter_In. split; [apply in_seq; lia |].
      apply good_at_supported; assumption. }
    rewrite E in Hin. contradiction.
  - intros d. rewrite !length_map. reflexivity.
  - intros d r Hr. rewrite map_map.
    rewrite (nth_error_map_seq _ (length bins) r Hr). reflexivity.
  - apply Forall_forall. intros r Hr. split; [exact Hr |].
    apply Hbad in Hr. lia.
  - reflexivity.
  - split; [exact Hlen1 |]. intros r Hr. split.
    + intros Hin. exists (repeat 0 feat_dim).
      rewrite Hnth1. destruct (in_dec Nat.eq_dec r bad); [| contradiction].
      destruct (Nat.ltb_spec r (length bins)); [| lia].
      repeat split; [apply repeat_length | intros; lia | intros []].
    + intros Hnin. rewrite Hnth1.
      destruct (in_dec Nat.eq_dec r bad); [contradiction | reflexivity].
  - exists out. split; [exact Hrun |]. split; [exact Hlen |].
    intros r Hr. destruct (Hrows r Hr) as [Hb Hg]. split.
    + intros He. destruct (Hb (proj2 (Hbad r) (conj Hr He)))
        as (row & Hrow & Hrowlen & Hvals & _).
      exists row. repeat split; auto.
      intros d Hdd. rewrite (Hvals d Hdd). unfold V.
      rewrite combine_map_seq. reflexivity.
    + intros Hne. apply Hg. intros Hin. apply Hbad in Hin.
      destruct Hin as [_ He]. contradiction.
Qed.

(** C4: when a bin of a beat has no frames and another bin has frames,
    [interpolate_missing] returns; the bins with frames are as they were,
    and the missing bin holds one row whose every entry is, in its own
    feature dimension, the value of the linear interpolation over the bin
    indices of the means of the supported bins: on the straight line
    through the means of the nearest supported bins on both sides, and the
    mean of the nearest supported bin where only one side has one.  With 4
    bins, bin 1 missing and the means 1, 3 and 4 in the bins 0, 2 and 3,
    the value in bin 1 is 2. *)
Theorem missing_bin_is_interpolated :
  forall (bins : list (list (list Q))) (feat_dim r d : nat),
    (r < length bins)%nat -> (d < feat_dim)%nat ->
    nth r bins [] = [] ->
    (exists g, (g < length bins)%nat /\ nth g bins [] <> []) ->
    let m := fun g => bin_mean feat_dim bins g d in
    let at_index := fun k : nat => inject_Z (Z.of_nat k) in
    exists out row w,
      interpolate_missing (length bins) bins feat_dim = Ok out /\
      nth r out [] = [row] /\ length row = feat_dim /\
      mean_axis0 feat_dim (nth r out []) = Some w /\
      nth d w 0 == nth d row 0 /\
      (forall g, (g < length bins)%nat -> nth g bins [] <> [] ->
                 nth g out [] = nth g bins []) /\
      (forall g1 g2,
          (g1 < r)%nat -> (r < g2)%nat -> (g2 < length bins)%nat ->
          nth g1 bins [] <> [] -> nth g2 bins [] <> [] ->
          (forall g, (g1 < g < g2)%nat -> nth g bins [] = []) ->
          nth d row 0
          = (m g2 - m g1) / (at_index g2 - at_index g1)
            * (at_index r - at_index g1) + m g1) /\
      (forall g2,
          (r < g2)%nat -> (g2 < length bins)%nat -> nth g2 bins [] <> [] ->
          (forall g, (g < g2)%nat -> nth g bins [] = []) ->
          nth d row 0 = m g2) /\
      (forall g1,
          (g1 < r)%nat -> nth g1 bins [] <> [] ->
          (forall g, (g1 < g < length bins)%nat -> nth g bins [] = []) ->
          nth d row 0 = m g1) /\
      (length bins = 4%nat -> r = 1%nat ->
       nth 0 bins [] <> [] -> nth 2 bins [] <> [] -> nth 3 bins [] <> [] ->
       m 0%nat == 1 -> m 2%nat == 3 -> m 3%nat == 4 ->
       nth d row 0 == 2).
Proof.
  intros bins fd r d Hr Hd Hmiss Hsupp m at_index.
  assert (Hfd : (0 < fd)%nat) by lia.
  destruct (interpolate_missing_rows bins fd Hfd
              (ex_intro _ r (conj Hr Hmiss)) Hsupp)
    as (out & Hrun & Hlen & Hrows).
  destruct (Hrows r Hr) as [Hb _].
  destruct (Hb Hmiss) as (row & Hrow & Hrowlen & Hvals).
  destruct (mean_of_one_row fd row d Hd) as (w & Hw & Hwd).
  exists out, row, w.
  split; [exact Hrun |]. split; [exact Hrow |]. split; [exact Hrowlen |].
  split; [rewrite Hrow; exact Hw |]. split; [exact Hwd |].
  split; [intros g Hg Hne; apply (proj2 (Hrows g Hg)); exact Hne |].
  assert (Hbetween : forall g1 g2,
             (g1 < r)%nat -> (r < g2)%nat -> (g2 < length bins)%nat ->
             nth g1 bins [] <> [] -> nth g2 bins [] <> [] ->
             (forall g, (g1 < g < g2)%nat -> nth g bins [] = []) ->
             nth d row 0
             = (m g2 - m g1) / (at_index g2 - at_index g1)
               * (at_index r - at_index g1) + m g1).
  { intros g1 g2 H1 H2 H2n S1 S2 Hnone.
    rewrite (Hvals d Hd).
    rewrite (filter_seq_between (good_at fd bins) (length bins) g1 g2)
      by (try lia; try (apply good_at_supported; try assumption; lia);
          intros g Hg; apply good_at_missing; apply Hnone; exact Hg).
    apply (interp_at_between m r); [| exact H1 | exact H2].
    exact (filter_seq_below (good_at fd bins) 0 g1). }
  split; [exact Hbetween |].
  split.
  { intros g2 H2 H2n S2 Hnone.
    rewrite (Hvals d Hd).
    rewrite (filter_seq_first (good_at fd bins) (length bins) g2)
      by (try lia; try (apply good_at_supported; try assumption; lia);
          intros g Hg; apply good_at_missing; apply Hnone; exact Hg).
    apply (interp_at_left m r). exact H2. }
  split.
  { intros g1 H1 S1 Hnone.
    rewrite (Hvals d Hd).
    rewrite (filter_seq_last (good_at fd bins) (length bins) g1)
      by (try lia; try (apply good_at_supported; try assumption; lia);
          intros g Hg; apply good_at_missing; apply Hnone; exact Hg).
    apply (interp_at_right m r); [| exact H1].
    exact (filter_seq_below (good_at fd bins) 0 g1). }
  intros H4 -> S0 S2 _ M0 M2 _.
  rewrite (Hbetween 0%nat 2%nat) by (try lia; try assumption;
    intros g Hg; assert (g = 1%nat) by lia; subst g; exact Hmiss).
  rewrite M0, M2. unfold at_index. cbn. field.
Qed.

End MissingBins.

(** ** Sums of rationals *)

Lemma fold_Qplus_start (l : list Q) (a : Q) :
  fold_left Qplus l a == a + fold_left Qplus l 0.
Proof.
  revert a. induction l as [| x l IH]; intros a; cbn [fold_left].
  - ring.
  - rewrite (IH (a + x)), (IH (0 + x)). ring.
Qed.

Lemma sum_cons (x : Q) (l : list Q) : Np.sum (x :: l) == x + Np.sum l.
Proof.
  unfold Np.sum. cbn [fold_left]. rewrite fold_Qplus_start. ring.
Qed.

Lemma sum_nonneg (l : list Q) : Forall (fun x => 0 <= x) l -> 0 <= Np.sum l.
Proof.
  induction 1 as [| x l Hx _ IH].
  - unfold Np.sum. cbn. lra.
  - rewrite sum_cons. lra.
Qed.

Lemma sum_pos (l : list Q) (x : Q) :
  Forall (fun y => 0 <= y) l -> In x l -> 0 < x -> 0 < Np.sum l.
Proof.
  intros Hall Hin Hx. induction Hall as [| y l Hy Hall IH];
    [contradiction |].
  rewrite sum_cons. pose proof (sum_nonneg l Hall).
  destruct Hin as [-> | Hin]; [lra |].
  specialize (IH Hin). lra.
Qed.

Lemma sum_zeros (f : nat -> Q) (lo len : nat) :
  (forall s, (lo <= s < lo + len)%nat -> f s == 0) ->
  Np.sum (map f (seq lo len)) == 0.
Proof.
  revert lo. induction len as [| len IH]; intros lo H; cbn [seq map].
  - reflexivity.
  - rewrite sum_cons, (H lo) by lia. rewrite IH; [ring |].
    intros s Hs. apply H. lia.
Qed.

(** A sum with one term that is not zero *)
Lemma sum_single (f : nat -> Q) (n a : nat) :
  (a < n)%nat ->
  (forall s, (s < n)%nat -> s <> a -> f s == 0) ->
  Np.sum (map f (seq 0 n)) == f a.
Proof.
  intros Ha H.
  assert (G : forall lo len, (lo <= a < lo + len)%nat ->
              (forall s, (lo <= s < lo + len)%nat -> s <> a -> f s == 0) ->
              Np.sum (map f (seq lo len)) == f a).
  { intros lo len. revert lo. induction len as [| len IH]; intros lo Hlo Hz;
      [lia |].
    cbn [seq map]. rewrite sum_cons.
    destruct (Nat.eq_dec lo a) as [-> | Hne].
    - rewrite sum_zeros; [ring |]. intros s Hs. apply Hz; lia.
    - rewrite (Hz lo) by lia. rewrite IH; [ring | lia |].
      intros s Hs. apply Hz. lia. }
  apply G; [lia |]. intros s Hs. apply H. lia.
Qed.

(** ** The first index of the largest entry *)

Lemma argmax_from_strict (l : list Q) (c : nat) :
  (c < length l)%nat ->
  (forall s, (s < length l)%nat -> s <> c -> nth s l 0 < nth c l 0) ->
  forall (rest : list Q) (i best : nat),
    rest = skipn i l -> (i <= length l)%nat -> (best < i)%nat ->
    ((c < i)%nat -> best = c) ->
    Np.argmax_from rest i best (nth best l 0) = c.
Proof.
  intros Hc Hmax rest. induction rest as [| x rest IH];
    intros i best Hrest Hi Hbest Hseen.
  - cbn [Np.argmax_from]. apply Hseen.
    assert (Hlen : length (skipn i l) = 0%nat) by (rewrite <- Hrest; reflexivity).
    rewrite length_skipn in Hlen. lia.
  - assert (Hlen : length (skipn i l) = S (length rest))
      by (rewrite <- Hrest; reflexivity).
    rewrite length_skipn in Hlen.
    assert (Hx : x = nth i l 0).
    { rewrite <- (firstn_skipn i l) at 1.
      rewrite app_nth2 by (rewrite length_firstn; lia).
      rewrite length_firstn, Nat.min_l, Nat.sub_diag by lia.
      rewrite <- Hrest. reflexivity. }
    assert (Hrest' : rest = skipn (S i) l).
    { replace (S i) with (1 + i)%nat by lia. rewrite <- skipn_skipn.
      rewrite <- Hrest. reflexivity. }
    cbn [Np.argmax_from].
    destruct (Qlt_le_dec (nth best l 0) x) as [Hlt | Hle].
    + rewrite Hx. apply IH; try assumption; try lia.
      intros Hci. destruct (Nat.eq_dec c i) as [E | E]; [auto |].
      exfalso. assert (best = c) by (apply Hseen; lia). subst best.
      rewrite Hx in Hlt. specialize (Hmax i ltac:(lia) ltac:(lia)). lra.
    + apply IH; try assumption; try lia.
      intros Hci. destruct (Nat.eq_dec c i) as [E | E].
      * exfalso. subst c.
        rewrite Hx in Hle. specialize (Hmax best ltac:(lia) ltac:(lia)). lra.
      * apply Hseen. lia.
Qed.

Lemma argmax_strict (l : list Q) (c : nat) :
  (c < length l)%nat ->
  (forall s, (s < length l)%nat -> s <> c -> nth s l 0 < nth c l 0) ->
  Np.argmax l = Ok c.
Proof.
  intros Hc Hmax. destruct l as [| x l]; [cbn in Hc; lia |].
  unfold Np.argmax. f_equal.
  change x with (nth 0 (x :: l) 0).
  apply (argmax_from_strict (x :: l) c Hc Hmax); cbn [length];
    try lia; try reflexivity.
Qed.

Lemma nth_map_seq {A : Type} (f : nat -> A) (n i : nat) (d : A) :
  (i < n)%nat -> nth i (map f (seq 0 n)) d = f i.
Proof.
  intros H. rewrite (nth_indep _ d (f 0%nat))
    by (rewrite length_map, length_seq; exact H).
  rewrite (map_nth f), seq_nth by exact H. reflexivity.
Qed.

(** ** A model whose transitions follow one successor function *)

Section Deterministic.

Variable m : Hmm.model.
Variables next prev : nat -> nat.

Local Abbreviation n := (Hmm.states m).

Hypothesis prev_in_range : forall s, (s < n)%nat -> (prev s < n)%nat.
Hypothesis next_of_prev : forall s, (s < n)%nat -> next (prev s) = s.
Hypothesis prev_of_next : forall s, (s < n)%nat -> prev (next s) = s.
Hypothesis trans_follows_next :
  forall s s', (s < n)%nat -> (s' < n)%nat ->
    Hmm.trans m s s' == if Nat.eqb s' (next s) then 1 else 0.

Lemma trans_from_prev (s' : nat) :
  (s' < n)%nat -> Hmm.trans m (prev s') s' == 1.
Proof.
  intros H. rewrite trans_follows_next by auto.
  rewrite next_of_prev by exact H. rewrite Nat.eqb_refl. reflexivity.
Qed.

Lemma trans_from_other (s s' : nat) :
  (s < n)%nat -> (s' < n)%nat -> s <> prev s' -> Hmm.trans m s s' == 0.
Proof.
  intros Hs Hs' Hne. rewrite trans_follows_next by auto.
  destruct (Nat.eqb_spec s' (next s)) as [E | _]; [| reflexivity].
  exfalso. apply Hne. rewrite E. symmetry. apply prev_of_next. exact Hs.
Qed.

(** The mass that a transition brings into a state is the mass of its one
    predecessor. *)
Lemma predicted (v : list Q) (s' : nat) :
  (s' < n)%nat ->
  Np.sum (map (fun s => nth s v 0 * Hmm.trans m s s') (seq 0 n))
  == nth (prev s') v 0.
Proof.
  intros Hs'.
  rewrite (sum_single _ n (prev s')).
  - rewrite trans_from_prev by exact Hs'. ring.
  - auto.
  - intros s Hs Hne. rewrite trans_from_other by auto. ring.
Qed.

Local Abbreviation dens row s := (nth s (Hmm.state_densities m row) 0).

Local Abbreviation unnormalised := (Hmm.unnormalised m).

Lemma forward_step_nth (v row : list Q) (s' : nat) :
  (s' < n)%nat ->
  nth s' (Hmm.forward_step m v row) 0
  == unnormalised v row s' / Np.sum (map (unnormalised v row) (seq 0 n)).
Proof.
  intros H. unfold Hmm.forward_step. cbv zeta.
  rewrite map_map, nth_map_seq by exact H.
  rewrite Qred_correct. reflexivity.
Qed.

Lemma forward_step_length (v row : list Q) :
  length (Hmm.forward_step m v row) = n.
Proof.
  unfold Hmm.forward_step. cbv zeta. rewrite !length_map, length_seq.
  reflexivity.
Qed.

Lemma unnormalised_value (v row : list Q) (s' : nat) :
  (s' < n)%nat ->
  unnormalised v row s' == nth (prev s') v 0 * dens row s'.
Proof.
  intros H. unfold Hmm.unnormalised. rewrite predicted by exact H. reflexivity.
Qed.

(** One beat that favours the successor of the peak moves the peak there:
    the products of the mass before the transition and the density are
    largest, and above zero, at the successor. *)
Lemma products_peak (v row : list Q) (c : nat) :
  Hmm.peaked m v c -> Hmm.favours m row (next c) ->
  0 < nth c v 0 * dens row (next c) /\
  forall s', (s' < n)%nat -> s' <> next c ->
    0 <= nth (prev s') v 0 * dens row s' /\
    nth (prev s') v 0 * dens row s' < nth c v 0 * dens row (next c).
Proof.
  intros (Hlen & Hc & Hpos & Hle) (Hp & Hdp & Hfav).
  split; [apply Qmult_lt_0_compat; assumption |].
  intros s' Hs' Hne.
  destruct (Hfav s' Hs' Hne) as [Hd0 Hd1].
  destruct (Hle (prev s') (prev_in_range s' Hs')) as [Hv0 Hv1].
  split; [apply Qmult_le_0_compat; assumption |].
  apply Qle_lt_trans with (nth c v 0 * dens row s').
  - apply Qmult_le_compat_r; assumption.
  - apply Qmult_lt_l; assumption.
Qed.

Lemma unnormalised_peak (v row : list Q) (c : nat) :
  Hmm.peaked m v c -> Hmm.favours m row (next c) ->
  0 < unnormalised v row (next c) /\
  forall s', (s' < n)%nat -> s' <> next c ->
    0 <= unnormalised v row s' /\
    unnormalised v row s' < unnormalised v row (next c).
Proof.
  intros Hpk Hfav.
  destruct (products_peak v row c Hpk Hfav) as [H0 H1].
  destruct Hpk as (_ & Hc & _). destruct Hfav as (Hp & _).
  assert (E : unnormalised v row (next c)
              == nth c v 0 * dens row (next c)).
  { rewrite (unnormalised_value v row (next c) Hp), prev_of_next by exact Hc.
    reflexivity. }
  split; [rewrite E; exact H0 |].
  intros s' Hs' Hne. rewrite (unnormalised_value v row s' Hs'), E.
  apply H1; assumption.
Qed.

Lemma forward_step_peak (v row : list Q) (c : nat) :
  Hmm.peaked m v c -> Hmm.favours m row (next c) ->
  Hmm.strictly_peaked m (Hmm.forward_step m v row) (next c).
Proof.
  intros Hpk Hfav.
  destruct (unnormalised_peak v row c Hpk Hfav) as [H0 H1].
  assert (Hp : (next c < n)%nat) by apply Hfav.
  set (z := Np.sum (map (unnormalised v row) (seq 0 n))).
  assert (Hz : 0 < z).
  { apply (sum_pos _ (unnormalised v row (next c))); [| | exact H0].
    - apply Forall_forall. intros x Hx. apply in_map_iff in Hx.
      destruct Hx as (s & <- & Hs). apply in_seq in Hs.
      destruct (Nat.eq_dec s (next c)) as [-> | Hne]; [lra |].
      apply H1; [lia | exact Hne].
    - apply in_map. apply in_seq. lia. }
  assert (Hiz : 0 < / z) by (apply Qinv_lt_0_compat; exact Hz).
  assert (Hstrict : forall s, (s < n)%nat -> s <> next c ->
            0 <= nth s (Hmm.forward_step m v row) 0 /\
            nth s (Hmm.forward_step m v row) 0
            < nth (next c) (Hmm.forward_step m v row) 0).
  { intros s Hs Hne. rewrite !forward_step_nth by assumption.
    fold z. unfold Qdiv. destruct (H1 s Hs Hne) as [Ha Hb]. split.
    - apply Qmult_le_0_compat; lra.
    - apply Qmult_lt_r; assumption. }
  assert (Hpos : 0 < nth (next c) (Hmm.forward_step m v row) 0).
  { rewrite forward_step_nth by exact Hp. fold z. unfold Qdiv.
    apply Qmult_lt_0_compat; assumption. }
  split; [| intros s Hs Hne; apply Hstrict; assumption].
  split; [apply forward_step_length |].
  split; [exact Hp |]. split; [exact Hpos |].
  intros s Hs. destruct (Nat.eq_dec s (next c)) as [-> | Hne].
  - split; lra.
  - destruct (Hstrict s Hs Hne). split; lra.
Qed.

(** *** Viterbi decoding *)

Lemma best_previous_keeps (v : list Q) (s' : nat) (candidates : list nat)
    (best : nat) (best_value : Q) :
  (forall s, In s candidates ->
             nth s v 0 * Hmm.trans m s s' <= best_value) ->
  Hmm.best_previous m v s' candidates best best_value = (best, best_value).
Proof.
  induction candidates as [| s rest IH]; intros H; cbn [Hmm.best_previous].
  - reflexivity.
  - destruct (Qlt_le_dec best_value (nth s v 0 * Hmm.trans m s s'))
      as [Hlt | _].
    + specialize (H s (or_introl eq_refl)). lra.
    + apply IH. intros s0 Hs0. apply H. right. exact Hs0.
Qed.

Lemma best_previous_takes (v : list Q) (s' a : nat) (before after : list nat)
    (best : nat) (best_value : Q) :
  (forall s, In s before -> nth s v 0 * Hmm.trans m s s' <= best_value) ->
  best_value < nth a v 0 * Hmm.trans m a s' ->
  (forall s, In s after ->
             nth s v 0 * Hmm.trans m s s' <= nth a v 0 * Hmm.trans m a s') ->
  Hmm.best_previous m v s' (before ++ a :: after) best best_value
  = (a, nth a v 0 * Hmm.trans m a s').
Proof.
  intros Hbefore Ha Hafter.
  induction before as [| s rest IH]; cbn [app Hmm.best_previous].
  - destruct (Qlt_le_dec best_value (nth a v 0 * Hmm.trans m a s'))
      as [_ | Hle]; [| lra].
    apply best_previous_keeps. exact Hafter.
  - destruct (Qlt_le_dec best_value (nth s v 0 * Hmm.trans m s s'))
      as [Hlt | _].
    + specialize (Hbefore s (or_introl eq_refl)). lra.
    + apply IH. intros s0 Hs0. apply Hbefore. right. exact Hs0.
Qed.

Lemma seq_split_at (n0 a : nat) :
  (a < n0)%nat -> seq 0 n0 = seq 0 a ++ a :: seq (S a) (n0 - S a).
Proof.
  intros H. replace n0 with (a + S (n0 - S a))%nat at 1 by lia.
  rewrite seq_app. reflexivity.
Qed.

(** The best previous state of a state is its predecessor, with the value
    of the predecessor. *)
Lemma best_previous_is_prev (v : list Q) (s' : nat) :
  (s' < n)%nat ->
  (forall s, (s < n)%nat -> 0 <= nth s v 0) ->
  snd (Hmm.best_previous m v s' (seq 0 n) 0%nat 0) == nth (prev s') v 0 /\
  (0 < nth (prev s') v 0 ->
   fst (Hmm.best_previous m v s' (seq 0 n) 0%nat 0) = prev s').
Proof.
  intros Hs' Hnonneg.
  assert (Ha : (prev s' < n)%nat) by auto.
  assert (Hother : forall s, (s < n)%nat -> s <> prev s' ->
                     nth s v 0 * Hmm.trans m s s' == 0).
  { intros s Hs Hne. rewrite trans_from_other by auto. ring. }
  assert (Hself : nth (prev s') v 0 * Hmm.trans m (prev s') s'
                  == nth (prev s') v 0).
  { rewrite trans_from_prev by exact Hs'. ring. }
  destruct (Qlt_le_dec 0 (nth (prev s') v 0)) as [Hpos | Hzero].
  - rewrite (seq_split_at n (prev s') Ha).
    rewrite best_previous_takes.
    + cbn [fst snd]. split; [exact Hself | reflexivity].
    + intros s Hs. apply in_seq in Hs. rewrite Hother by lia. lra.
    + rewrite Hself. exact Hpos.
    + intros s Hs. apply in_seq in Hs. rewrite Hother, Hself by lia. lra.
  - rewrite best_previous_keeps.
    + cbn [fst snd]. split; [| intros H; lra].
      specialize (Hnonneg (prev s') Ha). lra.
    + intros s Hs. apply in_seq in Hs.
      destruct (Nat.eq_dec s (prev s')) as [-> | Hne].
      * rewrite Hself. exact Hzero.
      * rewrite Hother by lia. lra.
Qed.

Lemma combine_seq_map {A : Type} (f : nat -> A) (l : list nat) :
  combine l (map f l) = map (fun s => (s, f s)) l.
Proof. induction l as [| a l IH]; cbn; [| rewrite IH]; reflexivity. Qed.

Lemma viterbi_step_nth (v row : list Q) (s' : nat) :
  (s' < n)%nat ->
  nth s' (fst (Hmm.viterbi_step m v row)) 0
  == snd (Hmm.best_previous m v s' (seq 0 n) 0%nat 0) * dens row s' /\
  nth s' (snd (Hmm.viterbi_step m v row)) 0%nat
  = fst (Hmm.best_previous m v s' (seq 0 n) 0%nat 0).
Proof.
  intros H. unfold Hmm.viterbi_step. cbv zeta. cbn [fst snd].
  rewrite combine_seq_map, !map_map, !nth_map_seq by exact H.
  cbn [fst snd]. rewrite Qred_correct. split; reflexivity.
Qed.

Lemma viterbi_step_length (v row : list Q) :
  length (fst (Hmm.viterbi_step m v row)) = n.
Proof.
  unfold Hmm.viterbi_step. cbv zeta. cbn [fst].
  rewrite length_map, length_combine, length_map, length_seq.
  apply Nat.min_id.
Qed.

Lemma viterbi_step_peak (v row : list Q) (c : nat) :
  Hmm.peaked m v c -> Hmm.favours m row (next c) ->
  Hmm.strictly_peaked m (fst (Hmm.viterbi_step m v row)) (next c) /\
  nth (next c) (snd (Hmm.viterbi_step m v row)) 0%nat = c.
Proof.
  intros Hpk Hfav.
  destruct (products_peak v row c Hpk Hfav) as [H0 H1].
  assert (Hp : (next c < n)%nat) by apply Hfav.
  destruct Hpk as (Hlen & Hc & Hpos & Hle).
  assert (Hnonneg : forall s, (s < n)%nat -> 0 <= nth s v 0)
    by (intros s Hs; apply Hle; exact Hs).
  assert (Hval : forall s', (s' < n)%nat ->
            nth s' (fst (Hmm.viterbi_step m v row)) 0
            == nth (prev s') v 0 * dens row s').
  { intros s' Hs'. rewrite (proj1 (viterbi_step_nth v row s' Hs')).
    rewrite (proj1 (best_previous_is_prev v s' Hs' Hnonneg)). reflexivity. }
  assert (Hvp : nth (next c) (fst (Hmm.viterbi_step m v row)) 0
                == nth c v 0 * dens row (next c)).
  { rewrite Hval, prev_of_next by assumption. reflexivity. }
  split.
  - assert (Hstrict : forall s, (s < n)%nat -> s <> next c ->
              0 <= nth s (fst (Hmm.viterbi_step m v row)) 0 /\
              nth s (fst (Hmm.viterbi_step m v row)) 0
              < nth (next c) (fst (Hmm.viterbi_step m v row)) 0).
    { intros s Hs Hne. rewrite Hvp, (Hval s Hs). apply H1; assumption. }
    split; [| intros s Hs Hne; apply Hstrict; assumption].
    split; [apply viterbi_step_length |].
    split; [exact Hp |]. split; [rewrite Hvp; exact H0 |].
    intros s Hs. destruct (Nat.eq_dec s (next c)) as [-> | Hne].
    + rewrite Hvp. split; lra.
    + destruct (Hstrict s Hs Hne). split; lra.
  - rewrite (proj2 (viterbi_step_nth v row (next c) Hp)).
    rewrite (proj2 (best_previous_is_prev v (next c) Hp Hnonneg));
      rewrite prev_of_next by exact Hc; [reflexivity | exact Hpos].
Qed.

Lemma last_cons {A : Type} (a d : A) (l : list A) :
  last (a :: l) d = last l a.
Proof.
  revert a d. induction l as [| b l IH]; intros a d; [reflexivity |].
  change (last (a :: b :: l) d) with (last (b :: l) d).
  rewrite (IH b d), (IH b a). reflexivity.
Qed.

Lemma viterbi_pass_path (rows : list (list Q)) :
  forall (path : list nat) (c : nat) (v : list Q) (acc : list (list nat)),
    Hmm.peaked m v c ->
    Hmm.favours_from m next c path rows ->
    (rows = [] \/
     Hmm.strictly_peaked m (fst (Hmm.viterbi_pass m v rows acc))
       (last path c)) /\
    Hmm.backtrack (last path c) (snd (Hmm.viterbi_pass m v rows acc))
    = (rev path ++ Hmm.backtrack c acc)%list.
Proof.
  induction rows as [| row rows IH]; intros path c v acc Hpk Hfav.
  - destruct path; [| contradiction]. cbn. auto.
  - destruct path as [| p path]; [contradiction |].
    destruct Hfav as (-> & Hrow & Hrest).
    destruct (viterbi_step_peak v row c Hpk Hrow) as [Hcur Hbt].
    cbn [Hmm.viterbi_pass].
    destruct (Hmm.viterbi_step m v row) as [cur bt] eqn:E.
    cbn [fst snd] in Hcur, Hbt.
    destruct (IH path (next c) cur (bt :: acc) (proj1 Hcur) Hrest)
      as [Hlast Hback].
    rewrite last_cons. split.
    + right. destruct Hlast as [-> | Hlast]; [| exact Hlast].
      destruct path; [| contradiction]. cbn. exact Hcur.
    + rewrite Hback. cbn [Hmm.backtrack rev]. rewrite Hbt, <- app_assoc.
      reflexivity.
Qed.

Lemma initial_peaked (c : nat) :
  (c < n)%nat -> Hmm.peaked m (Hmm.initial_distribution m) c.
Proof.
  intros Hc. unfold Hmm.peaked, Hmm.initial_distribution.
  assert (Hpos : 0 < 1 / inject_Z (Z.of_nat n)).
  { apply Qlt_shift_div_l; [| lra].
    replace 0 with (inject_Z 0) by reflexivity. rewrite <- Zlt_Qlt. lia. }
  split; [apply repeat_length |]. split; [exact Hc |].
  split; [rewrite nth_repeat_lt by exact Hc; exact Hpos |].
  intros s Hs. rewrite !nth_repeat_lt by assumption. split; lra.
Qed.

(** On an input that favours one path Viterbi decoding returns the path. *)
Lemma viterbi_favoured (rows : list (list Q)) (path : list nat) :
  Hmm.favours_path m next path rows ->
  Hmm.viterbi m rows = Ok path.
Proof.
  intros Hfav. destruct rows as [| row rows];
    destruct path as [| p path]; try contradiction; [reflexivity |].
  destruct Hfav as [Hrow Hrest].
  assert (Hp : (p < n)%nat) by apply Hrow.
  assert (Hfrom : Hmm.favours_from m next (prev p) (p :: path) (row :: rows)).
  { cbn [Hmm.favours_from]. rewrite next_of_prev by exact Hp. auto. }
  destruct (viterbi_pass_path (row :: rows) (p :: path) (prev p)
              (Hmm.initial_distribution m) []
              (initial_peaked (prev p) (prev_in_range p Hp)) Hfrom)
    as [Hlast Hback].
  destruct Hlast as [Hnil | Hlast]; [discriminate |].
  unfold Hmm.viterbi.
  destruct (Hmm.viterbi_pass m (Hmm.initial_distribution m) (row :: rows) [])
    as [final pointers] eqn:E.
  cbn [fst snd] in Hlast, Hback.
  destruct Hlast as [(Hlen & Hc & _) Hstrict].
  rewrite (argmax_strict final (last (p :: path) (prev p)))
    by (rewrite Hlen; assumption).
  cbn [bind]. rewrite Hback. cbn [Hmm.backtrack].
  rewrite app_nil_r, rev_involutive. reflexivity.
Qed.

(** *** Forward filtering, beat by beat *)

Lemma forward_one_row (v row : list Q) :
  Hmm.forward m v [row]
  = (Hmm.forward_step m v row, [Hmm.forward_step m v row]).
Proof. reflexivity. Qed.

End Deterministic.

(** ** The state space of the patterns *)

Lemma state_patterns_cons (a beats : nat) (rest : list nat) :
  concat (map (fun pb => repeat (fst pb) (snd pb))
            (combine (seq a (length (beats :: rest))) (beats :: rest)))
  = (repeat a beats
     ++ concat (map (fun pb => repeat (fst pb) (snd pb))
                  (combine (seq (S a) (length rest)) rest)))%list.
Proof. reflexivity. Qed.

(** The state of the position [k] of the pattern [p] *)
Lemma state_of_position (beats_per_bar : list nat) :
  forall (a p k : nat),
    (p < length beats_per_bar)%nat -> (k < nth p beats_per_bar 0)%nat ->
    let s := (list_sum (firstn p beats_per_bar) + k)%nat in
    (s < list_sum beats_per_bar)%nat /\
    nth s (concat (map (fun pb => repeat (fst pb) (snd pb))
                     (combine (seq a (length beats_per_bar)) beats_per_bar)))
      0%nat = (a + p)%nat /\
    nth s (Hmm.state_positions beats_per_bar) 0%nat = k.
Proof.
  induction beats_per_bar as [| beats rest IH]; intros a p k Hp Hk;
    [cbn in Hp; lia |].
  cbv zeta.
  rewrite state_patterns_cons. unfold Hmm.state_positions.
  cbn [map concat]. fold (Hmm.state_positions rest).
  destruct p as [| p].
  - cbn [firstn list_sum fold_right nth Nat.add] in *.
    rewrite (app_nth1 (repeat a beats)) by (rewrite repeat_length; lia).
    rewrite (app_nth1 (seq 0 beats)) by (rewrite length_seq; lia).
    rewrite nth_repeat_lt, seq_nth by lia. lia.
  - cbn [firstn nth length] in *.
    change (list_sum (beats :: firstn p rest))
      with (beats + list_sum (firstn p rest))%nat.
    change (list_sum (beats :: rest)) with (beats + list_sum rest)%nat.
    destruct (IH (S a) p k ltac:(lia) Hk) as (Hlt & Hpat & Hpos).
    cbv zeta in *.
    rewrite (app_nth2 (repeat a beats)) by (rewrite repeat_length; lia).
    rewrite (app_nth2 (seq 0 beats)) by (rewrite length_seq; lia).
    rewrite repeat_length, length_seq.
    replace (beats + list_sum (firstn p rest) + k - beats)%nat
      with (list_sum (firstn p rest) + k)%nat by lia.
    rewrite Hpat, Hpos. lia.
Qed.

(** Every state is the state of one position of one pattern. *)
Lemma position_of_state (beats_per_bar : list nat) (s : nat) :
  (s < list_sum beats_per_bar)%nat ->
  exists p k,
    (p < length beats_per_bar)%nat /\ (k < nth p beats_per_bar 0)%nat /\
    s = (list_sum (firstn p beats_per_bar) + k)%nat.
Proof.
  revert s. induction beats_per_bar as [| beats rest IH]; intros s Hs;
    [cbn in Hs; lia |].
  change (list_sum (beats :: rest)) with (beats + list_sum rest)%nat in Hs.
  destruct (Nat.lt_ge_cases s beats) as [Hlt | Hge].
  - exists 0%nat, s. cbn. repeat split; lia.
  - destruct (IH (s - beats)%nat ltac:(lia)) as (p & k & Hp & Hk & Hs').
    exists (S p), k. cbn [length nth firstn].
    change (list_sum (beats :: firstn p rest))
      with (beats + list_sum (firstn p rest))%nat.
    repeat split; lia.
Qed.

Lemma state_positions_length (beats_per_bar : list nat) :
  length (Hmm.state_positions beats_per_bar) = list_sum beats_per_bar.
Proof.
  unfold Hmm.state_positions.
  induction beats_per_bar as [| beats rest IH]; [reflexivity |].
  cbn [map concat]. rewrite length_app, length_seq, IH. reflexivity.
Qed.

Lemma state_patterns_length (beats_per_bar : list nat) :
  length (Hmm.state_patterns beats_per_bar) = list_sum beats_per_bar.
Proof.
  unfold Hmm.state_patterns. generalize 0%nat.
  induction beats_per_bar as [| beats rest IH]; intros a; [reflexivity |].
  rewrite state_patterns_cons, length_app, repeat_length, IH. reflexivity.
Qed.

Section StateSpace.

Variable beats_per_bar : list nat.

Local Abbreviation n := (Hmm.num_states beats_per_bar).

Lemma decode (s : nat) :
  (s < n)%nat ->
  exists p k,
    (p < length beats_per_bar)%nat /\ (k < nth p beats_per_bar 0)%nat /\
    s = (Hmm.first_state beats_per_bar p + k)%nat /\
    nth s (Hmm.state_patterns beats_per_bar) 0%nat = p /\
    nth s (Hmm.state_positions beats_per_bar) 0%nat = k.
Proof.
  intros Hs. destruct (position_of_state beats_per_bar s Hs)
    as (p & k & Hp & Hk & ->).
  destruct (state_of_position beats_per_bar 0 p k Hp Hk) as (_ & Hpat & Hpos).
  exists p, k. repeat split; auto.
Qed.

Lemma encode (p k : nat) :
  (p < length beats_per_bar)%nat -> (k < nth p beats_per_bar 0)%nat ->
  (Hmm.first_state beats_per_bar p + k < n)%nat /\
  nth (Hmm.first_state beats_per_bar p + k)
    (Hmm.state_patterns beats_per_bar) 0%nat = p /\
  nth (Hmm.first_state beats_per_bar p + k)
    (Hmm.state_positions beats_per_bar) 0%nat = k.
Proof.
  intros Hp Hk.
  destruct (state_of_position beats_per_bar 0 p k Hp Hk) as (Hlt & Hpat & Hpos).
  repeat split; auto.
Qed.

Lemma next_state_bound (s : nat) :
  (s < n)%nat -> (Hmm.next_state beats_per_bar s < n)%nat.
Proof.
  intros Hs. destruct (decode s Hs) as (p & k & Hp & Hk & _ & Hpat & Hpos).
  unfold Hmm.next_state. rewrite Hpat, Hpos.
  apply encode; [exact Hp |]. apply Nat.mod_upper_bound. lia.
Qed.

Lemma prev_state_bound (s : nat) :
  (s < n)%nat -> (Hmm.prev_state beats_per_bar s < n)%nat.
Proof.
  intros Hs. destruct (decode s Hs) as (p & k & Hp & Hk & _ & Hpat & Hpos).
  unfold Hmm.prev_state. rewrite Hpat, Hpos.
  apply encode; [exact Hp |]. apply Nat.mod_upper_bound. lia.
Qed.

Lemma succ_pred_mod (k beats : nat) :
  (k < beats)%nat ->
  (((k + beats - 1) mod beats + 1) mod beats = k)%nat /\
  (((k + 1) mod beats + beats - 1) mod beats = k)%nat.
Proof.
  intros Hk. split.
  - destruct (Nat.eq_dec k 0) as [-> | Hne].
    + replace (0 + beats - 1)%nat with (beats - 1)%nat by lia.
      rewrite (Nat.mod_small (beats - 1)) by lia.
      replace (beats - 1 + 1)%nat with beats by lia.
      apply Nat.Div0.mod_same.
    + replace (k + beats - 1)%nat with ((k - 1) + 1 * beats)%nat by lia.
      rewrite Nat.Div0.mod_add, (Nat.mod_small (k - 1)) by lia.
      replace (k - 1 + 1)%nat with k by lia. apply Nat.mod_small. exact Hk.
  - destruct (Nat.eq_dec (k + 1) beats) as [E | Hne].
    + rewrite E, Nat.Div0.mod_same.
      replace (0 + beats - 1)%nat with (beats - 1)%nat by lia.
      rewrite Nat.mod_small by lia. lia.
    + rewrite (Nat.mod_small (k + 1)) by lia.
      replace (k + 1 + beats - 1)%nat with (k + 1 * beats)%nat by lia.
      rewrite Nat.Div0.mod_add. apply Nat.mod_small. exact Hk.
Qed.

Lemma next_prev (s : nat) :
  (s < n)%nat ->
  Hmm.next_state beats_per_bar (Hmm.prev_state beats_per_bar s) = s.
Proof.
  intros Hs. destruct (decode s Hs) as (p & k & Hp & Hk & Hs' & Hpat & Hpos).
  unfold Hmm.prev_state. rewrite Hpat, Hpos.
  set (k' := ((k + nth p beats_per_bar 0 - 1) mod nth p beats_per_bar 0)%nat).
  assert (Hk' : (k' < nth p beats_per_bar 0)%nat)
    by (apply Nat.mod_upper_bound; lia).
  destruct (encode p k' Hp Hk') as (_ & Hpat' & Hpos').
  unfold Hmm.next_state. rewrite Hpat', Hpos'. unfold k'.
  rewrite (proj1 (succ_pred_mod k _ Hk)). symmetry. exact Hs'.
Qed.

Lemma prev_next (s : nat) :
  (s < n)%nat ->
  Hmm.prev_state beats_per_bar (Hmm.next_state beats_per_bar s) = s.
Proof.
  intros Hs. destruct (decode s Hs) as (p & k & Hp & Hk & Hs' & Hpat & Hpos).
  unfold Hmm.next_state. rewrite Hpat, Hpos.
  set (k' := ((k + 1) mod nth p beats_per_bar 0)%nat).
  assert (Hk' : (k' < nth p beats_per_bar 0)%nat)
    by (apply Nat.mod_upper_bound; lia).
  destruct (encode p k' Hp Hk') as (_ & Hpat' & Hpos').
  unfold Hmm.prev_state. rewrite Hpat', Hpos'. unfold k'.
  rewrite (proj2 (succ_pred_mod k _ Hk)). symmetry. exact Hs'.
Qed.

End StateSpace.

(** ** The transitions without a change of pattern *)

Lemma one_pattern (beats_per_bar : list nat) (s : nat) :
  length beats_per_bar = 1%nat ->
  nth s (Hmm.state_patterns beats_per_bar) 0%nat = 0%nat.
Proof.
  intros H. destruct beats_per_bar as [| beats [| b rest]];
    try discriminate.
  unfold Hmm.state_patterns. cbn [length seq combine map concat fst snd].
  rewrite app_nil_r. apply nth_repeat.
Qed.

Section Transitions.

Variable beats_per_bar : list nat.
Variable pattern_change_prob : Q.
Variable switch : nat -> nat -> Q.

Hypothesis no_change :
  pattern_change_prob == 0
  \/ (length beats_per_bar = 1%nat /\ ~ pattern_change_prob == 1).

Local Abbreviation n := (Hmm.num_states beats_per_bar).

Lemma weight_value (s s' : nat) :
  Hmm.weight beats_per_bar pattern_change_prob switch s s'
  == if Nat.eqb s' (Hmm.next_state beats_per_bar s)
     then 1 - pattern_change_prob else 0.
Proof.
  unfold Hmm.weight.
  assert (H : (if Nat.eqb (nth s' (Hmm.state_patterns beats_per_bar) 0%nat)
                    (nth s (Hmm.state_patterns beats_per_bar) 0%nat)
               then 0 else pattern_change_prob * switch s s') == 0).
  { destruct no_change as [E | [E _]].
    - destruct (Nat.eqb _ _); [reflexivity |]. rewrite E. ring.
    - rewrite !one_pattern by exact E. reflexivity. }
  rewrite H. ring.
Qed.

Lemma weight_sum (s : nat) :
  (s < n)%nat ->
  Np.sum (map (Hmm.weight beats_per_bar pattern_change_prob switch s)
            (seq 0 n))
  == 1 - pattern_change_prob.
Proof.
  intros Hs.
  rewrite (sum_single _ n (Hmm.next_state beats_per_bar s)).
  - rewrite weight_value, Nat.eqb_refl. reflexivity.
  - apply next_state_bound. exact Hs.
  - intros s' Hs' Hne. rewrite weight_value.
    destruct (Nat.eqb_spec s' (Hmm.next_state beats_per_bar s));
      [contradiction | reflexivity].
Qed.

Lemma stays_nonzero : ~ 1 - pattern_change_prob == 0.
Proof.
  destruct no_change as [E | [_ E]].
  - rewrite E. intros H. discriminate.
  - intros H. apply E. lra.
Qed.

Lemma transition_next (s s' : nat) :
  (s < n)%nat -> (s' < n)%nat ->
  Hmm.transition beats_per_bar pattern_change_prob switch s s'
  == if Nat.eqb s' (Hmm.next_state beats_per_bar s) then 1 else 0.
Proof.
  intros Hs Hs'. unfold Hmm.transition.
  rewrite weight_sum by exact Hs. rewrite weight_value.
  pose proof stays_nonzero.
  destruct (Nat.eqb s' (Hmm.next_state beats_per_bar s)); field; assumption.
Qed.

End Transitions.

(** ** Viterbi decoding returns a path of states for every table *)

Section ViterbiTotal.

Variable m : Hmm.model.
Hypothesis some_state : (0 < Hmm.states m)%nat.

Local Abbreviation n := (Hmm.states m).

Lemma best_previous_bound (v : list Q) (s' : nat) (candidates : list nat) :
  Forall (fun s => (s < n)%nat) candidates ->
  forall (best : nat) (best_value : Q),
    (best < n)%nat ->
    (fst (Hmm.best_previous m v s' candidates best best_value) < n)%nat.
Proof.
  induction 1 as [| s rest Hs _ IH]; intros best bv Hbest;
    cbn [Hmm.best_previous].
  - exact Hbest.
  - destruct (Qlt_le_dec bv (nth s v 0 * Hmm.trans m s s')); apply IH;
      assumption.
Qed.

Local Abbreviation pointers_ok := (Hmm.pointers_ok m).

Lemma viterbi_step_shape (v row : list Q) :
  length (fst (Hmm.viterbi_step m v row)) = n /\
  pointers_ok (snd (Hmm.viterbi_step m v row)).
Proof.
  split.
  - unfold Hmm.viterbi_step. cbv zeta. cbn [fst].
    rewrite length_map, length_combine, length_map, length_seq.
    apply Nat.min_id.
  - intros s. unfold Hmm.viterbi_step. cbv zeta. cbn [snd].
    rewrite map_map.
    destruct (Nat.lt_ge_cases s n) as [Hs | Hs].
    + rewrite nth_map_seq by exact Hs. apply best_previous_bound.
      * apply Forall_forall. intros x Hx. apply in_seq in Hx. lia.
      * exact some_state.
    + rewrite nth_overflow by (rewrite length_map, length_seq; exact Hs).
      exact some_state.
Qed.

Lemma viterbi_pass_shape (rows : list (list Q)) :
  forall (v : list Q) (acc : list (list nat)),
    length v = n -> Forall pointers_ok acc ->
    length (fst (Hmm.viterbi_pass m v rows acc)) = n /\
    length (snd (Hmm.viterbi_pass m v rows acc))
    = (length rows + length acc)%nat /\
    Forall pointers_ok (snd (Hmm.viterbi_pass m v rows acc)).
Proof.
  induction rows as [| row rows IH]; intros v acc Hv Hacc.
  - cbn. auto.
  - cbn [Hmm.viterbi_pass].
    destruct (viterbi_step_shape v row) as [Hlen Hbt].
    destruct (Hmm.viterbi_step m v row) as [cur bt]. cbn [fst snd] in *.
    destruct (IH cur (bt :: acc) Hlen (Forall_cons _ Hbt Hacc))
      as (H1 & H2 & H3).
    repeat split; auto. rewrite H2. cbn [length]. lia.
Qed.

Lemma argmax_from_bound (rest : list Q) :
  forall (i best : nat) (best_value : Q),
    (best < i)%nat ->
    (Np.argmax_from rest i best best_value < i + length rest)%nat.
Proof.
  induction rest as [| x rest IH]; intros i best bv Hbest;
    cbn [Np.argmax_from length].
  - lia.
  - destruct (Qlt_le_dec bv x).
    + specialize (IH (S i) i x ltac:(lia)). lia.
    + specialize (IH (S i) best bv ltac:(lia)). lia.
Qed.

Lemma argmax_bound (l : list Q) :
  l <> [] -> exists c, Np.argmax l = Ok c /\ (c < length l)%nat.
Proof.
  intros H. destruct l as [| x l]; [contradiction |].
  eexists. split; [reflexivity |].
  pose proof (argmax_from_bound l 1 0 x ltac:(lia)). cbn [length]. lia.
Qed.

Lemma backtrack_shape (pointers : list (list nat)) :
  forall state,
    (state < n)%nat -> Forall pointers_ok pointers ->
    length (Hmm.backtrack state pointers) = length pointers /\
    Forall (fun s => (s < n)%nat) (Hmm.backtrack state pointers).
Proof.
  induction pointers as [| bt rest IH]; intros state Hs Hall;
    cbn [Hmm.backtrack length].
  - auto.
  - inversion Hall as [| ? ? Hbt Hrest]; subst.
    destruct (IH (nth state bt 0%nat) (Hbt state) Hrest) as [H1 H2].
    split; [rewrite H1; reflexivity | constructor; assumption].
Qed.

Lemma viterbi_total (rows : list (list Q)) :
  exists path,
    Hmm.viterbi m rows = Ok path /\
    length path = length rows /\
    Forall (fun s => (s < n)%nat) path.
Proof.
  destruct rows as [| row rows].
  - exists []. cbn. auto.
  - unfold Hmm.viterbi.
    destruct (viterbi_pass_shape (row :: rows) (Hmm.initial_distribution m) [])
      as (H1 & H2 & H3).
    { apply repeat_length. }
    { constructor. }
    destruct (Hmm.viterbi_pass m (Hmm.initial_distribution m) (row :: rows) [])
      as [final pointers]. cbn [fst snd] in *.
    destruct (argmax_bound final) as (c & Hc & Hlt).
    { intros ->. cbn in H1. lia. }
    rewrite Hc. cbn [bind].
    destruct (backtrack_shape pointers c ltac:(lia) H3) as [B1 B2].
    eexists. split; [reflexivity |].
    split.
    + rewrite length_rev, B1, H2. cbn [length]. lia.
    + apply Forall_rev. exact B2.
Qed.

End ViterbiTotal.

(** ** The bar tracker *)

Lemma map_result_index {A : Type} (l : list A) (d : A) (idx : list nat) :
  Forall (fun i => (i < length l)%nat) idx ->
  map_result (index l) idx = Ok (map (fun i => nth i l d) idx).
Proof.
  induction 1 as [| i idx Hi _ IH]; cbn [map_result map].
  - reflexivity.
  - unfold index at 1. rewrite (nth_error_nth' l d Hi). cbn [bind].
    rewrite IH. reflexivity.
Qed.

Lemma last_row_last {A : Type} (l : list A) (d : A) :
  l <> [] -> BeatSync.last_row l = Ok (last l d).
Proof.
  intros H. destruct (exists_last H) as (l' & a & ->).
  unfold BeatSync.last_row. rewrite rev_app_distr, last_last. reflexivity.
Qed.

Section Tracker.

Variable beats_per_bar : list nat.
Variable pattern_change_prob : Q.
Variable switch : nat -> nat -> Q.
Variable observation_pointers : list nat.
Variable observation_densities : Np.ndarray -> result (list (list Q)).
Variables downbeats return_pattern bump_beat_number : bool.

Local Abbreviation d0 :=
  (DBNBarTracking.init beats_per_bar pattern_change_prob switch
     observation_pointers observation_densities
     downbeats return_pattern bump_beat_number).
Local Abbreviation m := (DBNBarTracking.hmm d0).
Local Abbreviation n := (Hmm.num_states beats_per_bar).
Local Abbreviation positions := (Hmm.state_positions beats_per_bar).
Local Abbreviation patterns := (Hmm.state_patterns beats_per_bar).

Local Abbreviation numbers_of_path := (DBNBarTracking.numbers_of_path beats_per_bar).

Lemma beat_numbers_of_path (d : DBNBarTracking.t) (path : list nat) :
  DBNBarTracking.beats_per_bar d = beats_per_bar ->
  path <> [] -> Forall (fun s => (s < n)%nat) path ->
  DBNBarTracking.beat_numbers d path = Ok (numbers_of_path path).
Proof.
  intros Hd Hne Hall. unfold DBNBarTracking.beat_numbers. rewrite Hd.
  rewrite (map_result_index positions 0%nat path)
    by (rewrite state_positions_length; exact Hall).
  cbn [bind]. rewrite map_map.
  rewrite (last_row_last _ 0%Z)
    by (intros E; apply map_eq_nil in E; contradiction).
  cbn [bind]. rewrite (last_row_last path 0%nat Hne). cbn [bind].
  assert (Hlast : (last path 0%nat < n)%nat).
  { rewrite Forall_forall in Hall. apply Hall.
    destruct (exists_last Hne) as (l' & a & ->). rewrite last_last.
    apply in_or_app. right. left. reflexivity. }
  destruct (decode beats_per_bar _ Hlast) as (p & k & Hp & Hk & _ & Hpat & Hpos).
  unfold index at 1.
  rewrite (nth_error_nth' patterns 0%nat)
    by (rewrite state_patterns_length; exact Hlast).
  cbn [bind]. rewrite Hpat.
  unfold index. rewrite (nth_error_nth' beats_per_bar 0%nat Hp). cbn [bind].
  unfold DBNBarTracking.numbers_of_path. cbv zeta. f_equal. f_equal.
  - rewrite Hpat.
    destruct (exists_last Hne) as (l' & a & E). rewrite E, map_app, !last_last.
    cbn [map]. rewrite last_last.
    unfold DBNBarTracking.np_mod.
    destruct (nth p beats_per_bar 0%nat) as [| b] eqn:Eb; [lia |]. reflexivity.
Qed.

Lemma decode_offline_total (activations : Np.ndarray)
    (rows : list (list Q)) :
  (0 < n)%nat ->
  observation_densities activations = Ok rows ->
  exists path,
    DBNBarTracking.decode_offline d0 activations = Ok path /\
    length path = length rows /\
    Forall (fun s => (s < n)%nat) path.
Proof.
  intros Hn Hrows. unfold DBNBarTracking.decode_offline.
  cbn [DBNBarTracking.init DBNBarTracking.om_densities DBNBarTracking.hmm].
  rewrite Hrows. cbn [bind].
  apply (viterbi_total
           (Hmm.mk_model n
              (Hmm.transition beats_per_bar pattern_change_prob switch)
              observation_pointers)).
  exact Hn.
Qed.

End Tracker.

Section Favoured.

Variable beats_per_bar : list nat.
Variable pattern_change_prob : Q.
Variable switch : nat -> nat -> Q.
Variable observation_pointers : list nat.
Variable observation_densities : Np.ndarray -> result (list (list Q)).

Hypothesis no_change :
  pattern_change_prob == 0
  \/ (length beats_per_bar = 1%nat /\ ~ pattern_change_prob == 1).

Local Abbreviation n := (Hmm.num_states beats_per_bar).
Local Abbreviation next := (Hmm.next_state beats_per_bar).
Local Abbreviation prev := (Hmm.prev_state beats_per_bar).
Local Abbreviation m0 :=
  (Hmm.mk_model (Hmm.num_states beats_per_bar)
     (Hmm.transition beats_per_bar pattern_change_prob switch)
     observation_pointers).

Lemma favoured_viterbi (rows : list (list Q)) (path : list nat) :
  Hmm.favours_path m0 next path rows -> Hmm.viterbi m0 rows = Ok path.
Proof.
  apply (viterbi_favoured m0 next prev).
  - apply prev_state_bound.
  - apply next_prev.
  - apply prev_next.
  - apply transition_next. exact no_change.
Qed.

Lemma favoured_forward_step (v row : list Q) (c : nat) :
  Hmm.peaked m0 v c -> Hmm.favours m0 row (next c) ->
  Hmm.strictly_peaked m0 (Hmm.forward_step m0 v row) (next c).
Proof.
  apply (forward_step_peak m0 next prev).
  - apply prev_state_bound.
  - apply next_prev.
  - apply prev_next.
  - apply transition_next. exact no_change.
Qed.

(** One call of the streaming tracker on a beat that favours the
    successor of the peak of its forward variables *)
Lemma online_step (d : DBNBarTracking.t) (c : nat) (row beat : list Q)
    (activation : Np.ndarray) :
  DBNBarTracking.beats_per_bar d = beats_per_bar ->
  DBNBarTracking.hmm d = m0 ->
  DBNBarTracking.om_densities d = observation_densities ->
  Hmm.peaked m0 (DBNBarTracking.fwd_prev d) c ->
  Np.any activation = true ->
  observation_densities activation = Ok [row] ->
  Hmm.favours m0 row (next c) ->
  DBNBarTracking.decide d activation
  = Ok (Hmm.forward_step m0 (DBNBarTracking.fwd_prev d) row, next c) /\
  exists out,
    DBNBarTracking.process_online d beat activation
    = Ok (DBNBarTracking.with_state d (DBNBarTracking.counter d + 1)
            (Hmm.forward_step m0 (DBNBarTracking.fwd_prev d) row),
          Some out).
Proof.
  intros Hb Hm Hom Hpk Hany Hrow Hfav.
  destruct (favoured_forward_step _ row c Hpk Hfav)
    as [(Hlen & Hc & _) Hstrict].
  assert (Hdec : DBNBarTracking.decide d activation
                 = Ok (Hmm.forward_step m0 (DBNBarTracking.fwd_prev d) row,
                       next c)).
  { unfold DBNBarTracking.decide. rewrite Hom, Hrow, Hm. cbn [bind].
    rewrite forward_one_row. cbn [concat]. rewrite app_nil_r.
    rewrite (argmax_strict _ (next c)) by (rewrite ?Hlen; assumption).
    reflexivity. }
  split; [exact Hdec |].
  unfold DBNBarTracking.process_online. rewrite Hany, Hdec. cbn [bind].
  rewrite Hb. cbn [Hmm.states] in Hc.
  destruct (decode beats_per_bar (next c) Hc)
    as (p & k & Hp & Hk & _ & Hpat & Hpos).
  unfold index at 1.
  rewrite (nth_error_nth' (Hmm.state_positions beats_per_bar) 0%nat)
    by (rewrite state_positions_length; exact Hc).
  cbn [bind]. unfold index at 1.
  rewrite (nth_error_nth' (Hmm.state_patterns beats_per_bar) 0%nat)
    by (rewrite state_patterns_length; exact Hc).
  cbn [bind]. rewrite Hpat.
  destruct (DBNBarTracking.bump_beat_number d).
  - unfold index. rewrite (nth_error_nth' beats_per_bar 0%nat Hp).
    cbn [bind]. eexists. reflexivity.
  - cbn [bind]. eexists. reflexivity.
Qed.

Lemma online_decisions (inputs : list (list Q * Np.ndarray))
    (rows : list (list Q)) :
  Forall2 (fun input row =>
             Np.any (snd input) = true
             /\ observation_densities (snd input) = Ok [row]) inputs rows ->
  forall (path : list nat) (c : nat) (d : DBNBarTracking.t),
    DBNBarTracking.beats_per_bar d = beats_per_bar ->
    DBNBarTracking.hmm d = m0 ->
    DBNBarTracking.om_densities d = observation_densities ->
    Hmm.peaked m0 (DBNBarTracking.fwd_prev d) c ->
    Hmm.favours_from m0 next c path rows ->
    DBNBarTracking.decisions d inputs = Ok (map Some path).
Proof.
  induction 1 as [| [beat activation] row inputs rows [Hany Hrow] _ IH];
    intros path c d Hb Hm Hom Hpk Hfav.
  - destruct path; [reflexivity | contradiction].
  - destruct path as [| p path]; [contradiction |].
    destruct Hfav as (-> & Hfav & Hrest). cbn [snd] in Hany, Hrow.
    destruct (online_step d c row beat activation Hb Hm Hom Hpk Hany Hrow Hfav)
      as (Hdec & out & Hstep).
    cbn [DBNBarTracking.decisions]. rewrite Hany, Hdec. cbn [bind].
    rewrite Hstep. cbn [bind].
    rewrite (IH path (next c)); [reflexivity | | | | | exact Hrest];
      try assumption.
    cbn [DBNBarTracking.with_state DBNBarTracking.fwd_prev].
    apply (favoured_forward_step _ row c Hpk Hfav).
Qed.

End Favoured.



(** ** The statements at concrete inputs *)

Lemma after_first_beat_wf : BeatSync.wf Examples.after_first_beat.
Proof.
  unfold BeatSync.wf. cbn. repeat split; try lia. intros df H. discriminate.
Qed.

Lemma running_wf : BeatSync.wf Examples.running.
Proof.
  unfold BeatSync.wf. cbn. repeat split; try lia.
  intros df H. injection H as <-. reflexivity.
Qed.


Lemma missing_streaming_subdivisions_witness :
  exists s2 outs feats rows,
    BeatSync.run Examples.running
      (Examples.quiet_frames ++ [(Some (31 # 20), 1)])
    = Ok (s2, outs ++ [(Some (31 # 20), Some feats)], rows) /\
    Forall (fun o : BeatSync.output => snd o = None) outs /\
    length feats = 4%nat /\
    (forall r, (r < 4)%nat -> ~ In r rows -> nth r feats [] = repeat 0 1) /\
    BeatSync.beat_features s2 = BeatSync.zeros 4 1 /\
    BeatSync.wf s2 /\
    BeatSync.beat_subdivisions s2 = 4%nat /\
    BeatSync.feat_dim s2 = 1%nat /\
    BeatSync.last_beat s2 = Some (31 # 20) /\
    exists df', BeatSync.div_frames s2 = Some df'.
Proof.
  apply (missing_streaming_subdivisions_are_zero Examples.running
           Examples.quiet_frames (31 # 20) 1 (3 # 2) [12; 13; 13; 12]%Z).
  - exact running_wf.
  - reflexivity.
  - reflexivity.
  - reflexivity.
  - repeat constructor.
  - reflexivity.
Defined.

Lemma truthiness_witness :
  match BeatSync.process_online Examples.running (Some 0) 1,
        BeatSync.process_online Examples.running None 1 with
  | Ok (s1, (_, feat1)), Ok (s2, (_, feat2)) =>
      s1 = s2 /\ feat1 = None /\ feat2 = None
  | Raise e1, Raise e2 => e1 = e2
  | _, _ => False
  end /\
  DBNBarTracking.process_online Examples.tracker [1]
    (Np.mk_array [1; 4; 1]%nat [0; 0; 0; 0])
  = Ok (DBNBarTracking.with_state Examples.tracker
          (DBNBarTracking.counter Examples.tracker + 1)
          (DBNBarTracking.fwd_prev Examples.tracker), None).
Proof.
  split.
  - apply (proj1 truthiness_decides_presence Examples.running 0 1).
    reflexivity.
  - apply (proj2 truthiness_decides_presence Examples.tracker [1]
             (Np.mk_array [1; 4; 1]%nat [0; 0; 0; 0])).
    repeat constructor.
Defined.

Lemma state_log_likelihood_witness :
  nth_error (GMMObservationModel.pointers nat Examples.toy_gmms
               [0; 0; 1]%nat [0; 1; 0]%nat) 2
  = Some (Z.of_nat (0 + GMMObservationModel.stacked_before nat
                           Examples.toy_gmms 1)) /\
  GMMObservationModel.state_log_likelihood nat Examples.toy_score
    Examples.toy_gmms [0; 0; 1]%nat [0; 1; 0]%nat
    Examples.toy_observations 0 2
  = Ok (Np.sum
          (map (fun ig =>
                  Examples.toy_score (snd ig)
                    (GMMObservationModel.feature_vector
                       Examples.toy_observations 2 1 0 (fst ig)))
             (combine (seq 0 (length [5; 6]%nat)) [5; 6]%nat))).
Proof.
  apply (state_log_likelihood_is_sum_of_scores nat Examples.toy_score
           Examples.toy_gmms [0; 0; 1]%nat [0; 1; 0]%nat
           Examples.toy_observations 1 2 1 2 1 0 0 [[5; 6]%nat] [5; 6]%nat).
  - reflexivity.
  - repeat constructor.
  - reflexivity.
  - reflexivity.
  - reflexivity.
  - reflexivity.
  - reflexivity.
  - lia.
Defined.

Lemma missing_bin_witness :
  exists out row,
    BeatSync.interpolate_missing 4 Examples.bins_134 1 = Ok out /\
    nth 1 out [] = [row] /\
    nth 0 row 0 == 2.
Proof.
  destruct (missing_bin_is_interpolated Examples.bins_134 1 1 0)
    as (out & row & w & Hrun & Hrow & _ & _ & _ & _ & _ & _ & _ & Hvalue).
  - cbn. lia.
  - lia.
  - reflexivity.
  - exists 0%nat. split; [cbn; lia | discriminate].
  - exists out, row. split; [exact Hrun |]. split; [exact Hrow |].
    apply Hvalue; try reflexivity; discriminate.
Defined.

Lemma empty_beat_witness :
  BeatSync.interpolate_missing 4 [[]; []; []; []] 1
  = Raise (ValueError "array of sample points is empty") /\
  exists out,
    BeatSync.process_offline 4 100 (BeatSync.Beats1 [2 # 100; 4 # 100])
      (BeatSync.Feats1 [1; 3; 4; 7; 7]) = Ok out /\
    Forall (fun c => (0 < c)%Z)
      (BeatSync.frame_counts 4 100
         (BeatSync.first_frame 100 (BeatSync.beat_times (BeatSync.out_beats out)))
         (BeatSync.beat_times (BeatSync.out_beats out))).
Proof.
  split.
  - apply (proj1 empty_beat_fails 4%nat 1%nat [[]; []; []; []]);
      try lia; try reflexivity.
    repeat constructor.
  - eexists. split; [lazy; reflexivity |].
    apply (proj2 empty_beat_fails 4%nat 100
             (BeatSync.Beats1 [2 # 100; 4 # 100])
             (BeatSync.Feats1 [1; 3; 4; 7; 7])).
    + cbn. lia.
    + lazy. reflexivity.
Defined.

Lemma all_beats_late_witness :
  BeatSync.process_offline 4 100 (BeatSync.Beats1 [1])
    (BeatSync.Feats1 (repeat 1 50)) = Raise IndexError.
Proof.
  apply (process_offline_all_beats_late_raises 4 100 [1]
           (BeatSync.Feats1 (repeat 1 50))).
  - intros H. discriminate H.
  - discriminate.
  - constructor; [reflexivity | constructor].
Defined.

Lemma rising_rows_favoured :
  Hmm.favours_path (DBNBarTracking.hmm Examples.tracker)
    (Hmm.next_state [4%nat]) [0; 1; 2; 3]%nat Examples.rising_rows.
Proof.
  cbn [Hmm.favours_path Hmm.favours_from Examples.rising_rows].
  repeat split; try reflexivity; try (cbn; lia).
  all: match goal with H : (?s < _)%nat |- _ => cbn in H; revert H end.
  all: match goal with H : ?s <> _ |- _ => revert H end.
  all: match goal with |- ?s <> _ -> _ =>
         do 4 (destruct s as [| s];
               [intros Hne Hs;
                first [exfalso; apply Hne; reflexivity
                      | cbn; discriminate
                      | cbn; reflexivity] |])
       end.
  all: intros; lia.
Qed.



(** ** Streams of frames through the synchroniser *)

Section Streams.

Import BeatSync.

Lemma process_online_first_beat (s : t) (b f : Q) :
  last_beat s = None -> any_beat (Some b) = true ->
  process_online s (Some b) f
  = Ok (mk (beat_subdivisions s) (feat_dim s) (fps s) (feat_sum s)
          (counter s) (current_div s) (div_frames s) (Some b)
          (beat_features s) (offset s), (None, None)).
Proof.
  intros Hl Hb. unfold process_online. rewrite Hl, Hb. reflexivity.
Qed.

Lemma any_beat_true (beat : option Q) :
  any_beat beat = true -> exists b, beat = Some b.
Proof.
  destruct beat as [b |]; [eauto | discriminate].
Qed.

(** One call from a well formed state returns, and the state stays well
    formed. *)
Lemma process_online_total (s : t) (beat : option Q) (f : Q) :
  wf s ->
  exists s' o,
    process_online s beat f = Ok (s', o) /\
    wf s' /\
    beat_subdivisions s' = beat_subdivisions s /\
    feat_dim s' = feat_dim s /\
    fps s' = fps s.
Proof.
  intros Hwf. destruct (any_beat beat) eqn:Hb.
  - destruct (any_beat_true beat Hb) as (b & ->).
    destruct (last_beat s) as [lb |] eqn:Hlb.
    + destruct (div_frames s) as [df |] eqn:Hdf.
      * destruct (process_online_beat s b lb df f Hwf Hlb Hdf Hb)
          as (s' & feats & Hstep & Hwf' & Hn & Hc & Hfps & _).
        eauto 10.
      * unfold process_online. rewrite Hb, Hlb, Hdf.
        do 2 eexists. split; [reflexivity |]. cbn.
        destruct Hwf as (Hn & Hl & Hc & _).
        repeat split; auto.
        intros df' E. injection E as <-. apply subdivision_lengths_length.
    + rewrite (process_online_first_beat s b f Hlb Hb).
      do 2 eexists. split; [reflexivity |]. cbn.
      destruct Hwf as (Hn & Hl & Hc & Hd). repeat split; auto.
  - destruct (process_online_no_beat s beat f Hwf Hb)
      as (s' & Hstep & Hwf' & Hn & Hc & Hfps & _).
    eauto 10.
Qed.

(** The same call, told by the number of beats the state knows of. *)
Lemma process_online_phase (s : t) (beat : option Q) (f : Q) :
  reachable s ->
  exists s' o,
    process_online s beat f = Ok (s', o) /\
    reachable s' /\
    beats_known s'
    = Nat.min 2 (beats_known s + (if any_beat beat then 1 else 0)) /\
    ((beats_known s < 2)%nat -> o = (None, None)) /\
    (beats_known s = 2%nat ->
     fst o = beat /\ (snd o = None <-> any_beat beat = false)).
Proof.
  intros [Hwf Hnone]. destruct (any_beat beat) eqn:Hb.
  - destruct (any_beat_true beat Hb) as (b & ->).
    destruct (last_beat s) as [lb |] eqn:Hlb.
    + destruct (div_frames s) as [df |] eqn:Hdf.
      * destruct (process_online_beat s b lb df f Hwf Hlb Hdf Hb)
          as (s' & feats & Hstep & Hwf' & _ & _ & _ & Hlb' & Hdf' & _).
        exists s', (Some b, Some feats). split; [exact Hstep |].
        split; [split; [exact Hwf' | congruence] |].
        unfold beats_known. rewrite Hlb, Hdf, Hlb', Hdf'. cbn.
        split; [reflexivity |]. split; [lia |].
        intros _. split; [reflexivity |]. split; discriminate.
      * destruct (process_online_second_beat s b lb f Hwf Hlb Hdf Hb)
          as (s' & Hstep & Hwf' & Hdf').
        exists s', (None, None). split; [exact Hstep |].
        assert (Hlb' : last_beat s' = Some b).
        { unfold process_online in Hstep. rewrite Hb, Hlb, Hdf in Hstep.
          injection Hstep as <-. reflexivity. }
        split; [split; [exact Hwf' | congruence] |].
        unfold beats_known. rewrite Hlb, Hdf, Hlb', Hdf'. cbn.
        split; [reflexivity |]. split; [reflexivity |]. discriminate.
    + rewrite (process_online_first_beat s b f Hlb Hb).
      do 2 eexists. split; [reflexivity |].
      specialize (Hnone eq_refl).
      split.
      { split.
        - destruct Hwf as (Hn & Hl & Hc & Hd). repeat split; auto.
        - cbn. discriminate. }
      unfold beats_known. cbn. rewrite Hlb, Hnone. cbn.
      split; [reflexivity |]. split; [reflexivity |]. discriminate.
  - destruct (process_online_no_beat s beat f Hwf Hb)
      as (s' & Hstep & Hwf' & _ & _ & _ & Hlb' & Hdf' & _).
    do 2 eexists. split; [exact Hstep |].
    split; [split; [exact Hwf' | rewrite Hlb', Hdf'; exact Hnone] |].
    unfold beats_known. rewrite Hlb', Hdf'.
    destruct (last_beat s) as [lb |]; [destruct (div_frames s) as [df |] |];
      cbn; (split; [reflexivity |]); split; intros H; try lia;
      try discriminate; try reflexivity.
    split; [reflexivity |]. split; intros _; reflexivity.
Qed.

Lemma init_reachable (n c : nat) (fps : Q) :
  (0 < n)%nat -> reachable (init n c fps).
Proof.
  intros H. split; [apply init_wf; exact H | reflexivity].
Qed.

Lemma beats_seen_cons (beat : option Q) (f : Q)
    (frames : list (option Q * Q)) :
  beats_seen ((beat, f) :: frames)
  = ((if any_beat beat then 1 else 0) + beats_seen frames)%nat.
Proof.
  unfold beats_seen. cbn [filter fst]. destruct (any_beat beat); reflexivity.
Qed.

Lemma run_total (frames : list (option Q * Q)) :
  forall s, wf s ->
    exists s' outs rows,
      run s frames = Ok (s', outs, rows) /\
      wf s' /\
      length outs = length frames /\
      beat_subdivisions s' = beat_subdivisions s /\
      feat_dim s' = feat_dim s /\
      fps s' = fps s.
Proof.
  induction frames as [| [beat f] rest IH]; intros s Hwf.
  - exists s, [], []. split; [reflexivity |]. split; [exact Hwf |]. repeat split.
  - destruct (process_online_total s beat f Hwf)
      as (s1 & o & Hstep & Hwf1 & Hn & Hc & Hfps).
    destruct (IH s1 Hwf1) as (s2 & outs & rows & Hrun & Hwf2 & Hlen & Hn2
                              & Hc2 & Hfps2).
    cbn [run]. rewrite Hstep. cbn [bind]. rewrite Hrun. cbn [bind].
    do 3 eexists. split; [reflexivity |].
    split; [exact Hwf2 |]. cbn [length].
    repeat split; congruence.
Qed.

Lemma run_phases (frames : list (option Q * Q)) :
  forall s, reachable s ->
    exists s' outs rows,
      run s frames = Ok (s', outs, rows) /\
      forall i beat f o,
        nth_error frames i = Some (beat, f) ->
        nth_error outs i = Some o ->
        ((beats_known s + beats_seen (firstn i frames) < 2)%nat ->
         o = (None, None)) /\
        ((2 <= beats_known s + beats_seen (firstn i frames))%nat ->
         fst o = beat /\ (snd o = None <-> any_beat beat = false)).
Proof.
  induction frames as [| [beat0 f0] rest IH]; intros s Hs.
  - exists s, [], []. split; [reflexivity |].
    intros [| i] beat f o H; discriminate.
  - destruct (process_online_phase s beat0 f0 Hs)
      as (s1 & o1 & Hstep & Hs1 & Hk & Hlow & Hhigh).
    destruct (IH s1 Hs1) as (s2 & outs & rows & Hrun & Hall).
    cbn [run]. rewrite Hstep. cbn [bind]. rewrite Hrun. cbn [bind].
    do 3 eexists. split; [reflexivity |].
    intros [| i] beat f o Hf Ho.
    + cbn in Hf, Ho. injection Hf as <- <-. injection Ho as <-.
      cbn [firstn]. unfold beats_seen at 1 2. cbn [filter length].
      rewrite Nat.add_0_r.
      assert (Hle : (beats_known s <= 2)%nat).
      { unfold beats_known. destruct (last_beat s); [| lia].
        destruct (div_frames s); lia. }
      split; [exact Hlow |]. intros H. apply Hhigh. lia.
    + cbn [nth_error] in Hf, Ho. cbn [firstn].
      rewrite beats_seen_cons.
      destruct (Hall i beat f o Hf Ho) as [Hl Hh].
      rewrite Hk in Hl, Hh.
      split; intros H; [apply Hl | apply Hh]; lia.
Qed.

End Streams.



(** X2: the synchroniser emits features exactly at the beats from the
    third one on.  Up to the second beat a call returns nothing, not even
    the time of the beat it was given; afterwards a call returns the beat
    it was given, with features if and only if it is a beat. *)
Theorem features_from_third_beat_on :
  forall (n c : nat) (fps : Q) (frames : list (option Q * Q)),
    (0 < n)%nat ->
    exists s outs rows,
      BeatSync.run (BeatSync.init n c fps) frames = Ok (s, outs, rows) /\
      forall i beat f o,
        nth_error frames i = Some (beat, f) ->
        nth_error outs i = Some o ->
        ((BeatSync.beats_seen (firstn i frames) < 2)%nat ->
         o = (None, None)) /\
        ((2 <= BeatSync.beats_seen (firstn i frames))%nat ->
         fst o = beat /\
         (snd o = None <-> BeatSync.any_beat beat = false)).
Proof.
  intros n c fps frames Hn.
  destruct (run_phases frames (BeatSync.init n c fps)
              (init_reachable n c fps Hn))
    as (s & outs & rows & Hrun & Hall).
  exists s, outs, rows. split; [exact Hrun |].
  intros i beat f o Hf Ho.
  exact (Hall i beat f o Hf Ho).
Qed.

Lemma features_from_third_beat_on_witness :
  exists s outs rows,
    BeatSync.run (BeatSync.init 4 1 100) Examples.three_beats
    = Ok (s, outs, rows) /\
    forall i beat f o,
      nth_error Examples.three_beats i = Some (beat, f) ->
      nth_error outs i = Some o ->
      ((BeatSync.beats_seen (firstn i Examples.three_beats) < 2)%nat ->
       o = (None, None)) /\
      ((2 <= BeatSync.beats_seen (firstn i Examples.three_beats))%nat ->
       fst o = beat /\ (snd o = None <-> BeatSync.any_beat beat = false)).
Proof.
  apply (features_from_third_beat_on 4 1 100 Examples.three_beats).
  lia.
Defined.

(** X3: with no subdivisions at all the tempo is an empty array of
    lengths, and the first call after the second beat raises an
    [IndexError] when it reads the length of subdivision 0. *)
Theorem streaming_without_subdivisions_raises :
  forall (c : nat) (fps b1 b2 f1 f2 f3 : Q) (beat : option Q),
    BeatSync.any_beat (Some b1) = true ->
    BeatSync.any_beat (Some b2) = true ->
    BeatSync.run (BeatSync.init 0 c fps)
      [(Some b1, f1); (Some b2, f2); (beat, f3)]
    = Raise IndexError.
Proof.
  intros c fps b1 b2 f1 f2 f3 beat H1 H2.
  cbn [BeatSync.run].
  unfold BeatSync.process_online at 1.
  cbn [BeatSync.init BeatSync.last_beat]. rewrite H1. cbn [bind].
  unfold BeatSync.process_online at 1.
  cbn [BeatSync.last_beat BeatSync.div_frames]. rewrite H2. cbn [bind].
  unfold BeatSync.process_online.
  cbn [BeatSync.last_beat BeatSync.div_frames].
  unfold BeatSync.end_of_division.
  cbn [BeatSync.div_frames BeatSync.current_div bind].
  reflexivity.
Qed.

Lemma streaming_without_subdivisions_witness :
  BeatSync.run (BeatSync.init 0 1 100) [(Some 1, 1); (Some 2, 1); (None, 1)]
  = Raise IndexError.
Proof.
  apply (streaming_without_subdivisions_raises 1 100 1 2 1 1 1 None);
    reflexivity.
Defined.

(** ** The lengths of the subdivisions tile the beat interval *)

Lemma sum_diff (l : list Z) :
  l <> [] ->
  fold_right Z.add 0%Z (Np.diff l)
  = (nth (length l - 1) l 0 - nth 0 l 0)%Z.
Proof.
  induction l as [| a [| b t] IH]; intros Hne.
  - contradiction.
  - cbn. lia.
  - change (Np.diff (a :: b :: t)) with ((b - a)%Z :: Np.diff (b :: t)).
    cbn [fold_right]. rewrite IH by discriminate.
    cbn [length nth Nat.sub]. rewrite Nat.sub_0_r.
    destruct t as [| c t]; cbn [length nth]; lia.
Qed.

Lemma subdivision_lengths_sum_round (interval fps : Q) (n : nat) :
  (0 < n)%nat ->
  fold_right Z.add 0%Z (BeatSync.subdivision_lengths interval fps n)
  = Np.round (interval * fps).
Proof.
  intros Hn. unfold BeatSync.subdivision_lengths.
  destruct n as [| d]; [lia |].
  replace (S d + 1)%nat with (S (S d)) by lia.
  rewrite sum_diff.
  2:{ intros E. apply (f_equal (@length Z)) in E.
      rewrite length_map, linspace_length in E. discriminate. }
  rewrite length_map, linspace_length. replace (S (S d) - 1)%nat with (S d) by lia.
  rewrite (nth_indep _ 0%Z (Np.round 0) (n := S d))
    by (rewrite length_map, linspace_length; lia).
  rewrite (nth_indep _ 0%Z (Np.round 0) (n := 0%nat))
    by (rewrite length_map, linspace_length; lia).
  rewrite !(map_nth Np.round).
  rewrite !linspace_nth by lia.
  assert (Hd : ~ inject_Z (Z.of_nat (S d)) == 0).
  { intros E. unfold Qeq in E. cbn in E. lia. }
  rewrite (round_compat _ (interval * fps)) by (field; exact Hd).
  rewrite (round_compat (0 + inject_Z (Z.of_nat 0) * _) (inject_Z 0)).
  2:{ change (inject_Z (Z.of_nat 0)) with 0. change (inject_Z 0) with 0.
      field. exact Hd. }
  rewrite round_inject_Z. lia.
Qed.

Lemma Qfloor_nonneg (h : Q) : 0 <= h -> (0 <= Qfloor h)%Z.
Proof.
  intros H. change 0%Z with (Qfloor 0). apply Qfloor_resp_le. exact H.
Qed.



(** ** The mean of a subdivision *)

Section Subdivision.

Import BeatSync.

(** A frame that does not end the subdivision is added to the sum. *)
Lemma process_online_within (s : t) (beat : option Q) (f lb : Q)
    (df : list Z) (len : Z) :
  last_beat s = Some lb -> div_frames s = Some df ->
  nth_error df (current_div s) = Some len ->
  any_beat beat = false ->
  (counter s + 1 < len)%Z ->
  process_online s beat f
  = Ok (mk (beat_subdivisions s) (feat_dim s) (fps s)
          (accum_add (feat_sum s) f) (counter s + 1) (current_div s)
          (div_frames s) (last_beat s) (beat_features s) (offset s),
        (beat, None))
  /\ stored_row s = None.
Proof.
  intros Hlb Hdf Hlen Hb Hc.
  unfold process_online, stored_row, end_of_division, index.
  rewrite Hb, Hlb, Hdf. cbn [bind]. rewrite !Hlen. cbn [bind].
  destruct (Z.leb_spec len (counter s + 1)) as [H | _]; [lia |].
  cbn [bind].
  split; [| reflexivity].
  destruct beat; reflexivity.
Qed.

(** The frame that ends the subdivision stores the mean, moves the
    pointer on and resets the sum and the counter. *)
Lemma process_online_closing (s : t) (beat : option Q) (f lb : Q)
    (df : list Z) (len : Z) :
  wf s ->
  last_beat s = Some lb -> div_frames s = Some df ->
  nth_error df (current_div s) = Some len ->
  any_beat beat = false ->
  (len <= counter s + 1)%Z ->
  process_online s beat f
  = Ok (mk (beat_subdivisions s) (feat_dim s) (fps s)
          (Scalar 0) 0
          ((current_div s + 1) mod beat_subdivisions s)%nat
          (div_frames s) (last_beat s)
          (set_row (beat_features s) (current_div s)
             (accum_mean (accum_add (feat_sum s) f) (counter s + 1)
                (feat_dim s)))
          (offset s),
        (beat, None))
  /\ stored_row s = Some (current_div s).
Proof.
  intros (Hn & Hl & Hcd & _) Hlb Hdf Hlen Hb Hc.
  unfold process_online, stored_row, end_of_division, index, assign_row,
    py_mod.
  rewrite Hb, Hlb, Hdf. cbn [bind]. rewrite !Hlen. cbn [bind].
  destruct (Z.leb_spec len (counter s + 1)) as [_ | H]; [| lia].
  rewrite Hl. destruct (Nat.ltb_spec (current_div s) (beat_subdivisions s));
    [| lia].
  cbn [bind].
  destruct (beat_subdivisions s) as [| n'] eqn:En; [lia |].
  cbn [bind].
  split; [| reflexivity].
  destruct beat; reflexivity.
Qed.

Lemma subdivision_run (frames : list (option Q * Q)) :
  forall (s : t) (lb : Q) (df : list Z) (len : Z),
    wf s ->
    last_beat s = Some lb -> div_frames s = Some df ->
    nth_error df (current_div s) = Some len ->
    frames <> [] ->
    Forall (fun x => any_beat (fst x) = false) frames ->
    (counter s + Z.of_nat (length frames) = Z.max len (counter s + 1))%Z ->
    run s frames
    = Ok (mk (beat_subdivisions s) (feat_dim s) (fps s)
            (Scalar 0) 0
            ((current_div s + 1) mod beat_subdivisions s)%nat
            (Some df) (Some lb)
            (set_row (beat_features s) (current_div s)
               (accum_mean (fold_left accum_add (map snd frames) (feat_sum s))
                  (counter s + Z.of_nat (length frames)) (feat_dim s)))
            (offset s),
          map (fun x => (fst x, None)) frames,
          [current_div s]).
Proof.
  induction frames as [| [beat f] rest IH];
    intros s lb df len Hwf Hlb Hdf Hlen Hne Hall Hcount; [contradiction |].
  inversion Hall as [| x l Hb Hrest]; subst. cbn [fst] in Hb.
  destruct rest as [| y rest].
  - cbn [length] in Hcount.
    destruct (process_online_closing s beat f lb df len Hwf Hlb Hdf Hlen Hb)
      as [Hstep Hrow]; [lia |].
    cbn [run]. rewrite Hstep, Hrow. cbn [bind map fold_left fst snd length].
    rewrite Hdf, Hlb. reflexivity.
  - cbn [length] in Hcount.
    destruct (process_online_within s beat f lb df len Hlb Hdf Hlen Hb)
      as [Hstep Hrow]; [lia |].
    change (run s ((beat, f) :: y :: rest))
      with ('(s1, o) <- process_online s beat f ;;
            '(s2, os, rows) <- run s1 (y :: rest) ;;
            Ok (s2, o :: os,
                match stored_row s with
                | Some r => r :: rows
                | None => rows
                end)).
    rewrite Hstep, Hrow. cbn [bind].
    rewrite (IH _ lb df len); cbn [beat_subdivisions feat_dim fps feat_sum
      counter current_div div_frames last_beat beat_features offset];
      try assumption; try discriminate.
    + assert (E : (counter s + 1 + Z.of_nat (length (y :: rest))
                   = counter s + Z.of_nat (length ((beat, f) :: y :: rest)))%Z)
        by (cbn [length]; lia).
      rewrite E. reflexivity.
    + cbn [length]. lia.
Qed.

End Subdivision.

(** X5: between two beats a subdivision of length [len] is closed by the
    frame that brings the frame counter to [len], or by its first frame
    when the counter is there already: that call stores in the row of the
    subdivision the sum carried into the subdivision plus the features of
    its frames, divided by the frame counter; it moves the pointer to the
    next subdivision, cyclically, and starts the sum and the counter
    again.  No call of the subdivision emits features, and no other row
    is written. *)
Theorem subdivision_mean_is_stored :
  forall (s : BeatSync.t) (frames : list (option Q * Q)) (lb : Q)
         (df : list Z) (len : Z),
    BeatSync.wf s ->
    BeatSync.last_beat s = Some lb ->
    BeatSync.div_frames s = Some df ->
    nth_error df (BeatSync.current_div s) = Some len ->
    frames <> [] ->
    Forall (fun x => BeatSync.any_beat (fst x) = false) frames ->
    (BeatSync.counter s + Z.of_nat (length frames)
     = Z.max len (BeatSync.counter s + 1))%Z ->
    exists s',
      BeatSync.run s frames
      = Ok (s', map (fun x => (fst x, None)) frames,
            [BeatSync.current_div s]) /\
      BeatSync.beat_features s'
      = BeatSync.set_row (BeatSync.beat_features s) (BeatSync.current_div s)
          (BeatSync.accum_mean
             (fold_left BeatSync.accum_add (map snd frames)
                (BeatSync.feat_sum s))
             (BeatSync.counter s + Z.of_nat (length frames))
             (BeatSync.feat_dim s)) /\
      BeatSync.current_div s'
      = ((BeatSync.current_div s + 1) mod BeatSync.beat_subdivisions s)%nat /\
      BeatSync.counter s' = 0%Z /\
      BeatSync.feat_sum s' = BeatSync.Scalar 0 /\
      BeatSync.div_frames s' = Some df /\
      BeatSync.last_beat s' = Some lb.
Proof.
  intros s frames lb df len Hwf Hlb Hdf Hlen Hne Hall Hcount.
  eexists. split.
  - apply (subdivision_run frames s lb df len); assumption.
  - cbn. repeat split.
Qed.

Lemma subdivision_mean_witness :
  exists s',
    BeatSync.run Examples.running (repeat (None, 1) 12)
    = Ok (s', repeat (None, None) 12, [0%nat]) /\
    nth 0 (nth 0 (BeatSync.beat_features s') []) 0 == 1 /\
    BeatSync.current_div s' = 1%nat /\
    BeatSync.counter s' = 0%Z.
Proof.
  destruct (subdivision_mean_is_stored Examples.running (repeat (None, 1) 12)
              (3 # 2) [12; 13; 13; 12]%Z 12)
    as (s' & Hrun & Hfeat & Hdiv & Hcount & _).
  - exact running_wf.
  - reflexivity.
  - reflexivity.
  - reflexivity.
  - discriminate.
  - repeat constructor.
  - reflexivity.
  - exists s'. split; [exact Hrun |].
    split; [rewrite Hfeat; reflexivity |].
    split; [exact Hdiv | exact Hcount].
Defined.

(** ** The shape of the result of batch synchronisation *)

Lemma map_result_length {A B : Type} (f : A -> result B) (l : list A)
    (r : list B) :
  map_result f l = Ok r -> length r = length l.
Proof.
  revert r. induction l as [| a l IH]; intros r H; cbn [map_result] in H.
  - injection H as <-. reflexivity.
  - destruct (f a) as [b | e]; cbn [bind] in H; [| discriminate].
    destruct (map_result f l) as [bs | e]; cbn [bind] in H; [| discriminate].
    injection H as <-. cbn [length]. rewrite (IH bs); reflexivity.
Qed.

Lemma map_result_nth {A B : Type} (f : A -> result B) (l : list A)
    (r : list B) (i : nat) (a : A) (b : B) :
  map_result f l = Ok r -> nth_error l i = Some a -> nth_error r i = Some b ->
  f a = Ok b.
Proof.
  revert r i. induction l as [| a0 l IH]; intros r i H Ha Hb.
  - destruct i; discriminate.
  - cbn [map_result] in H.
    destruct (f a0) as [b0 | e] eqn:E0; cbn [bind] in H; [| discriminate].
    destruct (map_result f l) as [bs | e] eqn:E; cbn [bind] in H;
      [| discriminate].
    injection H as <-. destruct i as [| i]; cbn in Ha, Hb.
    + congruence.
    + apply (IH bs i); auto.
Qed.

Section Bins.

Import BeatSync.

Lemma all_empty_or_supported (bins : list (list (list Q))) :
  Forall (fun x => x = []) bins
  \/ exists g, (g < length bins)%nat /\ nth g bins [] <> [].
Proof.
  induction bins as [| x bins IH].
  - left. constructor.
  - destruct x as [| row x].
    + destruct IH as [IH | (g & Hg & Hs)].
      * left. constructor; [reflexivity | exact IH].
      * right. exists (S g). cbn. split; [lia | exact Hs].
    + right. exists 0%nat. cbn. split; [lia | discriminate].
Qed.

Lemma all_supported_or_missing (bins : list (list (list Q))) :
  Forall (fun x => x <> []) bins
  \/ exists r, (r < length bins)%nat /\ nth r bins [] = [].
Proof.
  induction bins as [| x bins IH].
  - left. constructor.
  - destruct x as [| row x].
    + right. exists 0%nat. cbn. split; [lia | reflexivity].
    + destruct IH as [IH | (g & Hg & Hs)].
      * left. constructor; [discriminate | exact IH].
      * right. exists (S g). cbn. split; [lia | exact Hs].
Qed.

Lemma filter_all {A : Type} (p : A -> bool) (l : list A) :
  Forall (fun a => p a = true) l -> filter p l = l.
Proof.
  induction 1 as [| a l Ha _ IH]; cbn [filter]; [reflexivity |].
  rewrite Ha, IH. reflexivity.
Qed.

(** Bins that all hold a frame are returned as they are. *)
Lemma interpolate_missing_all_supported (bins : list (list (list Q)))
    (feat_dim : nat) :
  (0 < feat_dim)%nat ->
  Forall (fun x => x <> []) bins ->
  interpolate_missing (length bins) bins feat_dim = Ok bins.
Proof.
  intros Hd Hall. unfold interpolate_missing.
  assert (Hgood : rows_where (is_good feat_dim)
                    (map (nan_or_mean feat_dim) bins)
                  = seq 0 (length bins)).
  { unfold rows_where. rewrite length_map. apply filter_all.
    apply Forall_forall. intros g Hg. apply in_seq in Hg.
    assert (Hlt : (g < length bins)%nat) by lia.
    pose proof (good_at_supported feat_dim bins g Hd Hlt) as H.
    unfold good_at in H. apply H.
    rewrite Forall_forall in Hall. apply Hall. apply nth_In. exact Hlt. }
  rewrite Hgood, length_seq, Nat.ltb_irrefl. reflexivity.
Qed.

(** Whenever [interpolate_missing] returns, every bin holds a frame. *)
Lemma interpolate_missing_result (bins out : list (list (list Q)))
    (feat_dim : nat) :
  (0 < feat_dim)%nat ->
  interpolate_missing (length bins) bins feat_dim = Ok out ->
  length out = length bins /\ Forall (fun x => x <> []) out.
Proof.
  intros Hd H.
  destruct (all_supported_or_missing bins) as [Hall | Hmiss].
  - rewrite (interpolate_missing_all_supported bins feat_dim Hd Hall) in H.
    injection H as <-. split; [reflexivity | exact Hall].
  - destruct (all_empty_or_supported bins) as [Hempty | Hsupp].
    + destruct Hmiss as (r & Hr & _).
      rewrite interpolate_missing_no_support in H;
        [discriminate | lia | exact Hd | exact Hempty].
    + destruct (interpolate_missing_rows bins feat_dim Hd Hmiss Hsupp)
        as (out' & Hrun & Hlen & Hrows).
      rewrite Hrun in H. injection H as <-.
      split; [exact Hlen |].
      apply Forall_forall. intros x Hx.
      destruct (In_nth _ _ [] Hx) as (r & Hr & <-).
      rewrite Hlen in Hr. destruct (Hrows r Hr) as [Hm Hs].
      destruct (nth r bins []) as [| row rest] eqn:E.
      * destruct (Hm eq_refl) as (row & -> & _). discriminate.
      * rewrite Hs by discriminate. discriminate.
Qed.

Lemma mean_axis0_frames (feat_dim : nat) (x : list (list Q)) :
  x <> [] -> exists v, mean_axis0 feat_dim x = Some v /\ length v = feat_dim.
Proof.
  intros H. destruct x as [| a x]; [contradiction |].
  unfold mean_axis0. eexists. split; [reflexivity |].
  rewrite length_map, length_seq. reflexivity.
Qed.

End Bins.

Section Shape.

Import BeatSync.

Lemma sync_beat_shape (n : nat) (fps : Q) (features : list (list Q))
    (feat_dim : nat) (start : Z) (b_this b_next : Q)
    (row : list (option (list Q))) (next : Z) :
  (0 < feat_dim)%nat ->
  sync_beat n fps features feat_dim start b_this b_next = Ok (row, next) ->
  full_row n feat_dim row.
Proof.
  intros Hd. unfold sync_beat.
  destruct (next_beat_frame n fps b_this b_next) as [nf | e]; cbn [bind];
    [| discriminate].
  destruct (Z.ltb_spec (nf - start) 0) as [_ | _]; [discriminate |].
  destruct (map_result _ _) as [bins | e] eqn:Ebins; cbn [bind];
    [| discriminate].
  apply map_result_length in Ebins. rewrite length_seq in Ebins.
  rewrite <- Ebins.
  destruct (interpolate_missing (length bins) bins feat_dim) as [out | e] eqn:E;
    cbn [bind]; [| discriminate].
  intros H. injection H as <- _.
  destruct (interpolate_missing_result bins out feat_dim Hd E) as [Hlen Hall].
  split; [rewrite length_map; exact Hlen |].
  apply Forall_map. eapply Forall_impl; [| exact Hall].
  intros x Hx. apply mean_axis0_frames. exact Hx.
Qed.

Lemma sync_beats_shape (n : nat) (fps : Q) (features : list (list Q))
    (feat_dim : nat) (times : list Q) :
  (0 < feat_dim)%nat ->
  forall (start : Z) (rows : list (list (option (list Q)))),
    sync_beats n fps features feat_dim start times = Ok rows ->
    length rows = (length times - 1)%nat /\
    Forall (full_row n feat_dim) rows.
Proof.
  intros Hd. induction times as [| b_this [| b_next rest] IH];
    intros start rows H.
  - injection H as <-. split; [reflexivity | constructor].
  - injection H as <-. split; [reflexivity | constructor].
  - rewrite sync_beats_step in H.
    destruct (sync_beat n fps features feat_dim start b_this b_next)
      as [[row next] | e] eqn:Es; cbn [bind] in H; [| discriminate].
    destruct (sync_beats n fps features feat_dim next (b_next :: rest))
      as [rows' | e] eqn:Er; cbn [bind] in H; [| discriminate].
    injection H as <-.
    destruct (IH next rows' Er) as [Hlen Hall].
    split.
    + cbn [length] in Hlen |- *. lia.
    + constructor; [| exact Hall].
      eapply sync_beat_shape; [exact Hd | exact Es].
Qed.

End Shape.



(** ** The beats that batch synchronisation keeps *)

Section KeptBeats.

Import BeatSync.

Lemma drop_trailing_spec (len : nat) (fps : Q) (rev_rows : list (list Q)) :
  forall (warnings : list string) (kept : list (list Q)) (w : list string),
    drop_trailing len fps rev_rows warnings = Ok (kept, w) ->
    exists dropped front r t,
      List.rev rev_rows = kept ++ dropped /\
      w = (warnings ++ repeat warning_too_long (length dropped))%list /\
      Forall (fun r => exists t, nth_error r 0 = Some t
                                 /\ inject_Z (Z.of_nat len) / fps < t)
        dropped /\
      kept = front ++ [r] /\
      nth_error r 0 = Some t /\
      t <= inject_Z (Z.of_nat len) / fps.
Proof.
  induction rev_rows as [| r rest IH]; intros warnings kept w H;
    cbn [drop_trailing] in H;
    destruct (Qeq_bool fps 0); try discriminate.
  unfold index in H at 1.
  destruct (nth_error r 0) as [t |] eqn:Et; cbn [bind] in H; [| discriminate].
  destruct (Qlt_le_dec (inject_Z (Z.of_nat len) / fps) t) as [Hlt | Hle].
  - destruct (IH _ _ _ H)
      as (dropped & front & r' & t' & Hrev & Hw & Hall & Hk & Hr' & Ht').
    exists (dropped ++ [r]), front, r', t'.
    split; [cbn [rev]; rewrite Hrev, app_assoc; reflexivity |].
    split.
    { rewrite Hw, <- app_assoc, length_app. cbn [length app].
      rewrite Nat.add_comm. cbn [Nat.add repeat]. reflexivity. }
    split.
    { apply Forall_app. split; [exact Hall |].
      constructor; [| constructor]. exists t. split; [exact Et | exact Hlt]. }
    split; [exact Hk |]. split; [exact Hr' | exact Ht'].
  - injection H as <- <-.
    exists [], (List.rev rest), r, t.
    split; [rewrite app_nil_r; reflexivity |].
    split; [cbn [length repeat]; rewrite app_nil_r; reflexivity |].
    split; [constructor |].
    split; [reflexivity |]. split; [exact Et | exact Hle].
Qed.

End KeptBeats.

(** X7: when [process_offline] is given beats and returns, the beats it
    returns are the beats it was given without those at the end that it
    dropped; the time of every dropped beat is beyond the end of the
    features and the time of the last beat kept is not; there is one
    warning for every dropped beat, followed by the warning about the
    loading of the features when these are a vector. *)
Theorem process_offline_drops_late_beats :
  forall (n : nat) (fps : Q) (beats : BeatSync.beats_array)
         (features : BeatSync.features_array) (out : BeatSync.offline_output),
    BeatSync.beats_size beats <> 0%nat ->
    BeatSync.process_offline n fps beats features = Ok out ->
    let duration :=
      inject_Z (Z.of_nat (BeatSync.features_len features)) / fps in
    exists dropped front r t,
      BeatSync.beats_rows beats = BeatSync.out_beats out ++ dropped /\
      BeatSync.out_warnings out
      = (repeat BeatSync.warning_too_long (length dropped)
         ++ match features with
            | BeatSync.Feats1 _ => [BeatSync.warning_feature_loading]
            | BeatSync.Feats2 _ _ => []
            end)%list /\
      Forall (fun r => exists t, nth_error r 0 = Some t /\ duration < t)
        dropped /\
      BeatSync.out_beats out = front ++ [r] /\
      nth_error r 0 = Some t /\
      t <= duration.
Proof.
  intros n fps beats features out Hsize H duration.
  unfold BeatSync.process_offline in H.
  destruct (Nat.eqb_spec (BeatSync.beats_size beats) 0) as [E | _];
    [contradiction |].
  destruct (BeatSync.drop_trailing _ _ _ _) as [[rows w1] | e] eqn:Ed;
    cbn [bind] in H; [| discriminate].
  destruct (drop_trailing_spec _ _ _ _ _ _ Ed)
    as (dropped & front & r & t & Hrev & Hw & Hall & Hk & Hr & Ht).
  rewrite rev_involutive in Hrev. cbn [app] in Hw.
  exists dropped, front, r, t.
  destruct (map_result (fun r => index r 0) rows) as [times | e];
    [| destruct features; discriminate].
  destruct features as [xs | c frames]; cbn [bind] in H;
    unfold index in H at 1;
    (destruct (nth_error times 0) as [b0 |]; cbn [bind] in H;
     [| discriminate]);
    (destruct (BeatSync.sync_beats _ _ _ _ _ _) as [feats | e];
     cbn [bind] in H; [| discriminate]);
    injection H as <-;
    cbn [BeatSync.out_beats BeatSync.out_warnings];
    rewrite Hw; try rewrite app_nil_r; auto 10.
Qed.

Lemma process_offline_drops_late_beats_witness :
  exists out dropped,
    BeatSync.process_offline 4 100
      (BeatSync.Beats1 [2 # 100; 4 # 100; 1; 2])
      (BeatSync.Feats1 [1; 3; 4; 7; 7]) = Ok out /\
    BeatSync.beats_rows (BeatSync.Beats1 [2 # 100; 4 # 100; 1; 2])
    = BeatSync.out_beats out ++ dropped /\
    BeatSync.out_warnings out
    = (repeat BeatSync.warning_too_long (length dropped)
       ++ [BeatSync.warning_feature_loading])%list.
Proof.
  destruct (BeatSync.process_offline 4 100
              (BeatSync.Beats1 [2 # 100; 4 # 100; 1; 2])
              (BeatSync.Feats1 [1; 3; 4; 7; 7])) as [out | e] eqn:E.
  - destruct (process_offline_drops_late_beats 4 100
                (BeatSync.Beats1 [2 # 100; 4 # 100; 1; 2])
                (BeatSync.Feats1 [1; 3; 4; 7; 7]) out)
      as (dropped & _ & _ & _ & Hrows & Hw & _).
    + cbn. discriminate.
    + exact E.
    + exists out, dropped. split; [reflexivity |].
      split; [exact Hrows | exact Hw].
  - lazy in E. discriminate.
Defined.

(** ** The bins of the frames of a beat *)

Lemma floor_unique (y : Q) (z : Z) :
  inject_Z z <= y -> y < inject_Z z + 1 -> Qfloor y = z.
Proof.
  intros Hlo Hhi.
  pose proof (Qfloor_le y) as Fl.
  pose proof (Qlt_floor y) as Fh.
  rewrite inject_Z_plus in Fh. change (inject_Z 1) with 1 in Fh.
  assert (H1 : (z < Qfloor y + 1)%Z).
  { rewrite Zlt_Qlt, inject_Z_plus. change (inject_Z 1) with 1. lra. }
  assert (H2 : (Qfloor y < z + 1)%Z).
  { rewrite Zlt_Qlt, inject_Z_plus. change (inject_Z 1) with 1. lra. }
  lia.
Qed.

Lemma inj_pos (k : nat) : (0 < k)%nat -> 0 < inject_Z (Z.of_nat k).
Proof.
  intros H. change 0 with (inject_Z 0). rewrite <- Zlt_Qlt. lia.
Qed.

Lemma inj_nonzero (k : nat) :
  (0 < k)%nat -> ~ inject_Z (Z.of_nat k) == 0.
Proof.
  intros H E. unfold Qeq in E. cbn in E. lia.
Qed.

Lemma inj_nonneg (k : nat) : 0 <= inject_Z (Z.of_nat k).
Proof.
  change 0 with (inject_Z 0). rewrite <- Zle_Qle. lia.
Qed.

Lemma inj_le_nat (a b : nat) :
  (a <= b)%nat -> inject_Z (Z.of_nat a) <= inject_Z (Z.of_nat b).
Proof.
  intros H. rewrite <- Zle_Qle. lia.
Qed.

(** A sequence of integers that goes up by at most one in a step takes
    every value between its first and its last one. *)
Lemma steps_of_one (a : nat -> Z) (x : Z) (k : nat) :
  (a 0%nat <= x <= a k)%Z ->
  (forall i, (i < k)%nat -> (a (S i) <= a i + 1)%Z) ->
  exists i, (i <= k)%nat /\ a i = x.
Proof.
  induction k as [| k IH]; intros Hx Hstep.
  - exists 0%nat. split; [lia |]. lia.
  - destruct (Z.eq_dec (a (S k)) x) as [E | E].
    + exists (S k). split; [lia | exact E].
    + destruct IH as (i & Hi & Hv).
      * specialize (Hstep k (Nat.lt_succ_diag_r k)). lia.
      * intros i Hi. apply Hstep. lia.
      * exists i. split; [lia | exact Hv].
Qed.

Section Cover.

Import BeatSync.

(** [n] subdivisions, [D + 1] frames *)
Variables n D : nat.
Hypothesis some_subdivision : (0 < n)%nat.
Hypothesis some_step : (0 < D)%nat.
Hypothesis enough_frames : (n <= D + 1)%nat.

Local Abbreviation step :=
  ((inject_Z (Z.of_nat n) - tiny - tiny) / inject_Z (Z.of_nat D)).
Local Abbreviation v i := (tiny + inject_Z (Z.of_nat i) * step).

Lemma tiny_bounds : 0 < tiny /\ tiny < 1 # 2.
Proof. split; reflexivity. Qed.

Lemma step_nonneg : 0 <= step.
Proof.
  pose proof (inj_pos D some_step) as HD.
  pose proof (inj_le_nat 1 n some_subdivision) as Hn.
  change (inject_Z (Z.of_nat 1)) with 1 in Hn.
  destruct tiny_bounds as [T0 T1].
  apply Qle_shift_div_l; [exact HD |]. lra.
Qed.

Lemma v_first : Qfloor (v 0) = 0%Z.
Proof.
  apply floor_unique; change (inject_Z (Z.of_nat 0)) with 0;
    change (inject_Z 0) with 0; destruct tiny_bounds; lra.
Qed.

Lemma v_last : Qfloor (v D) = (Z.of_nat n - 1)%Z.
Proof.
  pose proof (inj_pos D some_step) as HD.
  assert (E : v D == inject_Z (Z.of_nat n) - tiny)     by (field; apply inj_nonzero; exact some_step).
  destruct tiny_bounds as [T0 T1].
  apply floor_unique; rewrite E; unfold Z.sub;
    rewrite inject_Z_plus, inject_Z_opp; change (inject_Z 1) with 1; lra.
Qed.

Lemma v_succ (i : nat) : v (S i) == v i + step.
Proof. rewrite inject_Z_S. ring. Qed.

(** More frames than subdivisions: the step is below one bin. *)
Lemma small_step : (n <= D)%nat -> step < 1.
Proof.
  intros H.
  pose proof (inj_pos D some_step) as HD.
  pose proof (inj_le_nat n D H) as Hn.
  destruct tiny_bounds as [T0 T1].
  apply Qlt_shift_div_r; [exact HD |]. lra.
Qed.

Lemma floor_step (i : nat) :
  (n <= D)%nat -> (Qfloor (v (S i)) <= Qfloor (v i) + 1)%Z.
Proof.
  intros H. pose proof (small_step H) as Hs.
  pose proof (Qfloor_le (v (S i))) as F1.
  pose proof (Qlt_floor (v i)) as F2.
  rewrite inject_Z_plus in F2. change (inject_Z 1) with 1 in F2.
  pose proof (v_succ i) as E.
  apply Z.lt_succ_r. unfold Z.succ. rewrite Zlt_Qlt.
  rewrite !inject_Z_plus. change (inject_Z 1) with 1. lra.
Qed.

(** As many frames as subdivisions: frame [x] is in bin [x]. *)
Lemma one_frame_each (x : nat) :
  n = (D + 1)%nat -> (x < n)%nat -> Qfloor (v x) = Z.of_nat x.
Proof.
  intros E Hx.
  pose proof (inj_pos D some_step) as HD.
  pose proof (inj_nonneg x) as Hx0.
  assert (HxD : inject_Z (Z.of_nat x) <= inject_Z (Z.of_nat D))
    by (apply inj_le_nat; lia).
  assert (En : inject_Z (Z.of_nat n) == inject_Z (Z.of_nat D) + 1).
  { rewrite E, Nat.add_comm. apply inject_Z_S. }
  set (q := inject_Z (Z.of_nat x) / inject_Z (Z.of_nat D)).
  assert (Hq0 : 0 <= q).
  { apply Qle_shift_div_l; [exact HD |]. lra. }
  assert (Hq1 : q <= 1).
  { apply Qle_shift_div_r; [exact HD |]. lra. }
  assert (Ev : v x == tiny + inject_Z (Z.of_nat x) + q * (1 - tiny - tiny)).
  { unfold q. rewrite En. field. apply inj_nonzero. exact some_step. }
  destruct tiny_bounds as [T0 T1].
  assert (B0 : 0 <= q * (1 - tiny - tiny)).
  { apply Qmult_le_0_compat; lra. }
  assert (B1 : q * (1 - tiny - tiny) <= 1 * (1 - tiny - tiny)).
  { apply Qmult_le_compat_r; lra. }
  apply floor_unique; rewrite Ev; lra.
Qed.

Lemma every_bin_has_a_frame (x : nat) :
  (x < n)%nat -> exists i, (i <= D)%nat /\ Qfloor (v i) = Z.of_nat x.
Proof.
  intros Hx.
  destruct (Nat.eq_dec n (D + 1)) as [E | E].
  - exists x. split; [lia | apply one_frame_each; assumption].
  - apply (steps_of_one (fun i => Qfloor (v i))).
    + rewrite v_first, v_last. lia.
    + intros i _. apply floor_step. lia.
Qed.

End Cover.

Section BinsOfBeat.

Import BeatSync.

Lemma beat_pos_length (n m : nat) : length (beat_pos_of_frames n m) = m.
Proof.
  unfold beat_pos_of_frames. rewrite length_map. apply linspace_length.
Qed.

Lemma beat_pos_nth (n d i : nat) :
  (i <= S d)%nat ->
  nth i (beat_pos_of_frames n (S (S d))) 0%Z
  = Qfloor (tiny + inject_Z (Z.of_nat i)
                   * ((inject_Z (Z.of_nat n) - tiny - tiny)
                      / inject_Z (Z.of_nat (S d)))).
Proof.
  intros Hi. unfold beat_pos_of_frames.
  rewrite (nth_indep _ 0%Z (Np.floor 0))
    by (rewrite length_map, linspace_length; lia).
  rewrite (map_nth Np.floor). rewrite linspace_nth by exact Hi.
  reflexivity.
Qed.

(** The first frame of a beat is in bin 0. *)
Lemma beat_pos_first (n m : nat) :
  (0 < n)%nat -> (0 < m)%nat -> nth 0 (beat_pos_of_frames n m) 0%Z = 0%Z.
Proof.
  intros Hn Hm. destruct m as [| [| d]]; [lia | reflexivity |].
  rewrite beat_pos_nth by lia. apply v_first.
Qed.

(** With at least as many frames as subdivisions every bin holds the
    position of a frame. *)
Lemma beat_pos_cover (n m x : nat) :
  (0 < n)%nat -> (n <= m)%nat -> (x < n)%nat ->
  exists i, (i < m)%nat /\ nth i (beat_pos_of_frames n m) 0%Z = Z.of_nat x.
Proof.
  intros Hn Hm Hx. destruct m as [| [| d]]; [lia | |].
  - exists 0%nat. split; [lia |].
    assert (x = 0)%nat by lia. subst x. reflexivity.
  - destruct (every_bin_has_a_frame n (S d) Hn ltac:(lia) ltac:(lia) x Hx)
      as (i & Hi & Hv).
    exists i. split; [lia |]. rewrite beat_pos_nth by exact Hi. exact Hv.
Qed.

Lemma slice_bound_inside (len i : Z) :
  (0 <= i <= len)%Z -> slice_bound len i = i.
Proof.
  intros H. unfold slice_bound.
  destruct (Z.ltb_spec i 0); lia.
Qed.

Lemma py_slice_length {A : Type} (l : list A) (start stop : Z) :
  (0 <= start <= stop)%Z -> (stop <= Z.of_nat (length l))%Z ->
  length (py_slice l start stop) = Z.to_nat (stop - start).
Proof.
  intros H1 H2. unfold py_slice.
  rewrite !slice_bound_inside by lia.
  rewrite length_firstn, length_skipn. lia.
Qed.

Lemma select_bin_ok (pos : list Z) (features_beat : list (list Q))
    (n : nat) :
  length pos = length features_beat ->
  map_result (select_bin pos features_beat) (seq 0 n)
  = Ok (map (frames_of_bin pos features_beat) (seq 0 n)).
Proof.
  intros Hlen. generalize 0%nat.
  induction n as [| n IH]; intros a; cbn [seq map_result map].
  - reflexivity.
  - unfold select_bin at 1. rewrite Hlen, Nat.eqb_refl. cbn [negb bind].
    rewrite IH. reflexivity.
Qed.

Lemma frames_of_bin_holds (pos : list Z) (features_beat : list (list Q))
    (x i : nat) :
  length pos = length features_beat ->
  (i < length pos)%nat -> nth i pos 0%Z = Z.of_nat x ->
  frames_of_bin pos features_beat x <> [].
Proof.
  intros Hlen Hi Hv E. unfold frames_of_bin in E.
  apply map_eq_nil in E.
  assert (Hin : In (nth i pos 0%Z, nth i features_beat [])
                  (filter (fun pf => Z.eqb (fst pf) (Z.of_nat x))
                     (combine pos features_beat))).
  { apply filter_In. split.
    - rewrite <- (combine_nth pos features_beat i 0%Z [] Hlen).
      apply nth_In. rewrite length_combine. lia.
    - cbn [fst]. rewrite Hv. apply Z.eqb_refl. }
  rewrite E in Hin. contradiction.
Qed.

Section Round.

Variables (n feat_dim : nat) (fps : Q) (features : list (list Q)).
Variables (start nf : Z) (b_this b_next : Q).

Hypothesis some_subdivision : (0 < n)%nat.
Hypothesis some_dimension : (0 < feat_dim)%nat.
Hypothesis start_nonneg : (0 <= start)%Z.
Hypothesis next_frame : next_beat_frame n fps b_this b_next = Ok nf.
Hypothesis next_in_features : (nf <= Z.of_nat (length features))%Z.

Local Abbreviation bins := (bins_of_beat n features start nf).

Lemma bins_length : length bins = n.
Proof.
  unfold bins_of_beat. rewrite length_map, length_seq. reflexivity.
Qed.

Lemma sync_beat_unfold :
  (start <= nf)%Z ->
  sync_beat n fps features feat_dim start b_this b_next
  = (feats_sorted' <- interpolate_missing n bins feat_dim ;;
     Ok (map (mean_axis0 feat_dim) feats_sorted', nf)).
Proof.
  clear some_dimension.
  intros Hle. unfold sync_beat. rewrite next_frame. cbn [bind].
  destruct (Z.ltb_spec (nf - start) 0) as [H | _]; [lia |].
  change (map Np.floor
            (Np.linspace tiny (inject_Z (Z.of_nat n) - tiny)
               (Z.to_nat (nf - start))))
    with (beat_pos_of_frames n (Z.to_nat (nf - start))).
  rewrite select_bin_ok.
  2:{ rewrite beat_pos_length, py_slice_length by lia. reflexivity. }
  reflexivity.
Qed.

(** A beat with a frame: bin 0 holds it, and the round returns. *)
Lemma sync_beat_succeeds :
  (start < nf)%Z ->
  exists row,
    sync_beat n fps features feat_dim start b_this b_next = Ok (row, nf).
Proof.
  intros Hlt. rewrite sync_beat_unfold by lia.
  assert (Hpos : length (beat_pos_of_frames n (Z.to_nat (nf - start)))
                 = length (py_slice features start nf)).
  { rewrite beat_pos_length, py_slice_length by lia. reflexivity. }
  assert (H0 : nth 0 bins [] <> []).
  { unfold bins_of_beat.
    rewrite (nth_indep _ []
               (frames_of_bin
                  (beat_pos_of_frames n (Z.to_nat (nf - start)))
                  (py_slice features start nf) 0%nat))
      by (rewrite length_map, length_seq; exact some_subdivision).
    rewrite (map_nth (frames_of_bin _ _)).
    rewrite seq_nth by exact some_subdivision. cbn [Nat.add].
    apply (frames_of_bin_holds _ _ 0 0 Hpos).
    - rewrite beat_pos_length. lia.
    - apply beat_pos_first; [exact some_subdivision | lia]. }
  assert (E : interpolate_missing n bins feat_dim
              = interpolate_missing (length bins) bins feat_dim)
    by (rewrite bins_length; reflexivity).
  rewrite E.
  destruct (all_supported_or_missing bins) as [Hall | Hmiss].
  - rewrite (interpolate_missing_all_supported bins feat_dim
               some_dimension Hall).
    cbn [bind]. eauto.
  - destruct (interpolate_missing_rows bins feat_dim some_dimension Hmiss)
      as (out & Hrun & _).
    { exists 0%nat. split; [rewrite bins_length; exact some_subdivision |].
      exact H0. }
    rewrite Hrun. cbn [bind]. eauto.
Qed.

(** A beat with at least as many frames as subdivisions: every bin holds
    a frame. *)
Lemma bins_all_supported :
  (Z.of_nat n <= nf - start)%Z -> Forall (fun bin => bin <> []) bins.
Proof.
  intros Hle.
  assert (Hpos : length (beat_pos_of_frames n (Z.to_nat (nf - start)))
                 = length (py_slice features start nf)).
  { rewrite beat_pos_length, py_slice_length by lia. reflexivity. }
  unfold bins_of_beat. apply Forall_map. apply Forall_forall.
  intros x Hx. apply in_seq in Hx.
  destruct (beat_pos_cover n (Z.to_nat (nf - start)) x some_subdivision)
    as (i & Hi & Hv); [lia | lia |].
  apply (frames_of_bin_holds _ _ x i Hpos); [| exact Hv].
  rewrite beat_pos_length. exact Hi.
Qed.

End Round.

End BinsOfBeat.

(** X8: a beat that spans at least as many frames as it has subdivisions
    is never interpolated: every bin holds at least one of its frames, and
    the round of the loop returns the means of the frames of the bins. *)
Theorem enough_frames_need_no_interpolation :
  forall (n feat_dim : nat) (fps : Q) (features : list (list Q))
         (start nf : Z) (b_this b_next : Q),
    (0 < n)%nat -> (0 < feat_dim)%nat ->
    (0 <= start)%Z ->
    BeatSync.next_beat_frame n fps b_this b_next = Ok nf ->
    (nf <= Z.of_nat (length features))%Z ->
    (Z.of_nat n <= nf - start)%Z ->
    Forall (fun bin => bin <> [])
      (BeatSync.bins_of_beat n features start nf) /\
    BeatSync.sync_beat n fps features feat_dim start b_this b_next
    = Ok (map (BeatSync.mean_axis0 feat_dim)
            (BeatSync.bins_of_beat n features start nf), nf).
Proof.
  intros n feat_dim fps features start nf b_this b_next Hn Hd Hs Hnf Hin Hle.
  assert (Hall : Forall (fun bin => bin <> [])
                   (BeatSync.bins_of_beat n features start nf))
    by exact (bins_all_supported n feat_dim features start nf Hn Hd Hs Hin
                Hle).
  split; [exact Hall |].
  rewrite (sync_beat_unfold n feat_dim fps features start nf b_this b_next
             Hn Hs Hnf Hin) by lia.
  assert (E : BeatSync.interpolate_missing n
                (BeatSync.bins_of_beat n features start nf) feat_dim
              = BeatSync.interpolate_missing
                  (length (BeatSync.bins_of_beat n features start nf))
                  (BeatSync.bins_of_beat n features start nf) feat_dim)
    by (rewrite bins_length; reflexivity).
  rewrite E.
  rewrite (interpolate_missing_all_supported _ feat_dim Hd Hall).
  reflexivity.
Qed.

Lemma enough_frames_witness :
  Forall (fun bin => bin <> [])
    (BeatSync.bins_of_beat 4 (repeat [1] 50) 0 21) /\
  BeatSync.sync_beat 4 100 (repeat [1] 50) 1 0 0 (1 # 4)
  = Ok (map (BeatSync.mean_axis0 1)
          (BeatSync.bins_of_beat 4 (repeat [1] 50) 0 21), 21%Z).
Proof.
  apply (enough_frames_need_no_interpolation 4 1 100 (repeat [1] 50) 0 21
           0 (1 # 4)).
  - lia.
  - lia.
  - lia.
  - reflexivity.
  - rewrite repeat_length. lia.
  - lia.
Defined.

(** ** When batch synchronisation returns *)

Section Returns.

Import BeatSync.

Variables (n feat_dim : nat) (fps : Q) (features : list (list Q)).

Hypothesis some_subdivision : (0 < n)%nat.
Hypothesis some_dimension : (0 < feat_dim)%nat.
Hypothesis fps_positive : 0 < fps.

Local Abbreviation duration :=
  (inject_Z (Z.of_nat (length features)) / fps).

Lemma next_beat_frame_ok (b_this b_next : Q) :
  exists nf, next_beat_frame n fps b_this b_next = Ok nf.
Proof.
  unfold next_beat_frame. destruct n as [| n']; [lia | eauto].
Qed.

(** The frame that the bins of the next beat start at is within the
    features when the next beat is, and not before this beat. *)
Lemma next_beat_frame_in_features (b_this b_next : Q) (nf : Z) :
  b_this <= b_next -> b_next <= duration ->
  next_beat_frame n fps b_this b_next = Ok nf ->
  (nf <= Z.of_nat (length features))%Z.
Proof.
  intros Hord Hin H. unfold next_beat_frame in H.
  destruct n as [| n'] eqn:En; [lia |].
  cbv beta iota zeta in H.
  match type of H with
  | Ok ?z = Ok _ => assert (E : z = nf) by congruence
  end.
  rewrite <- E. unfold Np.floor.
  rewrite <- (Qfloor_Z (Z.of_nat (length features))).
  apply Qfloor_resp_le.
  pose proof (inj_pos (S n') ltac:(lia)) as Hn.
  assert (Hoff : 0 <= (1 # 2) * (b_next - b_this)
                      / inject_Z (Z.of_nat (S n'))).
  { apply Qle_shift_div_l; [exact Hn |]. lra. }
  assert (Hd : duration * fps == inject_Z (Z.of_nat (length features))).
  { field. lra. }
  rewrite <- Hd.
  apply Qmult_le_compat_r; [| lra]. lra.
Qed.

Lemma sync_beats_succeeds (times : list Q) :
  forall start : Z,
    (0 <= start)%Z ->
    non_decreasing times ->
    Forall (fun t => t <= duration) times ->
    Forall (fun c => (0 < c)%Z) (frame_counts n fps start times) ->
    exists rows, sync_beats n fps features feat_dim start times = Ok rows.
Proof.
  induction times as [| b_this [| b_next rest] IH];
    intros start Hs Hord Hin Hcounts.
  - exists []. reflexivity.
  - exists []. reflexivity.
  - rewrite sync_beats_step.
    destruct (next_beat_frame_ok b_this b_next) as (nf & Hnf).
    cbn [frame_counts] in Hcounts. rewrite Hnf in Hcounts.
    inversion Hcounts as [| c cs Hc Hrest]; subst.
    destruct Hord as [Hle Hord].
    inversion Hin as [| t ts Ht Hin']; subst.
    inversion Hin' as [| t' ts' Ht' _]; subst.
    pose proof (next_beat_frame_in_features b_this b_next nf Hle Ht' Hnf)
      as Hnf_in.
    destruct (sync_beat_succeeds n feat_dim fps features start nf b_this
                b_next some_subdivision some_dimension Hs Hnf Hnf_in)
      as (row & Hrow); [lia |].
    rewrite Hrow. cbn [bind].
    destruct (IH nf) as (rows & Hrows); try assumption; [lia |].
    rewrite Hrows. cbn [bind]. eauto.
Qed.

End Returns.

Section ProcessOffline.

Import BeatSync.

Lemma index0_of_times (times : list Q) :
  map_result (fun r => index r 0) (map (fun x => [x]) times) = Ok times.
Proof.
  induction times as [| t times IH]; cbn [map map_result]; [reflexivity |].
  unfold index at 1. cbn [nth_error bind]. rewrite IH. reflexivity.
Qed.

Lemma Forall_last {A : Type} (P : A -> Prop) (l : list A) (a : A)
    (rest : list A) :
  Forall P l -> List.rev l = a :: rest -> P a.
Proof.
  intros Hall E. rewrite Forall_forall in Hall. apply Hall.
  apply in_rev. rewrite E. left. reflexivity.
Qed.

(** With every beat within the features no beat is dropped, and the call
    is the loop over the beats. *)
Lemma process_offline_unfold (n : nat) (fps : Q) (times : list Q)
    (features : features_array) :
  0 < fps -> times <> [] ->
  Forall (fun t => t <= inject_Z (Z.of_nat (features_len features)) / fps)
    times ->
  process_offline n fps (Beats1 times) features
  = (feats <- sync_beats n fps (frames_of features) (features_dim features)
                (first_frame fps times) times ;;
     Ok (mk_offline (map (fun x => [x]) times) feats
           (loading_warnings features))).
Proof.
  intros Hfps Hne Hin. unfold process_offline.
  destruct (Nat.eqb_spec (beats_size (Beats1 times)) 0) as [E | _].
  { cbn in E. destruct times; [contradiction | discriminate]. }
  cbn [beats_rows].
  assert (Hb : Qeq_bool fps 0 = false).
  { destruct (Qeq_bool fps 0) eqn:E; [| reflexivity].
    apply Qeq_bool_iff in E. lra. }
  assert (Hdrop : drop_trailing (features_len features) fps
                    (List.rev (map (fun x => [x]) times)) []
                  = Ok (map (fun x => [x]) times, [])).
  { rewrite <- map_rev.
    destruct (List.rev times) as [| t rest] eqn:Er.
    - apply (f_equal (@List.rev Q)) in Er. rewrite rev_involutive in Er.
      contradiction.
    - pose proof (Forall_last _ _ _ _ Hin Er) as Ht. cbn beta in Ht.
      cbn [map drop_trailing]. rewrite Hb.
      unfold index. cbn [nth_error bind].
      destruct (Qlt_le_dec _ t) as [Hlt | _]; [lra |].
      change ([t] :: map (fun x => [x]) rest)
        with (map (fun x : Q => [x]) (t :: rest)).
      rewrite <- Er, map_rev, rev_involutive. reflexivity. }
  rewrite Hdrop. cbn [bind].
  destruct times as [| b0 times']; [contradiction |].
  destruct features as [xs | c frames];
    rewrite index0_of_times; cbn [bind]; unfold index; cbn [nth_error bind];
    reflexivity.
Qed.

Lemma frames_of_length (features : features_array) :
  length (frames_of features) = features_len features.
Proof.
  destruct features as [xs | c frames]; cbn; [apply length_map | reflexivity].
Qed.

Lemma first_frame_nonneg (fps : Q) (times : list Q) :
  (0 <= first_frame fps times)%Z.
Proof.
  unfold first_frame. destruct times; lia.
Qed.

End ProcessOffline.



(** ** The table of log densities: its shape and its errors *)

Section TableErrors.

Variable gmm : Type.
Variable score_samples : gmm -> list Q -> Q.

Local Abbreviation density_column :=
  (GMMObservationModel.density_column gmm score_samples).

(** A beat position with more models than the observations have
    subdivisions: the column is computed up to the last subdivision, and
    reading the next one raises. *)
Lemma density_column_raises (obs : Np.ndarray) (n n_sub feat_dim : nat)
    (models : list gmm) :
  Np.shape obs = [n; n_sub; feat_dim] ->
  (n_sub < length models)%nat ->
  density_column obs n models = Raise IndexError.
Proof.
  intros Hshape Hlen. unfold GMMObservationModel.density_column.
  replace (length models) with (n_sub + (length models - n_sub))%nat by lia.
  rewrite seq_app, for_each_app.
  pose proof (density_column_prefix gmm score_samples obs n n_sub feat_dim
                models Hshape (firstn n_sub models) (skipn n_sub models))
    as Hpre.
  rewrite length_firstn, Nat.min_l in Hpre by lia.
  rewrite Hpre; [| symmetry; apply firstn_skipn | lia].
  cbn [bind Nat.add].
  destruct (length models - n_sub)%nat as [| k] eqn:Ek; [lia |].
  cbn [seq for_each].
  unfold index. destruct (nth_error models n_sub) as [g |] eqn:Eg.
  - cbn [bind]. unfold GMMObservationModel.subdivision. rewrite Hshape.
    rewrite Nat.ltb_irrefl. reflexivity.
  - apply nth_error_None in Eg. lia.
Qed.

Lemma pattern_columns_raise (obs : Np.ndarray) (n n_sub feat_dim : nat)
    (pattern : list (list gmm)) :
  Np.shape obs = [n; n_sub; feat_dim] ->
  Exists (fun models => (n_sub < length models)%nat) pattern ->
  forall columns,
    for_each pattern
      (fun columns models =>
         column <- density_column obs n models ;;
         Ok (columns ++ [column]))
      columns
    = Raise IndexError.
Proof.
  intros Hshape. induction pattern as [| models pattern IH];
    intros Hex columns.
  - inversion Hex.
  - cbn [for_each].
    destruct (le_lt_dec (length models) n_sub) as [Hle | Hlt].
    + rewrite (density_column_ok gmm score_samples obs n n_sub feat_dim
                 models Hshape Hle).
      cbn [bind]. apply IH.
      inversion Hex as [? ? H | ? ? H]; subst; [lia | exact H].
    + rewrite (density_column_raises obs n n_sub feat_dim models Hshape Hlt).
      reflexivity.
Qed.

Lemma Forall_or_Exists_longer (n_sub : nat) (pattern : list (list gmm)) :
  Forall (fun models => (length models <= n_sub)%nat) pattern
  \/ Exists (fun models => (n_sub < length models)%nat) pattern.
Proof.
  induction pattern as [| models pattern [IH | IH]].
  - left. constructor.
  - destruct (le_lt_dec (length models) n_sub) as [Hle | Hlt].
    + left. constructor; assumption.
    + right. apply Exists_cons_hd. exact Hlt.
  - right. apply Exists_cons_tl. exact IH.
Qed.

Lemma log_density_columns_raise (gmms : list (list (list gmm)))
    (obs : Np.ndarray) (n n_sub feat_dim : nat) :
  Np.shape obs = [n; n_sub; feat_dim] ->
  Exists (Exists (fun models => (n_sub < length models)%nat)) gmms ->
  GMMObservationModel.log_density_columns gmm score_samples gmms obs
  = Raise IndexError.
Proof.
  intros Hshape Hex.
  unfold GMMObservationModel.log_density_columns, Np.ndim.
  rewrite Hshape. cbn [length Nat.eqb negb nth].
  enough (H : forall columns,
             for_each gmms
               (fun columns pattern =>
                  for_each pattern
                    (fun columns models =>
                       column <- density_column obs n models ;;
                       Ok (columns ++ [column]))
                    columns)
               columns
             = Raise IndexError) by apply H.
  induction gmms as [| pattern gmms IH]; intros columns.
  - inversion Hex.
  - cbn [for_each].
    destruct (Forall_or_Exists_longer n_sub pattern) as [Hall | Hp].
    + rewrite (pattern_columns_ok gmm score_samples obs n n_sub feat_dim
                 pattern Hshape Hall).
      cbn [bind]. apply IH.
      inversion Hex as [? ? H | ? ? H]; subst; [| exact H].
      exfalso. clear - Hall H.
      induction H as [models pattern H | models pattern _ IH'];
        inversion Hall; subst; [lia | auto].
    + rewrite (pattern_columns_raise obs n n_sub feat_dim pattern Hshape Hp).
      reflexivity.
Qed.

End TableErrors.

(** X10: for observations of rank 3, [log_densities] returns a table with
    one row per beat and one column per beat position of all patterns if
    no beat position has more mixture models than the observations have
    subdivisions; if some beat position has more, it raises an
    [IndexError]. *)
Theorem log_densities_table_or_index_error :
  forall (gmm : Type) (score_samples : gmm -> list Q -> Q)
         (gmms : list (list (list gmm))) (obs : Np.ndarray)
         (n n_sub feat_dim : nat),
    Np.shape obs = [n; n_sub; feat_dim] ->
    (Forall (Forall (fun models => (length models <= n_sub)%nat)) gmms ->
     exists table,
       GMMObservationModel.log_densities gmm score_samples gmms obs
       = Ok table /\
       length table = n /\
       Forall (fun row => length row = length (concat gmms)) table) /\
    (Exists (Exists (fun models => (n_sub < length models)%nat)) gmms ->
     GMMObservationModel.log_densities gmm score_samples gmms obs
     = Raise IndexError).
Proof.
  intros gmm score_samples gmms obs n n_sub feat_dim Hshape.
  unfold GMMObservationModel.log_densities. split.
  - intros Hall.
    rewrite (log_density_columns_ok gmm score_samples gmms obs n n_sub
               feat_dim Hshape Hall).
    cbn [bind]. rewrite Hshape. cbn [nth].
    eexists. split; [reflexivity |].
    split; [rewrite length_map, length_seq; reflexivity |].
    apply Forall_map. apply Forall_forall. intros b _.
    rewrite !length_map. reflexivity.
  - intros Hex.
    rewrite (log_density_columns_raise gmm score_samples gmms obs n n_sub
               feat_dim Hshape Hex).
    reflexivity.
Qed.

Lemma log_densities_table_witness :
  (exists table,
      GMMObservationModel.log_densities nat Examples.toy_score
        Examples.toy_gmms Examples.toy_observations = Ok table /\
      length table = 1%nat /\
      Forall (fun row => length row = length (concat Examples.toy_gmms))
        table) /\
  GMMObservationModel.log_densities nat Examples.toy_score
    [[[1; 2; 3]]]%nat Examples.toy_observations = Raise IndexError.
Proof.
  split.
  - apply (proj1 (log_densities_table_or_index_error nat Examples.toy_score
                    Examples.toy_gmms Examples.toy_observations 1 2 1
                    eq_refl)).
    repeat constructor.
  - apply (proj2 (log_densities_table_or_index_error nat Examples.toy_score
                    [[[1; 2; 3]]]%nat Examples.toy_observations 1 2 1
                    eq_refl)).
    repeat constructor.
Defined.

(** X11: an array of observations that is not of rank 3 is refused, but
    only an array of rank 1 gets the [ValueError] that tells its shape;
    for every other rank the shape does not fit the one conversion of the
    message, and the error is the [TypeError] of the string formatting. *)
Theorem log_densities_wrong_rank :
  forall (gmm : Type) (score_samples : gmm -> list Q -> Q)
         (gmms : list (list (list gmm))) (obs : Np.ndarray),
    Np.ndim obs <> 3%nat ->
    match Np.shape obs with
    | [] =>
        GMMObservationModel.log_densities gmm score_samples gmms obs
        = Raise (TypeError "not enough arguments for format string")
    | [n] =>
        GMMObservationModel.log_densities gmm score_samples gmms obs
        = Raise (ValueError
                   ("Got observations shape: "
                    ++ NilZero.string_of_uint (Nat.to_uint n)
                    ++ ", expected (n_beats, n_subdivisions, feat_dim)"))
    | _ =>
        GMMObservationModel.log_densities gmm score_samples gmms obs
        = Raise (TypeError
                   "not all arguments converted during string formatting")
    end.
Proof.
  intros gmm score_samples gmms [shape data] Hrank.
  unfold GMMObservationModel.log_densities,
    GMMObservationModel.log_density_columns, Np.ndim in *.
  cbn [Np.shape] in *.
  destruct shape as [| n [| m [| k [| j rest]]]]; try reflexivity.
  cbn in Hrank. contradiction.
Qed.

Lemma log_densities_wrong_rank_witness :
  GMMObservationModel.log_densities nat Examples.toy_score Examples.toy_gmms
    (Np.mk_array [5]%nat [1; 2; 3; 4; 5])
  = Raise (ValueError
             "Got observations shape: 5, expected (n_beats, n_subdivisions, feat_dim)").
Proof.
  apply (log_densities_wrong_rank nat Examples.toy_score Examples.toy_gmms
           (Np.mk_array [5]%nat [1; 2; 3; 4; 5])).
  cbn. discriminate.
Defined.

(** ** The pointers of the states address columns of the table *)

Section Pointers.

Variable gmm : Type.

Local Abbreviation stacked_before :=
  (GMMObservationModel.stacked_before gmm).

Lemma stacked_before_all (gmms : list (list (list gmm))) :
  stacked_before gmms (length gmms) = length (concat gmms).
Proof.
  unfold GMMObservationModel.stacked_before. rewrite firstn_all. reflexivity.
Qed.

Lemma stacked_before_mono (gmms : list (list (list gmm))) (p q : nat) :
  (p <= q)%nat -> (q <= length gmms)%nat ->
  (stacked_before gmms p <= stacked_before gmms q)%nat.
Proof.
  intros Hpq. induction Hpq as [| q Hpq IH]; intros Hq; [lia |].
  rewrite (stacked_before_S gmm gmms q) by lia.
  specialize (IH ltac:(lia)). lia.
Qed.

(** The columns of pattern [p] start at [stacked_before p] and end before
    the columns of the next pattern. *)
Lemma columns_of_pattern (gmms : list (list (list gmm))) (p k : nat) :
  (k < length (nth p gmms []))%nat ->
  (p < length gmms)%nat /\
  (k + stacked_before gmms p < stacked_before gmms (S p))%nat /\
  (stacked_before gmms (S p) <= length (concat gmms))%nat.
Proof.
  intros Hk.
  assert (Hp : (p < length gmms)%nat).
  { destruct (Nat.lt_ge_cases p (length gmms)) as [H | H]; [exact H |].
    rewrite nth_overflow in Hk by exact H. cbn in Hk. lia. }
  split; [exact Hp |].
  rewrite (stacked_before_S gmm gmms p Hp).
  split; [lia |].
  rewrite <- (stacked_before_S gmm gmms p Hp), <- stacked_before_all.
  apply stacked_before_mono; lia.
Qed.

Lemma columns_apart (gmms : list (list (list gmm))) (p k p' k' : nat) :
  (k < length (nth p gmms []))%nat ->
  (k' < length (nth p' gmms []))%nat ->
  (k + stacked_before gmms p = k' + stacked_before gmms p')%nat ->
  p = p' /\ k = k'.
Proof.
  intros Hk Hk' E.
  destruct (columns_of_pattern gmms p k Hk) as (Hp & Hlt & _).
  destruct (columns_of_pattern gmms p' k' Hk') as (Hp' & Hlt' & _).
  destruct (Nat.lt_trichotomy p p') as [H | [H | H]].
  - pose proof (stacked_before_mono gmms (S p) p' ltac:(lia) ltac:(lia)). lia.
  - subst p'. split; [reflexivity | lia].
  - pose proof (stacked_before_mono gmms (S p') p ltac:(lia) ltac:(lia)). lia.
Qed.

End Pointers.

(** X12: when the position of every state is one of the beat positions
    that its pattern has models for, and the table has fewer than 2^32
    columns, then every state has a pointer, the pointer of every state
    addresses a column of the table of log densities, and two states
    share a column only if they have the same pattern and the same
    position. *)
Theorem pointers_address_own_columns :
  forall (gmm : Type) (gmms : list (list (list gmm)))
         (state_patterns state_positions : list nat),
    (Z.of_nat (length (concat gmms)) < 2 ^ 32)%Z ->
    (forall s, (s < length state_patterns)%nat ->
       (nth s state_positions 0 < length (nth (nth s state_patterns 0) gmms []))%nat) ->
    let pointers :=
      GMMObservationModel.pointers gmm gmms state_patterns state_positions in
    length pointers = length state_patterns /\
    (forall s, (s < length state_patterns)%nat ->
       (0 <= nth s pointers 0 < Z.of_nat (length (concat gmms)))%Z) /\
    (forall s s',
        (s < length state_patterns)%nat ->
        (s' < length state_patterns)%nat ->
        nth s pointers 0%Z = nth s' pointers 0%Z ->
        nth s state_patterns 0%nat = nth s' state_patterns 0%nat /\
        nth s state_positions 0%nat = nth s' state_positions 0%nat).
Proof.
  intros gmm gmms pats poss Hsmall Hpos pointers.
  destruct (pointers_fold gmm gmms pats poss (length gmms) (le_n _))
    as (ptrs & Hfold & Hlen & Hnth).
  assert (Hp : pointers = ptrs).
  { unfold pointers, GMMObservationModel.pointers. rewrite Hfold.
    reflexivity. }
  assert (Hval : forall s, (s < length pats)%nat ->
            nth s pointers 0%Z
            = Z.of_nat (nth s poss 0%nat
                        + GMMObservationModel.stacked_before gmm gmms
                            (nth s pats 0%nat))).
  { intros s Hs. rewrite Hp, (Hnth s Hs).
    destruct (columns_of_pattern gmm gmms _ _ (Hpos s Hs)) as (Hlt & Hk & Hle).
    destruct (Nat.ltb_spec (nth s pats 0%nat) (length gmms)); [| lia].
    unfold GMMObservationModel.uint32. apply Z.mod_small. lia. }
  split; [rewrite Hp; exact Hlen |].
  split.
  - intros s Hs. rewrite (Hval s Hs).
    destruct (columns_of_pattern gmm gmms _ _ (Hpos s Hs)) as (_ & Hk & Hle).
    lia.
  - intros s s' Hs Hs' E. rewrite (Hval s Hs), (Hval s' Hs') in E.
    apply Nat2Z.inj in E.
    destruct (columns_apart gmm gmms _ _ _ _ (Hpos s Hs) (Hpos s' Hs') E).
    split; assumption.
Qed.

Lemma pointers_address_own_columns_witness :
  length (GMMObservationModel.pointers nat Examples.toy_gmms
            [0; 0; 1]%nat [0; 1; 0]%nat) = 3%nat /\
  (forall s, (s < 3)%nat ->
     (0 <= nth s (GMMObservationModel.pointers nat Examples.toy_gmms
                    [0; 0; 1]%nat [0; 1; 0]%nat) 0
      < Z.of_nat (length (concat Examples.toy_gmms)))%Z) /\
  (forall s s',
      (s < 3)%nat -> (s' < 3)%nat ->
      nth s (GMMObservationModel.pointers nat Examples.toy_gmms
               [0; 0; 1]%nat [0; 1; 0]%nat) 0%Z
      = nth s' (GMMObservationModel.pointers nat Examples.toy_gmms
                  [0; 0; 1]%nat [0; 1; 0]%nat) 0%Z ->
      nth s [0; 0; 1]%nat 0%nat = nth s' [0; 0; 1]%nat 0%nat /\
      nth s [0; 1; 0]%nat 0%nat = nth s' [0; 1; 0]%nat 0%nat).
Proof.
  apply (pointers_address_own_columns nat Examples.toy_gmms
           [0; 0; 1]%nat [0; 1; 0]%nat).
  - reflexivity.
  - intros s Hs. cbn in Hs.
    destruct s as [| [| [| s]]]; cbn; lia.
Defined.

(** ** The control loop reads lines of two fields *)

Section Fields.

Import GMMControl.

Lemma split_from_spec (sep : Ascii.ascii) (s : string) :
  length (snd (split_from sep s)) = count sep s /\
  count sep (fst (split_from sep s)) = 0%nat /\
  (snd (split_from sep s) = [] -> fst (split_from sep s) = s).
Proof.
  induction s as [| c rest (IHlen & IHfirst & IHone)];
    cbn [split_from count].
  - repeat split.
  - destruct (split_from sep rest) as [field fields].
    cbn [fst snd] in *.
    destruct (Ascii.eqb c sep) eqn:E; cbn [fst snd length count].
    + repeat split.
      * rewrite IHlen. reflexivity.
      * discriminate.
    + rewrite E. repeat split.
      * exact IHlen.
      * exact IHfirst.
      * intros H. rewrite (IHone H). reflexivity.
Qed.

Lemma split_length (sep : Ascii.ascii) (s : string) :
  length (split sep s) = S (count sep s).
Proof.
  unfold split. pose proof (split_from_spec sep s) as (H & _).
  destruct (split_from sep s) as [field fields]. cbn [snd] in H.
  cbn [length]. rewrite H. reflexivity.
Qed.

(** The fields of a string with one separator are the text before it and
    the text after it. *)
Lemma split_one (sep : Ascii.ascii) (s : string) :
  count sep s = 1%nat ->
  exists a b,
    split sep s = [a; b] /\ s = (a ++ String sep b)%string.
Proof.
  induction s as [| c rest IH]; cbn [count]; [discriminate |].
  intros Hc. unfold split in *. cbn [split_from].
  pose proof (split_from_spec sep rest) as (Hlen & _ & Hone).
  destruct (split_from sep rest) as [field fields]. cbn [fst snd] in *.
  destruct (Ascii.eqb_spec c sep) as [-> | Hne].
  - assert (Hz : count sep rest = 0%nat) by lia.
    rewrite Hz in Hlen. destruct fields; [| discriminate].
    exists EmptyString, field. split; [reflexivity |].
    rewrite (Hone eq_refl). reflexivity.
  - destruct (IH Hc) as (a & b & Hs & Hrest).
    injection Hs as -> ->.
    exists (String c a), b. split; [reflexivity |].
    rewrite Hrest. reflexivity.
Qed.

Lemma unpack_none (data : string) :
  count Ascii.Space data <> 1%nat -> unpack data = None.
Proof.
  intros H. unfold unpack.
  pose proof (split_length Ascii.Space data) as Hlen.
  destruct (split Ascii.Space data) as [| a [| b [| c l]]]; try reflexivity.
  cbn [length] in Hlen. lia.
Qed.

Lemma unpack_some (data : string) :
  count Ascii.Space data = 1%nat ->
  exists a b,
    unpack data = Some (a, b) /\ data = (a ++ String Ascii.Space b)%string.
Proof.
  intros H. destruct (split_one Ascii.Space data H) as (a & b & Hs & Hd).
  exists a, b. unfold unpack. rewrite Hs. split; [reflexivity | exact Hd].
Qed.

End Fields.

(** X13: the loop of [process_online] handles the lines that hold exactly
    one space, the beat before it and the feature after it, and goes on
    with the next line; it ends, without an error, at the first line that
    does not hold exactly one space (an empty line, a line with a second
    space), and no line after that one is read. *)
Theorem control_loop_ends_at_first_line_without_two_fields :
  forall (float : Type) (py_float : string -> result float)
         (is_zero : float -> bool) (P : Type)
         (processor : P -> option float * float -> result P),
    (forall (p : P) (data : string) (rest : list string),
        GMMControl.count Ascii.Space data = 1%nat ->
        exists beat feature,
          data = (beat ++ String Ascii.Space feature)%string /\
          GMMControl.process_online float py_float is_zero P processor p
            (data :: rest)
          = (p' <- GMMControl.handle float py_float is_zero P processor p
                     (beat, feature) ;;
             GMMControl.process_online float py_float is_zero P processor
               p' rest)) /\
    (forall (p : P) (good : list string) (bad : string)
            (rest : list string),
        Forall (fun l => GMMControl.count Ascii.Space l = 1%nat) good ->
        GMMControl.count Ascii.Space bad <> 1%nat ->
        GMMControl.process_online float py_float is_zero P processor p
          (good ++ bad :: rest)
        = GMMControl.process_online float py_float is_zero P processor p
            good).
Proof.
  intros float py_float is_zero P processor. split.
  - intros p data rest Hc.
    destruct (unpack_some data Hc) as (a & b & Hu & Hd).
    exists a, b. split; [exact Hd |].
    cbn [GMMControl.process_online]. rewrite Hu. reflexivity.
  - intros p good bad rest Hgood Hbad. revert p.
    induction Hgood as [| data good Hc _ IH]; intros p.
    + cbn [app GMMControl.process_online].
      rewrite (unpack_none bad Hbad). reflexivity.
    + destruct (unpack_some data Hc) as (a & b & Hu & _).
      cbn [app GMMControl.process_online]. rewrite Hu.
      destruct (GMMControl.handle float py_float is_zero P processor p (a, b))
        as [p' | e]; cbn [bind]; [apply IH | reflexivity].
Qed.

Lemma control_loop_witness :
  GMMControl.process_online nat Examples.toy_float (Nat.eqb 0) _
    Examples.recorder [] ["1 2"; "12"; "3 4"]%string
  = GMMControl.process_online nat Examples.toy_float (Nat.eqb 0) _
      Examples.recorder [] ["1 2"]%string.
Proof.
  apply (proj2 (control_loop_ends_at_first_line_without_two_fields nat
                  Examples.toy_float (Nat.eqb 0) _ Examples.recorder)
           [] ["1 2"%string] "12"%string ["3 4"%string]).
  - repeat constructor.
  - cbn. discriminate.
Defined.

(** ** GMMBarProcessor: construction and answers *)

Section BarProcessor.

Variable gmm : Type.
Variable score_samples : gmm -> list Q -> Q.
Variable exp : Q -> Q.
Variable switch : nat -> nat -> Q.

Local Abbreviation init := (GMMBar.init gmm score_samples exp switch).

Lemma divisions_ok (gmms : list (list (list gmm))) :
  Forall (fun g => g <> []) gmms ->
  map_result (fun g => g0 <- index g 0 ;; Ok (length g0)) gmms
  = Ok (map (fun g => length (hd [] g)) gmms).
Proof.
  induction 1 as [| g gmms Hg _ IH]; cbn [map_result map]; [reflexivity |].
  destruct g as [| g0 g]; [contradiction |].
  unfold index at 1. cbn [nth_error bind hd]. rewrite IH. reflexivity.
Qed.

Lemma divisions_raise (gmms : list (list (list gmm))) :
  Exists (fun g => g = []) gmms ->
  map_result (fun g => g0 <- index g 0 ;; Ok (length g0)) gmms
  = Raise IndexError.
Proof.
  induction 1 as [g gmms Hg | g gmms _ IH]; cbn [map_result].
  - rewrite Hg. reflexivity.
  - destruct g as [| g0 g]; [reflexivity |].
    unfold index at 1. cbn [nth_error bind]. rewrite IH. reflexivity.
Qed.

End BarProcessor.

(** X14: a [GMMBarProcessor] is built only from at least one pattern whose
    every pattern has the models of at least one beat position: without
    pattern files the construction raises a [TypeError], with an empty list
    of files the [ValueError] of the check, and for a pattern without models
    an [IndexError]; otherwise it returns, with the beats per bar and the
    subdivisions of the first beat position of every pattern. *)
Theorem gmm_bar_init_needs_patterns :
  forall (gmm : Type) (score_samples : gmm -> list Q -> Q) (exp : Q -> Q)
         (switch : nat -> nat -> Q) (pattern_change_prob : Q)
         (downbeats online : bool) (fps : Q)
         (return_pattern bump_beat_number : bool),
    let init := fun patterns =>
      GMMBar.init gmm score_samples exp switch patterns pattern_change_prob
        downbeats online fps return_pattern bump_beat_number in
    init None = Raise (TypeError "'NoneType' object is not iterable") /\
    init (Some [])
    = Raise (ValueError "at least one rhythmical pattern must be given.") /\
    (forall patterns,
        patterns <> [] ->
        Exists (fun p => GMMBar.pattern_gmms gmm p = []) patterns ->
        init (Some patterns) = Raise IndexError) /\
    (forall patterns,
        patterns <> [] ->
        Forall (fun p => GMMBar.pattern_gmms gmm p <> []) patterns ->
        exists g,
          init (Some patterns) = Ok g /\
          GMMBar.num_beats g = map (GMMBar.pattern_num_beats gmm) patterns /\
          GMMBar.num_beat_divisions g
          = map (fun p => length (hd [] (GMMBar.pattern_gmms gmm p)))
              patterns /\
          GMMBar.online g = online).
Proof.
  intros gmm score_samples exp switch pcp downbeats online fps rp bump init.
  split; [reflexivity |]. split; [reflexivity |]. split.
  - intros patterns Hne Hex. unfold init, GMMBar.init.
    destruct patterns as [| p patterns]; [contradiction |].
    cbn [length Nat.eqb].
    rewrite divisions_raise; [reflexivity |].
    apply Exists_exists in Hex. destruct Hex as (q & Hin & Hq).
    apply Exists_exists. exists (GMMBar.pattern_gmms gmm q).
    split; [apply in_map; exact Hin | exact Hq].
  - intros patterns Hne Hall. unfold init, GMMBar.init.
    destruct patterns as [| p patterns]; [contradiction |].
    cbn [length Nat.eqb].
    rewrite divisions_ok by (apply Forall_map; exact Hall).
    cbn [bind]. eexists. split; [reflexivity |].
    cbn [GMMBar.num_beats GMMBar.num_beat_divisions GMMBar.online].
    rewrite map_map. repeat split.
Qed.

Lemma gmm_bar_init_witness :
  GMMBar.init nat Examples.toy_score (fun x => x) (fun _ _ => 0)
    (Some [GMMBar.mk_pattern nat [] 4]) 0 false false 100 false false
  = Raise IndexError /\
  exists g,
    GMMBar.init nat Examples.toy_score (fun x => x) (fun _ _ => 0)
      (Some Examples.toy_patterns) 0 false false 100 false false = Ok g /\
    GMMBar.num_beats g = [2; 1]%nat /\
    GMMBar.num_beat_divisions g = [2; 2]%nat.
Proof.
  pose proof (gmm_bar_init_needs_patterns nat Examples.toy_score
                (fun x => x) (fun _ _ => 0) 0 false false 100 false false)
    as (_ & _ & Hraise & Hok).
  split.
  - apply Hraise; [discriminate |]. repeat constructor.
  - destruct (Hok Examples.toy_patterns) as (g & Hg & Hn & Hd & _).
    + discriminate.
    + repeat constructor; discriminate.
    + exists g. split; [exact Hg |]. split; [exact Hn | exact Hd].
Defined.

(** X15: the argument [downbeats] of [GMMBarProcessor] has no effect: the
    processor is the same whatever its value, and [process] never answers
    with the times of the downbeats only; in batch mode its answer is the
    beats with their numbers. *)
Theorem gmm_bar_ignores_downbeats :
  forall (gmm : Type) (score_samples : gmm -> list Q -> Q) (exp : Q -> Q)
         (switch : nat -> nat -> Q)
         (patterns : option (list (GMMBar.pattern gmm)))
         (pattern_change_prob : Q) (downbeats online : bool) (fps : Q)
         (return_pattern bump_beat_number : bool),
    GMMBar.init gmm score_samples exp switch patterns pattern_change_prob
      downbeats online fps return_pattern bump_beat_number
    = GMMBar.init gmm score_samples exp switch patterns pattern_change_prob
        false online fps return_pattern bump_beat_number /\
    forall g data g' a,
      GMMBar.init gmm score_samples exp switch patterns pattern_change_prob
        downbeats online fps return_pattern bump_beat_number = Ok g ->
      GMMBar.process g data = Ok (g', a) ->
      match a with
      | DBNBarTracking.OnlineRow _ => online = true
      | DBNBarTracking.OfflineAnswer (DBNBarTracking.BeatsAndNumbers _) =>
          online = false
      | DBNBarTracking.OfflineAnswer (DBNBarTracking.DownbeatTimes _) =>
          False
      end.
Proof.
  intros gmm score_samples exp switch patterns pcp downbeats online fps rp
    bump.
  split; [reflexivity |].
  intros g [beats activations] g' a Hinit Hproc.
  unfold GMMBar.init in Hinit.
  destruct patterns as [patterns |]; [| discriminate].
  destruct (Nat.eqb (length patterns) 0); [discriminate |].
  destruct (map_result _ _) as [divisions | e]; cbn [bind] in Hinit;
    [| discriminate].
  injection Hinit as <-.
  unfold GMMBar.process, DBNBarTracking.process in Hproc.
  cbn [GMMBar.online GMMBar.dbn_processor] in Hproc.
  destruct online.
  - destruct (DBNBarTracking.process_online _ _ _) as [[d' row] | e];
      cbn [bind] in Hproc; [| discriminate].
    injection Hproc as _ <-. reflexivity.
  - unfold DBNBarTracking.process_offline in Hproc.
    destruct (DBNBarTracking.decode_offline _ _) as [path | e];
      cbn [bind] in Hproc; [| discriminate].
    destruct (DBNBarTracking.beat_numbers _ _) as [numbers | e];
      cbn [bind] in Hproc; [| discriminate].
    cbn [DBNBarTracking.init DBNBarTracking.downbeats] in Hproc.
    cbn [bind] in Hproc. injection Hproc as _ <-. reflexivity.
Qed.

Lemma gmm_bar_ignores_downbeats_witness :
  exists g g' a,
    GMMBar.init nat Examples.toy_score (fun x => x) (fun _ _ => 0)
      (Some Examples.toy_patterns) 0 true false 100 false false = Ok g /\
    GMMBar.process g ([1; 2], Examples.toy_observations) = Ok (g', a) /\
    match a with
    | DBNBarTracking.OnlineRow _ => false = true
    | DBNBarTracking.OfflineAnswer (DBNBarTracking.BeatsAndNumbers _) =>
        false = false
    | DBNBarTracking.OfflineAnswer (DBNBarTracking.DownbeatTimes _) => False
    end.
Proof.
  destruct (GMMBar.init nat Examples.toy_score (fun x => x) (fun _ _ => 0)
              (Some Examples.toy_patterns) 0 true false 100 false false)
    as [g | e] eqn:Hinit; [| lazy in Hinit; discriminate].
  destruct (GMMBar.process g ([1; 2], Examples.toy_observations))
    as [[g' a] | e] eqn:Hproc.
  - exists g, g', a. split; [reflexivity |]. split; [exact Hproc |].
    exact (proj2 (gmm_bar_ignores_downbeats nat Examples.toy_score
                    (fun x => x) (fun _ _ => 0) (Some Examples.toy_patterns)
                    0 true false 100 false false)
             g ([1; 2], Examples.toy_observations) g' a Hinit Hproc).
  - exfalso. injection Hinit as <-. vm_compute in Hproc. discriminate.
Defined.

Section Columns.

Variable gmm : Type.
Variable patterns : list (GMMBar.pattern gmm).

Local Abbreviation gmms := (map (GMMBar.pattern_gmms gmm) patterns).
Local Abbreviation beats_per_bar :=
  (map (GMMBar.pattern_num_beats gmm) patterns).

Hypothesis models_for_every_beat :
  Forall (fun p => length (GMMBar.pattern_gmms gmm p)
                   = GMMBar.pattern_num_beats gmm p) patterns.

Lemma lengths_are_beats : map (@length (list gmm)) gmms = beats_per_bar.
Proof.
  rewrite map_map. apply map_ext_in. intros p Hp.
  rewrite Forall_forall in models_for_every_beat.
  apply models_for_every_beat. exact Hp.
Qed.

Lemma stacked_before_first_state (p : nat) :
  GMMObservationModel.stacked_before gmm gmms p
  = Hmm.first_state beats_per_bar p.
Proof.
  unfold GMMObservationModel.stacked_before, Hmm.first_state.
  rewrite length_concat, <- firstn_map, lengths_are_beats. reflexivity.
Qed.

End Columns.

(** X16: when every pattern holds the mixture models of as many beat
    positions as it has beats, the observation model that the processor
    builds gives every state of the state space a column of its own in the
    table of log densities: the pointer of state [s] is [s]. *)
Theorem gmm_bar_one_column_per_state :
  forall (gmm : Type) (patterns : list (GMMBar.pattern gmm)),
    Forall (fun p => length (GMMBar.pattern_gmms gmm p)
                     = GMMBar.pattern_num_beats gmm p) patterns ->
    (Z.of_nat (Hmm.num_states (map (GMMBar.pattern_num_beats gmm) patterns))
     < 2 ^ 32)%Z ->
    GMMBar.observation_pointers gmm (map (GMMBar.pattern_gmms gmm) patterns)
      (map (GMMBar.pattern_num_beats gmm) patterns)
    = seq 0 (Hmm.num_states (map (GMMBar.pattern_num_beats gmm) patterns)).
Proof.
  intros gmm patterns Hall Hsmall.
  set (gmms := map (GMMBar.pattern_gmms gmm) patterns).
  set (bpb := map (GMMBar.pattern_num_beats gmm) patterns) in *.
  unfold GMMBar.observation_pointers, GMMObservationModel.pointers.
  destruct (pointers_fold gmm gmms (Hmm.state_patterns bpb)
              (Hmm.state_positions bpb) (length gmms) (le_n _))
    as (ptrs & Hfold & Hlen & Hnth).
  rewrite Hfold. cbn [fst].
  rewrite state_patterns_length in Hlen, Hnth.
  apply (nth_ext _ _ 0%nat 0%nat).
  - rewrite length_map, length_seq. exact Hlen.
  - intros s Hs. rewrite length_map, Hlen in Hs.
    change 0%nat with (Z.to_nat 0) at 1. rewrite map_nth.
    rewrite (Hnth s Hs), seq_nth by exact Hs. cbn [Nat.add].
    destruct (decode bpb s Hs) as (p & k & Hp & Hk & Hsk & Hpat & Hpos).
    rewrite Hpat, Hpos.
    assert (Hpl : (p < length gmms)%nat).
    { unfold gmms, bpb in *. rewrite length_map in *. exact Hp. }
    destruct (Nat.ltb_spec p (length gmms)); [| lia].
    unfold gmms, bpb. rewrite (stacked_before_first_state gmm patterns Hall).
    fold bpb. unfold GMMObservationModel.uint32.
    unfold Hmm.num_states in Hs, Hsmall.
    rewrite Z.mod_small by lia. lia.
Qed.

Lemma gmm_bar_one_column_witness :
  GMMBar.observation_pointers nat
    (map (GMMBar.pattern_gmms nat) Examples.toy_patterns)
    (map (GMMBar.pattern_num_beats nat) Examples.toy_patterns)
  = seq 0 (Hmm.num_states
             (map (GMMBar.pattern_num_beats nat) Examples.toy_patterns)).
Proof.
  apply (gmm_bar_one_column_per_state nat Examples.toy_patterns).
  - repeat constructor.
  - reflexivity.
Defined.

(** ** The beat numbers that the bar tracker returns *)

Lemma nth_le_list_max (l : list nat) (i : nat) :
  (nth i l 0 <= list_max l)%nat.
Proof.
  destruct (Nat.lt_ge_cases i (length l)) as [H | H].
  - pose proof (proj1 (list_max_le l (list_max l)) (Nat.le_refl _)) as Hall.
    rewrite Forall_forall in Hall. apply Hall. apply nth_In. exact H.
  - rewrite nth_overflow by exact H. lia.
Qed.

Lemma numbers_of_path_range (beats_per_bar : list nat) (path : list nat) :
  path <> [] ->
  Forall (fun s => (s < Hmm.num_states beats_per_bar)%nat) path ->
  length (DBNBarTracking.numbers_of_path beats_per_bar path)
  = S (length path) /\
  Forall (fun z => (1 <= z <= Z.of_nat (list_max beats_per_bar))%Z)
    (DBNBarTracking.numbers_of_path beats_per_bar path).
Proof.
  intros Hne Hall. unfold DBNBarTracking.numbers_of_path. cbv zeta.
  split.
  - rewrite length_app, length_map. cbn [length]. lia.
  - apply Forall_app. split.
    + apply Forall_map. eapply Forall_impl; [| exact Hall].
      intros s Hs. cbv beta in Hs |- *.
      destruct (decode beats_per_bar s Hs) as (p & k & _ & Hk & _ & _ & ->).
      pose proof (nth_le_list_max beats_per_bar p). lia.
    + constructor; [| constructor].
      assert (Hlast : (last path 0%nat < Hmm.num_states beats_per_bar)%nat).
      { rewrite Forall_forall in Hall. apply Hall.
        destruct (exists_last Hne) as (l' & a & ->). rewrite last_last.
        apply in_or_app. right. left. reflexivity. }
      destruct (decode beats_per_bar _ Hlast)
        as (p & k & _ & Hk & _ & -> & ->).
      pose proof (nth_le_list_max beats_per_bar p).
      pose proof (Z.mod_pos_bound (Z.of_nat k + 1)
                    (Z.of_nat (nth p beats_per_bar 0%nat)) ltac:(lia)).
      lia.
Qed.

(** X17: for a table of densities with at least one row, batch decoding
    gives a beat number to every row and one more for the beat after the
    last row, and every beat number is between 1 and the largest number
    of beats per bar.  (The state space and Viterbi decoding are modelled
    as for C1 and C2.) *)
Theorem offline_beat_numbers_in_range :
  forall (beats_per_bar : list nat) (pattern_change_prob : Q)
         (switch : nat -> nat -> Q) (observation_pointers : list nat)
         (observation_densities : Np.ndarray -> result (list (list Q)))
         (return_pattern bump_beat_number : bool)
         (beats : list Q) (activations : Np.ndarray)
         (rows : list (list Q)),
    let d := DBNBarTracking.init beats_per_bar pattern_change_prob switch
               observation_pointers observation_densities
               false return_pattern bump_beat_number in
    observation_densities activations = Ok rows ->
    rows <> [] ->
    (0 < Hmm.num_states beats_per_bar)%nat ->
    exists numbers,
      DBNBarTracking.process_offline d beats activations
      = Ok (DBNBarTracking.BeatsAndNumbers (combine beats numbers)) /\
      length numbers = S (length rows) /\
      Forall (fun z => (1 <= z <= Z.of_nat (list_max beats_per_bar))%Z)
        numbers.
Proof.
  intros bpb pcp switch ptrs dens rp bump beats activations rows d
    Hrows Hne Hn.
  destruct (decode_offline_total bpb pcp switch ptrs dens false rp bump
              activations rows Hn Hrows) as (path & Hpath & Hlen & Hall).
  assert (Hpne : path <> []).
  { intros E. subst path. destruct rows; [contradiction | discriminate]. }
  destruct (numbers_of_path_range bpb path Hpne Hall) as [Hnum Hrange].
  exists (DBNBarTracking.numbers_of_path bpb path).
  split; [| split; [rewrite Hnum, Hlen; reflexivity | exact Hrange]].
  unfold DBNBarTracking.process_offline.
  subst d. rewrite Hpath. cbn [bind].
  rewrite (beat_numbers_of_path bpb
             (DBNBarTracking.init bpb pcp switch ptrs dens false rp bump)
             path eq_refl Hpne Hall).
  reflexivity.
Qed.

Lemma offline_beat_numbers_in_range_witness :
  exists numbers,
    DBNBarTracking.process_offline Examples.tracker [1; 2; 3; 4; 5]
      Examples.rising_batch
    = Ok (DBNBarTracking.BeatsAndNumbers
            (combine [1; 2; 3; 4; 5] numbers)) /\
    length numbers = 5%nat /\
    Forall (fun z => (1 <= z <= 4)%Z) numbers.
Proof.
  apply (offline_beat_numbers_in_range [4%nat] 0 (fun _ _ => 0)
           [0; 1; 2; 3]%nat Examples.toy_densities false false
           [1; 2; 3; 4; 5] Examples.rising_batch Examples.rising_rows).
  - reflexivity.
  - discriminate.
  - cbn. lia.
Defined.

Section OnlineNumber.

Variable d : DBNBarTracking.t.

Local Abbreviation bpb := (DBNBarTracking.beats_per_bar d).
Local Abbreviation n := (Hmm.num_states bpb).

Hypothesis states_of_space : Hmm.states (DBNBarTracking.hmm d) = n.
Hypothesis some_state : (0 < n)%nat.

(** The decision for one row of densities is a state of the state space. *)
Lemma decide_state (activation : Np.ndarray) (row : list Q) :
  DBNBarTracking.om_densities d activation = Ok [row] ->
  exists state,
    DBNBarTracking.decide d activation
    = Ok (Hmm.forward_step (DBNBarTracking.hmm d)
            (DBNBarTracking.fwd_prev d) row, state) /\
    (state < n)%nat.
Proof.
  intros Hrow. unfold DBNBarTracking.decide. rewrite Hrow. cbn [bind].
  cbn [Hmm.forward concat]. rewrite app_nil_r.
  pose proof (forward_step_length (DBNBarTracking.hmm d)
                (DBNBarTracking.fwd_prev d) row) as Hlen.
  destruct (argmax_bound (DBNBarTracking.hmm d) ltac:(lia)
              (Hmm.forward_step (DBNBarTracking.hmm d)
                 (DBNBarTracking.fwd_prev d) row))
    as (c & Hc & Hlt).
  { intros E. rewrite E in Hlen. cbn in Hlen. lia. }
  rewrite Hc. cbn [bind]. exists c. split; [reflexivity | lia].
Qed.

End OnlineNumber.



(** ** The bins of a beat hold every frame of the beat once *)

Section Partition.

Variable A : Type.

Local Abbreviation in_order :=
  (ForallOrdPairs (fun p q : Z * A => (fst p <= fst q)%Z)).
Local Abbreviation with_key x :=
  (fun pf : Z * A => Z.eqb (fst pf) (Z.of_nat x)).

(** Pairs in the order of their keys, none below [a]: those with the key
    [a] come first. *)
Lemma first_key_first (a : Z) (pairs : list (Z * A)) :
  in_order pairs ->
  Forall (fun p => (a <= fst p)%Z) pairs ->
  exists l1 l2,
    pairs = l1 ++ l2 /\
    Forall (fun p => fst p = a) l1 /\
    Forall (fun p => (a < fst p)%Z) l2 /\
    in_order l2.
Proof.
  induction 1 as [| p rest Hp Hrest IH]; intros Hlow.
  - exists [], []. repeat split; constructor.
  - inversion Hlow as [| ? ? Hpa Hlow']; subst.
    destruct (Z.eq_dec (fst p) a) as [E | E].
    + destruct (IH Hlow') as (l1 & l2 & -> & H1 & H2 & H3).
      exists (p :: l1), l2. repeat split; auto.
    + exists [], (p :: rest). repeat split; auto.
      * constructor; [lia |].
        eapply Forall_impl; [| exact Hp]. cbv beta. intros q Hq. lia.
      * constructor; assumption.
Qed.

Lemma filter_none (p : Z * A -> bool) (l : list (Z * A)) :
  Forall (fun a => p a = false) l -> filter p l = [].
Proof.
  induction 1 as [| a l Ha _ IH]; cbn [filter]; [reflexivity |].
  rewrite Ha. exact IH.
Qed.

Lemma bins_concat (N : nat) :
  forall (a : nat) (pairs : list (Z * A)),
    in_order pairs ->
    Forall (fun p => (Z.of_nat a <= fst p < Z.of_nat (a + N))%Z) pairs ->
    concat (map (fun x => map snd (filter (with_key x) pairs)) (seq a N))
    = map snd pairs.
Proof.
  induction N as [| N IH]; intros a pairs Hord Hrange.
  - destruct pairs as [| p pairs]; [reflexivity |].
    inversion Hrange; subst. lia.
  - destruct (first_key_first (Z.of_nat a) pairs Hord) as
      (l1 & l2 & -> & H1 & H2 & H3).
    { eapply Forall_impl; [| exact Hrange]. cbv beta. intros p Hp. lia. }
    cbn [seq map concat].
    rewrite filter_app, (filter_all (with_key a) l1), (filter_none _ l2).
    2:{ eapply Forall_impl; [| exact H2]. cbv beta. intros p Hp.
        apply Z.eqb_neq. lia. }
    2:{ eapply Forall_impl; [| exact H1]. cbv beta. intros p Hp.
        apply Z.eqb_eq. exact Hp. }
    rewrite app_nil_r, map_app. f_equal.
    rewrite <- (IH (S a) l2 H3).
    + f_equal. apply map_ext_in. intros x Hx. apply in_seq in Hx.
      rewrite filter_app, (filter_none _ l1); [reflexivity |].
      eapply Forall_impl; [| exact H1]. cbv beta. intros p Hp.
      apply Z.eqb_neq. lia.
    + apply Forall_app in Hrange. destruct Hrange as [_ Hr2].
      rewrite Forall_forall in *. intros p Hp.
      specialize (Hr2 p Hp). specialize (H2 p Hp). lia.
Qed.

Lemma combine_in_order (keys : list Z) :
  ForallOrdPairs Z.le keys ->
  forall vals : list A, in_order (combine keys vals).
Proof.
  induction 1 as [| k keys Hk _ IH]; intros vals; [constructor |].
  destruct vals as [| v vals]; [constructor |].
  cbn [combine]. constructor; [| apply IH].
  apply Forall_forall. intros [k' v'] Hin. cbn [fst].
  apply in_combine_l in Hin. rewrite Forall_forall in Hk. apply Hk. exact Hin.
Qed.

Lemma map_snd_combine (keys : list Z) (vals : list A) :
  length keys = length vals -> map snd (combine keys vals) = vals.
Proof.
  revert vals. induction keys as [| k keys IH]; intros [| v vals] H;
    cbn in *; try discriminate; [reflexivity |].
  rewrite IH by lia. reflexivity.
Qed.

End Partition.

Lemma map_seq_in_order (h : nat -> Z) (m : nat) :
  (forall i j, (i <= j)%nat -> (h i <= h j)%Z) ->
  forall a, ForallOrdPairs Z.le (map h (seq a m)).
Proof.
  intros Hmono. induction m as [| m IH]; intros a; cbn [seq map];
    constructor; [| apply IH].
  apply Forall_map. apply Forall_forall. intros j Hj. apply in_seq in Hj.
  apply Hmono. lia.
Qed.

Section Positions.

Import BeatSync.

Variable n : nat.
Hypothesis some_subdivision : (0 < n)%nat.

Lemma v_mono (D i j : nat) :
  (0 < D)%nat -> (i <= j)%nat ->
  tiny + inject_Z (Z.of_nat i)
         * ((inject_Z (Z.of_nat n) - tiny - tiny) / inject_Z (Z.of_nat D))
  <= tiny + inject_Z (Z.of_nat j)
            * ((inject_Z (Z.of_nat n) - tiny - tiny) / inject_Z (Z.of_nat D)).
Proof.
  intros HD Hij.
  pose proof (step_nonneg n D some_subdivision HD) as Hs.
  pose proof (inj_le_nat i j Hij) as Hle.
  assert (H : inject_Z (Z.of_nat i)
              * ((inject_Z (Z.of_nat n) - tiny - tiny)
                 / inject_Z (Z.of_nat D))
              <= inject_Z (Z.of_nat j)
                 * ((inject_Z (Z.of_nat n) - tiny - tiny)
                    / inject_Z (Z.of_nat D))).
  { apply Qmult_le_compat_r; assumption. }
  lra.
Qed.

Lemma beat_pos_as_map (d : nat) :
  beat_pos_of_frames n (S (S d))
  = map (fun i => Qfloor (tiny + inject_Z (Z.of_nat i)
                                 * ((inject_Z (Z.of_nat n) - tiny - tiny)
                                    / inject_Z (Z.of_nat (S d)))))
      (seq 0 (S (S d))).
Proof.
  unfold beat_pos_of_frames, Np.linspace. rewrite map_map. reflexivity.
Qed.

Lemma beat_pos_in_order (m : nat) :
  ForallOrdPairs Z.le (beat_pos_of_frames n m).
Proof.
  destruct m as [| [| d]].
  - constructor.
  - repeat constructor.
  - rewrite beat_pos_as_map. apply map_seq_in_order.
    intros i j Hij. apply Qfloor_resp_le. apply v_mono; [lia | exact Hij].
Qed.

Lemma beat_pos_range (m : nat) :
  Forall (fun k => (0 <= k < Z.of_nat n)%Z) (beat_pos_of_frames n m).
Proof.
  destruct m as [| [| d]].
  - constructor.
  - constructor; [| constructor]. cbn. lia.
  - rewrite beat_pos_as_map. apply Forall_map. apply Forall_forall.
    intros i Hi. apply in_seq in Hi.
    pose proof (v_first n (S d)) as H0.
    pose proof (v_last n (S d) ltac:(lia)) as H1.
    pose proof (Qfloor_resp_le _ _ (v_mono (S d) 0 i ltac:(lia) ltac:(lia))).
    pose proof (Qfloor_resp_le _ _ (v_mono (S d) i (S d) ltac:(lia)
                                      ltac:(lia))).
    lia.
Qed.

End Positions.

(** X19: the bins of a beat hold every frame of the beat exactly once and
    in order: put one after the other, the bins are the frames of the
    features from the frame the beat starts at up to the frame the next
    beat starts at.  These bins are what the round of the loop hands to
    [interpolate_missing] and takes the means of. *)
Theorem bins_hold_every_frame_once :
  forall (n feat_dim : nat) (fps : Q) (features : list (list Q))
         (start stop : Z) (b_this b_next : Q),
    (0 < n)%nat ->
    (0 <= start <= stop)%Z ->
    BeatSync.next_beat_frame n fps b_this b_next = Ok stop ->
    (stop <= Z.of_nat (length features))%Z ->
    concat (BeatSync.bins_of_beat n features start stop)
    = BeatSync.py_slice features start stop /\
    length (BeatSync.py_slice features start stop)
    = Z.to_nat (stop - start) /\
    BeatSync.sync_beat n fps features feat_dim start b_this b_next
    = (feats_sorted <-
         BeatSync.interpolate_missing n
           (BeatSync.bins_of_beat n features start stop) feat_dim ;;
       Ok (map (BeatSync.mean_axis0 feat_dim) feats_sorted, stop)).
Proof.
  intros n feat_dim fps features start stop b_this b_next Hn Hs Hnf Hstop.
  pose proof (py_slice_length features start stop Hs Hstop) as Hlen.
  split; [| split; [exact Hlen |]].
  - unfold BeatSync.bins_of_beat, BeatSync.frames_of_bin.
    rewrite (bins_concat (list Q) n 0).
    + apply map_snd_combine. rewrite beat_pos_length, Hlen. reflexivity.
    + apply combine_in_order. apply beat_pos_in_order. exact Hn.
    + apply Forall_forall. intros [k v] Hin. cbn [fst].
      apply in_combine_l in Hin.
      pose proof (beat_pos_range n Hn (Z.to_nat (stop - start))) as Hr.
      rewrite Forall_forall in Hr. specialize (Hr k Hin). cbn [Nat.add]. lia.
  - apply (sync_beat_unfold n feat_dim fps features start stop b_this b_next
             Hn (proj1 Hs) Hnf Hstop).
    lia.
Qed.

Lemma bins_hold_every_frame_once_witness :
  concat (BeatSync.bins_of_beat 4 (repeat [1] 50) 0 21)
  = BeatSync.py_slice (repeat [1] 50) 0 21 /\
  length (BeatSync.py_slice (repeat [1] 50) 0 21) = Z.to_nat (21 - 0) /\
  BeatSync.sync_beat 4 100 (repeat [1] 50) 1 0 0 (1 # 4)
  = (feats_sorted <-
       BeatSync.interpolate_missing 4
         (BeatSync.bins_of_beat 4 (repeat [1] 50) 0 21) 1 ;;
     Ok (map (BeatSync.mean_axis0 1) feats_sorted, 21%Z)).
Proof.
  apply (bins_hold_every_frame_once 4 1 100 (repeat [1] 50) 0 21 0 (1 # 4)).
  - lia.
  - lia.
  - reflexivity.
  - rewrite repeat_length. lia.
Defined.

(** ** The frames that batch synchronisation reads *)

Section FramesRead.

Import BeatSync.

Variables f1 f2 : list (list Q).
Variable first : Z.

Hypothesis same_length : length f1 = length f2.
Hypothesis first_nonneg : (0 <= first)%Z.
Hypothesis same_from_first :
  forall i, (first <= Z.of_nat i)%Z -> nth_error f1 i = nth_error f2 i.

Lemma skipn_same (a : nat) :
  (first <= Z.of_nat a)%Z -> skipn a f1 = skipn a f2.
Proof.
  intros Ha. apply nth_error_ext. intros i.
  rewrite !nth_error_skipn. apply same_from_first. lia.
Qed.

Lemma py_slice_same (start stop : Z) :
  (first <= start)%Z -> py_slice f1 start stop = py_slice f2 start stop.
Proof.
  intros Hs. unfold py_slice. rewrite <- same_length.
  set (len := Z.of_nat (length f1)).
  assert (Ha : slice_bound len start = Z.min start len).
  { unfold slice_bound. destruct (Z.ltb_spec start 0); [lia | reflexivity]. }
  rewrite Ha.
  destruct (Z.le_gt_cases len start) as [Hle | Hgt].
  - rewrite !skipn_all2 by lia. reflexivity.
  - rewrite skipn_same by lia. reflexivity.
Qed.

Lemma sync_beat_same (n feat_dim : nat) (fps : Q) (start : Z)
    (b_this b_next : Q) :
  (first <= start)%Z ->
  sync_beat n fps f1 feat_dim start b_this b_next
  = sync_beat n fps f2 feat_dim start b_this b_next.
Proof.
  intros Hs. unfold sync_beat.
  destruct (next_beat_frame n fps b_this b_next) as [nf | e]; cbn [bind];
    [| reflexivity].
  destruct (Z.ltb_spec (nf - start) 0) as [_ | _]; [reflexivity |].
  rewrite (py_slice_same start nf Hs). reflexivity.
Qed.

Lemma sync_beat_goes_on (n feat_dim : nat) (fps : Q)
    (features : list (list Q)) (start : Z) (b_this b_next : Q)
    (row : list (option (list Q))) (next : Z) :
  sync_beat n fps features feat_dim start b_this b_next = Ok (row, next) ->
  (start <= next)%Z.
Proof.
  unfold sync_beat.
  destruct (next_beat_frame n fps b_this b_next) as [nf | e]; cbn [bind];
    [| discriminate].
  destruct (Z.ltb_spec (nf - start) 0) as [_ | Hpos]; [discriminate |].
  destruct (map_result _ _) as [bins | e]; cbn [bind]; [| discriminate].
  destruct (interpolate_missing n bins feat_dim) as [out | e]; cbn [bind];
    [| discriminate].
  intros H. injection H as _ <-. lia.
Qed.

Lemma sync_beats_same (n feat_dim : nat) (fps : Q) (times : list Q) :
  forall start,
    (first <= start)%Z ->
    sync_beats n fps f1 feat_dim start times
    = sync_beats n fps f2 feat_dim start times.
Proof.
  induction times as [| b_this [| b_next rest] IH]; intros start Hs;
    try reflexivity.
  rewrite !sync_beats_step, (sync_beat_same n feat_dim fps start b_this b_next Hs).
  destruct (sync_beat n fps f2 feat_dim start b_this b_next)
    as [[row next] | e] eqn:E; cbn [bind]; [| reflexivity].
  rewrite (IH next); [reflexivity |].
  pose proof (sync_beat_goes_on _ _ _ _ _ _ _ _ _ E). lia.
Qed.

End FramesRead.



(** ** Synchronised features stay in the range of the features *)

Lemma sum_bounds (lo hi : Q) (l : list Q) :
  Forall (fun x => lo <= x <= hi) l ->
  inject_Z (Z.of_nat (length l)) * lo <= Np.sum l
  /\ Np.sum l <= inject_Z (Z.of_nat (length l)) * hi.
Proof.
  induction 1 as [| x l Hx _ IH].
  - unfold Np.sum. cbn [fold_left length].
    change (inject_Z (Z.of_nat 0)) with 0. split; lra.
  - rewrite sum_cons. cbn [length]. rewrite inject_Z_S. lra.
Qed.

Lemma mean_bounds (lo hi : Q) (l : list Q) :
  l <> [] ->
  Forall (fun x => lo <= x <= hi) l ->
  lo <= Np.sum l / inject_Z (Z.of_nat (length l)) <= hi.
Proof.
  intros Hne Hall. destruct (sum_bounds lo hi l Hall) as [Hlo Hhi].
  assert (Hk : 0 < inject_Z (Z.of_nat (length l))).
  { apply inj_pos. destruct l; [contradiction | cbn; lia]. }
  split.
  - apply Qle_shift_div_l; [exact Hk |]. lra.
  - apply Qle_shift_div_r; [exact Hk |]. lra.
Qed.

(** [np.interp] stays between the bounds of the values it is given. *)
Lemma interp_from_bounds (lo hi x : Q) (pts : list (Q * Q)) :
  Forall (fun p => lo <= snd p <= hi) pts ->
  forall x0 f0,
    x0 <= x -> lo <= f0 <= hi ->
    lo <= Np.interp_from x x0 f0 pts <= hi.
Proof.
  induction 1 as [| [x1 f1] pts Hp _ IH]; intros x0 f0 Hx Hf;
    cbn [Np.interp_from]; [exact Hf |].
  cbn [snd] in Hp.
  destruct (Qlt_le_dec x x1) as [Hlt | Hle].
  - assert (Hd : 0 < x1 - x0) by lra.
    set (t := (x - x0) / (x1 - x0)).
    assert (Ht0 : 0 <= t).
    { apply Qle_shift_div_l; [exact Hd |]. lra. }
    assert (Ht1 : t <= 1).
    { apply Qle_shift_div_r; [exact Hd |]. lra. }
    assert (E : (f1 - f0) / (x1 - x0) * (x - x0) + f0
                == f0 + t * (f1 - f0)).
    { unfold t. field. lra. }
    rewrite E.
    assert (H1 : t * (f1 - f0) <= t * (hi - f0)).
    { rewrite !(Qmult_comm t). apply Qmult_le_compat_r; lra. }
    assert (H2 : t * (hi - f0) <= 1 * (hi - f0)).
    { apply Qmult_le_compat_r; lra. }
    assert (H3 : t * (lo - f0) <= t * (f1 - f0)).
    { rewrite !(Qmult_comm t). apply Qmult_le_compat_r; lra. }
    assert (H4 : 1 * (lo - f0) <= t * (lo - f0)).
    { assert (H : t * (f0 - lo) <= 1 * (f0 - lo))
        by (apply Qmult_le_compat_r; lra).
      lra. }
    lra.
  - apply IH; [exact Hle | exact Hp].
Qed.

Lemma interp_at_bounds (lo hi x : Q) (pts : list (Q * Q)) :
  pts <> [] ->
  Forall (fun p => lo <= snd p <= hi) pts ->
  lo <= Np.interp_at x pts <= hi.
Proof.
  intros Hne Hall. destruct pts as [| [x0 f0] pts]; [contradiction |].
  inversion Hall as [| ? ? Hp Hrest]; subst. cbn [snd] in Hp.
  cbn [Np.interp_at].
  destruct (Qlt_le_dec x0 x) as [Hlt | _]; [| exact Hp].
  apply interp_from_bounds; [exact Hrest | lra | exact Hp].
Qed.

Section Range.

Import BeatSync.

Variable feat_dim : nat.
Variables lo hi : nat -> Q.

Hypothesis some_dimension : (0 < feat_dim)%nat.

(** A frame whose value is within the bounds in every dimension *)
Local Abbreviation in_range :=
  (fun frame : list Q =>
     forall d, (d < feat_dim)%nat -> lo d <= nth d frame 0 <= hi d).

Lemma mean_in_range (bin : list (list Q)) :
  bin <> [] -> Forall in_range bin ->
  exists w, mean_axis0 feat_dim bin = Some w /\ in_range w.
Proof.
  intros Hne Hall. destruct bin as [| row bin]; [contradiction |].
  unfold mean_axis0. eexists. split; [reflexivity |].
  intros d Hd. rewrite nth_map_seq by exact Hd.
  rewrite <- (length_map (fun row0 : list Q => nth d row0 0)).
  apply mean_bounds; [discriminate |].
  apply Forall_map. eapply Forall_impl; [| exact Hall].
  intros frame Hf. apply Hf. exact Hd.
Qed.

Lemma bin_mean_in_range (bins : list (list (list Q))) (g d : nat) :
  Forall (Forall in_range) bins ->
  (g < length bins)%nat -> nth g bins [] <> [] -> (d < feat_dim)%nat ->
  lo d <= bin_mean feat_dim bins g d <= hi d.
Proof.
  intros Hall Hg Hs Hd. unfold bin_mean, mean_entry.
  rewrite means_nth_error by exact Hg.
  assert (Hbin : Forall in_range (nth g bins [])).
  { rewrite Forall_forall in Hall. apply Hall. apply nth_In. exact Hg. }
  destruct (mean_in_range _ Hs Hbin) as (w & Hw & Hr).
  unfold nan_or_mean.
  destruct (nth g bins []) as [| row bin] eqn:E; [contradiction |].
  cbn [length Nat.ltb Nat.leb]. rewrite Hw. apply Hr. exact Hd.
Qed.

(** What [interpolate_missing] returns holds frames within the bounds
    only, and a frame in every bin. *)
Lemma interpolate_missing_in_range (bins out : list (list (list Q))) :
  Forall (Forall in_range) bins ->
  interpolate_missing (length bins) bins feat_dim = Ok out ->
  Forall (fun bin => bin <> [] /\ Forall in_range bin) out.
Proof.
  intros Hall H.
  destruct (all_supported_or_missing bins) as [Hsupp | Hmiss].
  - rewrite (interpolate_missing_all_supported bins feat_dim
               some_dimension Hsupp) in H.
    injection H as <-.
    apply Forall_forall. intros bin Hin.
    split.
    + rewrite Forall_forall in Hsupp. apply Hsupp. exact Hin.
    + rewrite Forall_forall in Hall. apply Hall. exact Hin.
  - destruct (all_empty_or_supported bins) as [Hempty | Hsome].
    + destruct Hmiss as (r & Hr & _).
      rewrite interpolate_missing_no_support in H;
        [discriminate | lia | exact some_dimension | exact Hempty].
    + destruct (interpolate_missing_rows bins feat_dim some_dimension
                  Hmiss Hsome) as (out' & Hrun & Hlen & Hrows).
      rewrite Hrun in H. injection H as <-.
      apply Forall_forall. intros bin Hin.
      destruct (In_nth _ _ [] Hin) as (r & Hr & <-).
      rewrite Hlen in Hr. destruct (Hrows r Hr) as [Hm Hs].
      destruct (nth r bins []) as [| row0 rest] eqn:E.
      * destruct (Hm eq_refl) as (row & -> & _ & Hval).
        split; [discriminate |]. constructor; [| constructor].
        intros d Hd. rewrite (Hval d Hd).
        destruct Hsome as (g0 & Hg0 & Hs0).
        apply interp_at_bounds.
        -- intros Enil. apply map_eq_nil in Enil.
           assert (Hin0 : In g0 (filter (good_at feat_dim bins)
                                   (seq 0 (length bins)))).
           { apply filter_In. split; [apply in_seq; lia |].
             apply good_at_supported; assumption. }
           rewrite Enil in Hin0. contradiction.
        -- apply Forall_map. apply Forall_forall. intros g Hgin.
           apply filter_In in Hgin. destruct Hgin as [Hgseq Hgood].
           apply in_seq in Hgseq. cbn [snd].
           apply bin_mean_in_range; try assumption; [lia |].
           intros Enil. rewrite (good_at_missing feat_dim bins g Enil) in Hgood.
           discriminate.
      * rewrite Hs by discriminate.
        split; [discriminate |].
        rewrite Forall_forall in Hall. rewrite <- E. apply Hall.
        apply nth_In. exact Hr.
Qed.

Lemma select_bins_in_range (pos : list Z) (features_beat : list (list Q))
    (l : list nat) (bins : list (list (list Q))) :
  Forall in_range features_beat ->
  map_result (select_bin pos features_beat) l = Ok bins ->
  Forall (Forall in_range) bins.
Proof.
  intros Hall. revert bins. induction l as [| x l IH]; intros bins H;
    cbn [map_result] in H.
  - injection H as <-. constructor.
  - unfold select_bin at 1 in H.
    destruct (negb (Nat.eqb (length pos) (length features_beat)));
      cbn [bind] in H; [discriminate |].
    destruct (map_result (select_bin pos features_beat) l) as [bs | e];
      cbn [bind] in H; [| discriminate].
    injection H as <-. constructor; [| apply IH; reflexivity].
    apply Forall_forall. intros frame Hin.
    apply in_map_iff in Hin. destruct Hin as ([k v] & <- & Hin).
    apply filter_In in Hin. destruct Hin as [Hin _].
    apply in_combine_r in Hin. rewrite Forall_forall in Hall.
    apply Hall. exact Hin.
Qed.

Lemma py_slice_in_range (features : list (list Q)) (start stop : Z) :
  Forall in_range features -> Forall in_range (py_slice features start stop).
Proof.
  intros Hall. unfold py_slice. rewrite Forall_forall in *.
  intros frame Hin. apply Hall.
  match type of Hin with
  | In _ (firstn ?a (skipn ?b _)) =>
      rewrite <- (firstn_skipn b features); apply in_or_app; right;
      rewrite <- (firstn_skipn a (skipn b features)); apply in_or_app; left;
      exact Hin
  end.
Qed.

(** A bin of the result within the bounds *)
Local Abbreviation value_in_range :=
  (fun e : option (list Q) => exists w, e = Some w /\ in_range w).

Lemma sync_beat_in_range (n : nat) (fps : Q) (features : list (list Q))
    (start : Z) (b_this b_next : Q) (row : list (option (list Q)))
    (next : Z) :
  Forall in_range features ->
  sync_beat n fps features feat_dim start b_this b_next = Ok (row, next) ->
  Forall value_in_range row.
Proof.
  intros Hall. unfold sync_beat.
  destruct (next_beat_frame n fps b_this b_next) as [nf | e]; cbn [bind];
    [| discriminate].
  destruct (Z.ltb_spec (nf - start) 0) as [_ | _]; [discriminate |].
  destruct (map_result _ _) as [bins | e] eqn:Ebins; cbn [bind];
    [| discriminate].
  pose proof (map_result_length _ _ _ Ebins) as Hlen.
  rewrite length_seq in Hlen. rewrite <- Hlen.
  apply select_bins_in_range in Ebins;
    [| apply py_slice_in_range; exact Hall].
  destruct (interpolate_missing (length bins) bins feat_dim) as [out | e] eqn:E;
    cbn [bind]; [| discriminate].
  intros H. injection H as <- _.
  apply Forall_map.
  eapply Forall_impl; [| exact (interpolate_missing_in_range bins out Ebins E)].
  intros bin [Hne Hbin]. apply mean_in_range; assumption.
Qed.

Lemma sync_beats_in_range (n : nat) (fps : Q) (features : list (list Q))
    (times : list Q) :
  Forall in_range features ->
  forall (start : Z) (rows : list (list (option (list Q)))),
    sync_beats n fps features feat_dim start times = Ok rows ->
    Forall (Forall value_in_range) rows.
Proof.
  intros Hall. induction times as [| b_this [| b_next rest] IH];
    intros start rows H.
  - injection H as <-. constructor.
  - injection H as <-. constructor.
  - rewrite sync_beats_step in H.
    destruct (sync_beat n fps features feat_dim start b_this b_next)
      as [[row next] | e] eqn:Es; cbn [bind] in H; [| discriminate].
    destruct (sync_beats n fps features feat_dim next (b_next :: rest))
      as [rows' | e] eqn:Er; cbn [bind] in H; [| discriminate].
    injection H as <-.
    constructor; [| apply (IH next); exact Er].
    eapply sync_beat_in_range; [exact Hall | exact Es].
Qed.

End Range.

(** X21: batch synchronisation never leaves the range of the features:
    when in every dimension [d] all frames are between [lo d] and [hi d],
    so is every value that [process_offline] returns, the interpolated
    ones included. *)
Theorem synchronised_features_stay_in_range :
  forall (n : nat) (fps : Q) (beats : BeatSync.beats_array)
         (features : BeatSync.features_array) (lo hi : nat -> Q)
         (out : BeatSync.offline_output),
    (0 < BeatSync.features_dim features)%nat ->
    Forall (fun frame =>
              forall d, (d < BeatSync.features_dim features)%nat ->
                lo d <= nth d frame 0 <= hi d)
      (BeatSync.frames_of features) ->
    BeatSync.process_offline n fps beats features = Ok out ->
    Forall (Forall (fun e =>
                      exists w,
                        e = Some w /\
                        forall d, (d < BeatSync.features_dim features)%nat ->
                          lo d <= nth d w 0 <= hi d))
      (BeatSync.out_features out).
Proof.
  intros n fps beats features lo hi out Hd Hall H.
  unfold BeatSync.process_offline in H.
  destruct (Nat.eqb (BeatSync.beats_size beats) 0).
  { injection H as <-. constructor. }
  destruct (BeatSync.drop_trailing _ _ _ _) as [[rows w1] | e];
    cbn [bind] in H; [| discriminate].
  destruct (map_result (fun r => index r 0) rows) as [times | e];
    [| destruct features; discriminate].
  destruct features as [xs | c frames]; cbn [bind] in H;
    unfold index in H at 1;
    (destruct (nth_error times 0) as [b0 |]; cbn [bind] in H;
     [| discriminate]);
    (destruct (BeatSync.sync_beats _ _ _ _ _ _) as [feats | e] eqn:Es;
     cbn [bind] in H; [| discriminate]);
    injection H as <-; cbn [BeatSync.out_features];
    eapply sync_beats_in_range; try exact Es; try exact Hd; exact Hall.
Qed.

Lemma synchronised_features_in_range_witness :
  exists out,
    BeatSync.process_offline 4 100 (BeatSync.Beats1 [2 # 100; 4 # 100])
      (BeatSync.Feats1 [1; 3; 4; 7; 7]) = Ok out /\
    Forall (Forall (fun e =>
                      exists w,
                        e = Some w /\
                        forall d, (d < 1)%nat -> 1 <= nth d w 0 <= 7))
      (BeatSync.out_features out).
Proof.
  eexists. split; [lazy; reflexivity |].
  apply (synchronised_features_stay_in_range 4 100
           (BeatSync.Beats1 [2 # 100; 4 # 100])
           (BeatSync.Feats1 [1; 3; 4; 7; 7]) (fun _ => 1) (fun _ => 7)).
  - cbn. lia.
  - cbn [BeatSync.frames_of BeatSync.features_dim map].
    repeat (apply Forall_cons;
            [intros [| d] Hd; [cbn; lra | lia] |]).
    apply Forall_nil.
  - lazy. reflexivity.
Defined.
